(** * run_wrf: job-batch construction, pooling and restart preparation

    A shallow embedding of the orchestration logic of [misc_tools.py] and
    [submit_jobs.py], and the properties of it that the specification
    states.

    Conventions.
    - Python integers are [Z].  Python floats that only carry estimates
      (run times in seconds, memory in megabytes) are exact rationals [Q]:
      the embedding follows the arithmetic the source writes, not IEEE
      rounding.
    - A Python call either returns a value, returns [None], or raises; the
      type [pyres] keeps the three apart.
    - Dictionaries whose iteration order is observable (the parameter grid)
      are association lists; dictionaries only looked up (namelists) are
      [gmap]s. *)

From Stdlib Require Import ZArith QArith Qround List Bool Lia Lqa Ascii String.
From stdpp Require Import base option list gmap strings pretty.
Import ListNotations.

Local Open Scope Z_scope.

(** ** Python results *)

Inductive exn : Type :=
  | ValueError (msg : string)
  | RuntimeError (msg : string)
  | ZeroDivisionError
  | OverflowError
  | IndexError
  | TypeError
  | NameError
  | FileNotFoundError
  | OutOfFuel.  (* not a Python exception: a loop bound of the model was
                   reached; shown below never to happen *)

Inductive pyres (A : Type) : Type :=
  | Ret (a : A)
  | RetNone
  | Raise (e : exn).

Arguments Ret {A} a.
Arguments RetNone {A}.
Arguments Raise {A} e.

(** ** misc_tools.find_nproc *)

Module Nproc.

(** [np.arange(a, a + k)]: the [k] consecutive integers from [a]. *)
Fixpoint arange_from (a : Z) (k : nat) : list Z :=
  match k with
  | O => []
  | S k' => a :: arange_from (a + 1) k'
  end.

Definition arange (a b : Z) : list Z := arange_from a (Z.to_nat (b - a)).

(** [n % d] with [d] a numpy integer: the sign follows the divisor as in
    Python, and a zero divisor yields 0 (with a warning) instead of
    raising. *)
Definition np_mod (n d : Z) : Z := if d =? 0 then 0 else n mod d.

(** The [for d in np.arange(...)] loop: the first [d] with [n % d == 0]. *)
Fixpoint first_divisor (n : Z) (ds : list Z) : option Z :=
  match ds with
  | [] => None
  | d :: ds' => if np_mod n d =? 0 then Some d else first_divisor n ds'
  end.

(** [int(n/d)] for the [d] the loop stopped at.  For [d = 0] the float
    quotient is infinite (or not a number when [n = 0]) and [int] raises;
    otherwise [d] divides [n] and the quotient is exact. *)
Definition int_quotient (n d : Z) : pyres Z :=
  if d =? 0 then
    Raise (if n =? 0 then ValueError "cannot convert float NaN to integer"
           else OverflowError)
  else Ret (n / d).

Definition find_nproc (n min_n_per_proc : Z) (even_split : bool) : pyres Z :=
  if n <=? min_n_per_proc then Ret 1
  else if even_split then
    match first_divisor n (arange min_n_per_proc (n + 1)) with
    | Some d => int_quotient n d
    | None => RetNone
    end
  else if min_n_per_proc =? 0 then Raise ZeroDivisionError
  else Ret (n / min_n_per_proc).

End Nproc.


(** ** submit_jobs: the pooling branch of the repetition loop *)

Module Pool.

Inductive scheduler : Type := SGE | SLURM.

(** The fields of the config module the pooling branch reads. *)
Record config : Type := {
  pool_size : Z;
  request_vmem : bool;
  send_rt_signal : Q;
  send_rt_signal_restart : Q;
}.

(** The arguments of [submit_jobs] the pooling branch reads.
    [job_scheduler] is [None] when [use_job_scheduler] is false;
    [pool_jobs] is the value after line 123 ([force_pool] under slurm). *)
Record options : Type := {
  job_scheduler : option scheduler;
  pool_jobs : bool;
  restart : bool;
  check_args : bool;
}.

(** One pass of the repetition loop (lines 298-569, [init] false).
    [skip] is the flag lines 390-424 compute; [rtri] is the value line 441
    computes for a run that is not skipped; [vmemi] is [None] unless
    [conf.request_vmem] holds under a job scheduler (lines 266-284). *)
Record rep : Type := {
  IDr : string;
  nslotsi : Z;
  nx : Z;
  ny : Z;
  vmemi : option Q;
  rtri : Q;
  skip : bool;
}.

(** One configuration (one pass of the outer loop): [cfg_skip] is the
    [skip] that [set_vmem_rt] returns, which leaves the pass at line 282
    before any repetition is looked at. *)
Record batch_config : Type := {
  cfg_skip : bool;
  reps : list rep;
}.

(** What one pass of the [while iterate] loop hands to the shell. *)
Record submission : Type := {
  sub_job_name : string;
  sub_IDs : list string;
  sub_nslots : list Z;
  sub_nxny : list (Z * Z);
  sub_rtp : option (Z * Z * Z);   (* wall-clock limit, hours:minutes:seconds *)
  sub_rtlimit : option Z;
  sub_vmemp : option Z;
  sub_executed : bool;            (* [os.system] is called: not check_args *)
}.

(** The pool: five parallel lists, and the variable [rtri], which is
    unbound ([None]) until a run is accepted and then holds [None] or a
    number. *)
Record state : Type := {
  IDs : list string;
  rtr : list (option Q);
  vmem : list (option Q);
  nslots : list Z;
  nxny : list (Z * Z);
  rtri_var : option (option Q);
}.

Definition initial_state : state :=
  {| IDs := []; rtr := []; vmem := []; nslots := []; nxny := [];
     rtri_var := None |}.

(** What the pooling branch does to the outside: line 462-463 print the
    pool about to be submitted, line 538 runs the command. *)
Inductive event : Type :=
  | Announce (ids : list string) (total_cores : Z)
  | Submit (sub : submission).

(** The events so far, and either an exception or a value. *)
Definition M (A : Type) : Type := list event * (exn + A).

Definition ret {A} (a : A) : M A := ([], inr a).
Definition raise {A} (e : exn) : M A := ([], inl e).
Definition emit (e : event) : M unit := ([e], inr tt).
Definition lift {A} (r : exn + A) : M A := ([], r).

Definition bind {A B} (m : M A) (f : A -> M B) : M B :=
  match m with
  | (t, inl e) => (t, inl e)
  | (t, inr a) => (t ++ fst (f a), snd (f a))
  end.

Notation "'do' x <- m ; k" := (bind m (fun x => k))
  (at level 10, x name, m at level 100, k at level 200).

Definition msg_rt_signal : string :=
  "Requested runtime is smaller then the time when the runtime limit signal is sent!".
Definition msg_pool_size : string :=
  "Pool size smaller than number of slots of current job!".
Definition msg_empty_max : string := "max() arg is an empty sequence".

(** [sum(nslots)] *)
Definition py_sum (l : list Z) : Z := fold_left Z.add l 0.

(** [sum(vmem)]: adding [None] raises. *)
Fixpoint py_sum_Q (acc : Q) (l : list (option Q)) : exn + Q :=
  match l with
  | [] => inr acc
  | Some x :: l' => py_sum_Q (acc + x)%Q l'
  | None :: _ => inl TypeError
  end.

(** [max(rtr)]: the first largest element; raises on the empty list. *)
Definition py_max_step (acc : exn + Q) (y : option Q) : exn + Q :=
  match acc, y with
  | inr m, Some v => inr (if Qlt_le_dec m v then v else m)
  | inr _, None => inl TypeError
  | inl e, _ => inl e
  end.

Definition py_max (l : list (option Q)) : exn + Q :=
  match l with
  | [] => inl (ValueError msg_empty_max)
  | Some v :: l' => fold_left py_max_step l' (inr v)
  | None :: _ => inl TypeError
  end.

(** [int(x)] on a float: truncation towards zero. *)
Definition py_int (q : Q) : Z := Z.quot (Qnum q) (Zpos (Qden q)).

(** [misc_tools.format_timedelta]: hours, minutes and seconds of [td]. *)
Definition format_timedelta (td : Q) : Z * Z * Z :=
  let hours := Qfloor (td / inject_Z 3600) in
  let remainder := (td - inject_Z (3600 * hours))%Q in
  let minutes := Qfloor (remainder / inject_Z 60) in
  let seconds := (remainder - inject_Z (60 * minutes))%Q in
  (hours, minutes, py_int seconds).

Section Submit.

Variable conf : config.
Variable opts : options.

(** Lines 450-454: the last entry of every list is cut. *)
Definition trim (s : state) : state :=
  {| IDs := removelast (IDs s); rtr := removelast (rtr s);
     vmem := removelast (vmem s); nslots := removelast (nslots s);
     nxny := removelast (nxny s); rtri_var := rtri_var s |}.

(** Lines 498-499. *)
Definition pool_vmemp (s : state) : M (option Z) :=
  if request_vmem conf then
    do tot <- lift (py_sum_Q 0 (vmem s));
    if py_sum (nslots s) =? 0 then raise ZeroDivisionError
    else ret (Some (py_int (tot / inject_Z (py_sum (nslots s)))))
  else ret None.

(** Lines 462-551: one submission.  Under a job scheduler the limits of
    the pool are computed and the signal time is checked before the
    command is run. *)
Definition submit_pool (r : rep) (s : state) : M unit :=
  let job_name :=
    if pool_jobs opts then String.append "pool_" (String.concat "_" (IDs s))
    else IDr r in
  do _ <- emit (Announce (IDs s) (py_sum (nslots s)));
  match job_scheduler opts with
  | Some _ =>
      let send :=
        if restart opts then send_rt_signal_restart conf
        else send_rt_signal conf in
      do vmemp <- pool_vmemp s;
      do rtr_max <- lift (py_max (rtr s));
      if Qlt_le_dec rtr_max send then
        raise (ValueError msg_rt_signal)
      else
        emit (Submit
             {| sub_job_name := job_name; sub_IDs := IDs s;
                sub_nslots := nslots s; sub_nxny := nxny s;
                sub_rtp := Some (format_timedelta rtr_max);
                sub_rtlimit := Some (py_int (rtr_max - send));
                sub_vmemp := vmemp;
                sub_executed := negb (check_args opts) |})
  | None =>
      emit (Submit
           {| sub_job_name := job_name; sub_IDs := IDs s;
              sub_nslots := nslots s; sub_nxny := nxny s;
              sub_rtp := None; sub_rtlimit := None; sub_vmemp := None;
              sub_executed := negb (check_args opts) |})
  end.

(** Lines 554-558: the run of the current pass alone. *)
Definition seeded (r : rep) (rt : option Q) (s : state) : state :=
  {| IDs := [IDr r]; rtr := [rt]; vmem := [vmemi r];
     nslots := [nslotsi r]; nxny := [(nx r, ny r)];
     rtri_var := rtri_var s |}.

(** Lines 565-569: the empty pool. *)
Definition emptied (s : state) : state :=
  {| IDs := []; rtr := []; vmem := []; nslots := []; nxny := [];
     rtri_var := rtri_var s |}.

(** Lines 553-569: the pool after a submission.  The result carries the
    new values of [last_id] and [iterate]. *)
Definition after_submit (r : rep) (resched_i last_id : bool) (s : state)
  : M (state * bool * bool) :=
  if resched_i then
    match rtri_var s with
    | None => raise NameError
    | Some rt =>
        if last_id then ret (seeded r rt s, false, true)
        else ret (seeded r rt s, last_id, false)
    end
  else ret (emptied s, last_id, false).

(** Lines 459-569: [while iterate]. *)
Fixpoint flush_while (fuel : nat) (r : rep) (resched_i last_id : bool)
  (s : state) : M state :=
  match fuel with
  | O => raise OutOfFuel
  | S fuel' =>
      do _ <- submit_pool r s;
      do res <- after_submit r resched_i last_id s;
      let '(s', last_id', iterate) := res in
      if iterate then flush_while fuel' r resched_i last_id' s'
      else ret s'
  end.

(** Lines 445-457: the overflow split, or the error for a single run that
    does not fit.  Returns the pool to submit and [resched_i]. *)
Definition overflow_split (s : state) : M (state * bool) :=
  if pool_jobs opts && (pool_size conf <? py_sum (nslots s)) then
    if (1 <? length (nslots s))%nat then ret (trim s, true)
    else
      match job_scheduler opts with
      | Some SGE =>
          raise (ValueError msg_pool_size)
      | _ => ret (s, false)
      end
  else ret (s, false).

(** Lines 444-569. *)
Definition flush (last_id : bool) (r : rep) (s : state) : M state :=
  do sp <- overflow_split s;
  flush_while 2 r (snd sp) last_id (fst sp).

Definition flush_due (last_id : bool) (s : state) : bool :=
  negb (pool_jobs opts) || (pool_size conf <=? py_sum (nslots s)) || last_id.

(** Lines 299-301 then 431-433: the three lists a pass appends to at its
    start are cut back when the run is skipped. *)
Definition skipped (r : rep) (s : state) : state :=
  {| IDs := IDs s; rtr := rtr s;
     vmem := removelast (vmem s ++ [vmemi r]);
     nslots := removelast (nslots s ++ [nslotsi r]);
     nxny := removelast (nxny s ++ [(nx r, ny r)]);
     rtri_var := rtri_var s |}.

(** Lines 299-301 then 438-442: the run joins the pool.  [rtri] is set to
    [None] and, under a job scheduler, to the run time, which is then
    appended to [rtr]. *)
Definition current_rt (r : rep) : option Q :=
  match job_scheduler opts with
  | Some _ => Some (rtri r)
  | None => None
  end.

Definition appended (r : rep) (s : state) : state :=
  {| IDs := IDs s ++ [IDr r];
     rtr := match job_scheduler opts with
            | Some _ => rtr s ++ [current_rt r]
            | None => rtr s
            end;
     vmem := vmem s ++ [vmemi r];
     nslots := nslots s ++ [nslotsi r];
     nxny := nxny s ++ [(nx r, ny r)];
     rtri_var := Some (current_rt r) |}.

(** Lines 299-301 and 427-569: one repetition. *)
Definition step (last_id : bool) (r : rep) (s : state) : M state :=
  if skip r then
    let s1 := skipped r s in
    if negb last_id || (length (nslots s1) =? 0)%nat then ret s1
    else if flush_due last_id s1 then flush last_id r s1 else ret s1
  else
    let s1 := appended r s in
    if flush_due last_id s1 then flush last_id r s1 else ret s1.

(** The repetition loop of one configuration; [last_cfg] tells whether it
    is the last row of [param_combs]. *)
Fixpoint rep_loop (last_cfg : bool) (rs : list rep) (s : state) : M state :=
  match rs with
  | [] => ret s
  | r :: rs' =>
      do s' <- step (last_cfg && match rs' with [] => true | _ => false end) r s;
      rep_loop last_cfg rs' s'
  end.

(** The loop over configurations (line 160). *)
Fixpoint cfg_loop (cs : list batch_config) (s : state) : M state :=
  match cs with
  | [] => ret s
  | c :: cs' =>
      if cfg_skip c then cfg_loop cs' s
      else
        do s' <- rep_loop match cs' with [] => true | _ => false end (reps c) s;
        cfg_loop cs' s'
  end.

Definition submit_jobs (batch : list batch_config) : M state :=
  cfg_loop batch initial_state.

(** *** Vocabulary of the properties *)

(** The signal time that applies (lines 493-496). *)
Definition send_signal : Q :=
  if restart opts then send_rt_signal_restart conf else send_rt_signal conf.

(** The submissions of a trace, in order. *)
Definition submitted (t : list event) : list submission :=
  flat_map (fun e => match e with Submit sub => [sub] | Announce _ _ => [] end) t.

(** The runs a batch accepts, in order: the repetitions that are not
    skipped, of the configurations that are not skipped. *)
Definition accepted_of (rs : list rep) : list rep :=
  List.filter (fun r => negb (skip r)) rs.

Definition accepted (batch : list batch_config) : list rep :=
  flat_map (fun c => if cfg_skip c then [] else accepted_of (reps c)) batch.

Definition nonempty {A} (l : list A) : bool :=
  match l with [] => false | _ => true end.

(** The last pass of the outer loop reaches the pooling code: its
    configuration is not skipped and has a repetition. *)
Fixpoint last_reached (batch : list batch_config) : bool :=
  match batch with
  | [] => false
  | [c] => negb (cfg_skip c) && nonempty (reps c)
  | _ :: cs => last_reached cs
  end.

(** The errors the pooling branch can end in. *)
Definition expected_error (e : exn) : Prop :=
  e = TypeError \/ e = ZeroDivisionError \/
  e = ValueError msg_rt_signal \/ e = ValueError msg_pool_size.

(** The state holds exactly the runs [ms], list by list. *)
Definition holds (s : state) (ms : list rep) : Prop :=
  IDs s = map IDr ms /\
  nslots s = map nslotsi ms /\
  nxny s = map (fun r => (nx r, ny r)) ms /\
  vmem s = map vmemi ms /\
  (job_scheduler opts <> None -> rtr s = map (fun r => Some (rtri r)) ms).

(** Sum of a list of rationals, as [sum] computes it. *)
Definition qsum (l : list Q) : Q := fold_left Qplus l 0%Q.

(** The first largest element of a non-empty list of rationals. *)
Definition qmax (x : Q) (l : list Q) : Q :=
  fold_left (fun m v => if Qlt_le_dec m v then v else m) l x.

(** Submission [sub] is the pool of the runs [ms]. *)
Record pool_of (sub : submission) (ms : list rep) : Prop := {
  po_nonempty : ms <> [];
  po_IDs : sub_IDs sub = map IDr ms;
  po_nslots : sub_nslots sub = map nslotsi ms;
  po_nxny : sub_nxny sub = map (fun r => (nx r, ny r)) ms;
  po_rt :
    match job_scheduler opts with
    | Some _ =>
        exists r0 ms0, ms = r0 :: ms0 /\
          let m := qmax (rtri r0) (map rtri ms0) in
          sub_rtp sub = Some (format_timedelta m) /\
          sub_rtlimit sub = Some (py_int (m - send_signal)) /\
          (send_signal <= m)%Q
    | None => sub_rtp sub = None /\ sub_rtlimit sub = None
    end;
  po_vmem :
    match job_scheduler opts with
    | Some _ =>
        if request_vmem conf then
          exists vs, map vmemi ms = map Some vs /\
            py_sum (map nslotsi ms) <> 0 /\
            sub_vmemp sub =
              Some (py_int (qsum vs / inject_Z (py_sum (map nslotsi ms))))
        else sub_vmemp sub = None
    | None => sub_vmemp sub = None
    end;
}.

(** Between two passes of the repetition loop a pool of two or more runs
    is below capacity; without pooling the pool is empty. *)
Definition cap_ok (ms : list rep) : Prop :=
  if pool_jobs opts then
    (2 <= length ms)%nat -> py_sum (map nslotsi ms) < pool_size conf
  else ms = [].

Definition Inv (s : state) (ms : list rep) : Prop := holds s ms /\ cap_ok ms.

(** Every announced and every submitted pool names at least one run. *)
Definition names_a_run (e : event) : Prop :=
  match e with
  | Announce ids _ => ids <> []
  | Submit sub => sub_IDs sub <> []
  end.

(** The submissions of trace [t] are, one by one, the pools [pools]. *)
Definition good_trace (t : list event) (pools : list (list rep)) : Prop :=
  Forall2 pool_of (submitted t) pools /\ Forall names_a_run t.

(** What a stretch of the loop that had to place the runs [todo] has
    done: the submitted pools are a prefix of [todo]; after a normal end
    the rest is the pool held in the state, and nothing is left when the
    stretch contained the last pass ([final]); only an expected error can
    end it early. *)
Definition post (final : bool) (todo : list rep) (out : M state) : Prop :=
  exists pools, good_trace (fst out) pools /\
    match snd out with
    | inr s' =>
        exists ms', Inv s' ms' /\
          if final then concat pools = todo else concat pools ++ ms' = todo
    | inl e => expected_error e /\ exists rest, concat pools ++ rest = todo
    end.


End Submit.

(** *** Sample batches *)

Definition mk_rep (id : string) (n : Z) (rt : Z) (sk : bool) : rep :=
  {| IDr := id; nslotsi := n; nx := n; ny := 1;
     vmemi := Some (inject_Z 100); rtri := inject_Z rt; skip := sk |}.

Definition mk_cfg (rs : list rep) : batch_config :=
  {| cfg_skip := false; reps := rs |}.

(** A configuration for which [set_vmem_rt] finds no estimate. *)
Definition skipped_cfg (rs : list rep) : batch_config :=
  {| cfg_skip := true; reps := rs |}.

Definition conf10 : config :=
  {| pool_size := 10; request_vmem := true; send_rt_signal := inject_Z 60;
     send_rt_signal_restart := inject_Z 60 |}.

(** The signal is sent exactly at the wall-clock limit of a one-hour run. *)
Definition conf_signal_at_limit : config :=
  {| pool_size := 10; request_vmem := true; send_rt_signal := inject_Z 3600;
     send_rt_signal_restart := inject_Z 3600 |}.

Definition pooled (js : scheduler) : options :=
  {| job_scheduler := Some js; pool_jobs := true; restart := false;
     check_args := false |}.

End Pool.

(** ** misc_tools.get_identical_runs *)

Module Identical.


Section Namelists.

(** The values [get_namelist.namelist_to_dict] puts in a namelist
    dictionary; all the function does with them is compare them. *)
Context {V : Type} `{EqDecision V}.







End Namelists.


End Identical.

(** ** misc_tools.prepare_restart *)

Module Restart.

Local Open Scope string_scope.

(** [s.split(sep)] for a one-character separator. *)
Fixpoint split (sep : ascii) (s : string) : list string :=
  match s with
  | EmptyString => [EmptyString]
  | String c s' =>
      if Ascii.eqb c sep then EmptyString :: split sep s'
      else
        match split sep s' with
        | [] => [String c EmptyString]
        | w :: ws => String c w :: ws
        end
  end.

(** [l[-1]], [l[-2:]] and [l[1:]] on the lists [split] returns, which are
    never empty. *)
Definition last_of (l : list string) : string := List.last l "".
Definition last_two (l : list string) : list string :=
  skipn (length l - 2) l.
Definition from_second (l : list string) : list string := List.tl l.

Definition slash : ascii := "/"%char.
Definition underscore : ascii := "_"%char.
Definition newline : ascii := "010"%char.
Definition dash : ascii := "-"%char.
Definition colon : ascii := ":"%char.

(** What the function reads from outside the file system: the lines of
    [wdir/run.log] ([None] when the file cannot be opened), what
    [ls -t wdir/wrfrst*] prints, and the exit status of the shell
    command. *)
Record oracle : Type := {
  run_log : option (list string);
  ls_rst : string;
  search_replace_status : Z;
}.

(** What the function can change: the files, and what it prints, creates,
    exports and runs. *)
Record world : Type := {
  files : gset string;
  dirs_made : list string;
  printed : list string;
  environ : list (string * string);
  commands : list string;
}.

Definition print (msg : string) (w : world) : world :=
  {| files := files w; dirs_made := dirs_made w;
     printed := (printed w ++ [msg])%list; environ := environ w;
     commands := commands w |}.

Definition makedirs (path : string) (w : world) : world :=
  {| files := files w; dirs_made := (dirs_made w ++ [path])%list;
     printed := printed w; environ := environ w; commands := commands w |}.

Definition rename (src dst : string) (w : world) : world :=
  {| files := {[dst]} ∪ (files w ∖ {[src]}); dirs_made := dirs_made w;
     printed := printed w; environ := environ w; commands := commands w |}.

Definition setenv (k v : string) (w : world) : world :=
  {| files := files w; dirs_made := dirs_made w; printed := printed w;
     environ := (environ w ++ [(k, v)])%list; commands := commands w |}.

Definition system (cmd : string) (w : world) : world :=
  {| files := files w; dirs_made := dirs_made w; printed := printed w;
     environ := environ w; commands := (commands w ++ [cmd])%list |}.

Definition msg_complete : string := "Run already complete".
Definition msg_no_rst : string := "WARNING: no restart files found. Skipping...".

(** The line the model writes to the log when the run has finished. *)
Definition success_line (end_time : string) : string :=
  "d01 " ++ end_time ++ " wrf: SUCCESS COMPLETE WRF" ++ String newline "".

(** Line 867: the date and the time in the name of the newest restart
    file, the first line [ls -t] prints. *)
Definition newest_restart_time (rstfiles : string) : list string :=
  last_two (split underscore
              (last_of (split slash (hd "" (split newline rstfiles))))).

(** Line 866: the run ID in the name of the run directory. *)
Definition run_ID (wdir : string) : string :=
  String.concat "_" (from_second (split underscore (last_of (split slash wdir)))).

Definition units : list string :=
  ["year"; "month"; "day"; "hour"; "minute"; "second"].

(** Lines 886-889 for one of "start" and "end". *)
Definition rst_opt_of (se : string) (ts : list string) : string :=
  String.concat ""
    (map (fun ut => " " ++ se ++ "_" ++ fst ut ++ " " ++ snd ut)
         (combine units ts)).

(** The backup name of [fname] with restart index [i]. *)
Definition rst_name (outpath fname : string) (i : nat) : string :=
  outpath ++ "/rst/" ++ fname ++ "_rst_" ++ pretty i.

(** Lines 895-897: the first index whose backup name is free.  Among
    [size fs + 1] indices one is free. *)
Definition first_free (fs : gset string) (outpath fname : string) : option nat :=
  List.find (fun i => negb (bool_decide (rst_name outpath fname i ∈ fs)))
            (seq 0 (S (size fs))).

(** Lines 893-898: the output files are moved to the backup folder. *)
Fixpoint move_outfiles (outpath : string) (outfiles : list string) (w : world)
    : world * option exn :=
  match outfiles with
  | [] => (w, None)
  | f :: rest =>
      let fname := last_of (split slash f) in
      match first_free (files w) outpath fname with
      | None => (w, Some OutOfFuel)
      | Some rst_ind =>
          if bool_decide (f ∈ files w) then
            move_outfiles outpath rest
              (rename f (rst_name outpath fname rst_ind) w)
          else (w, Some FileNotFoundError)
      end
  end.

Section PrepareRestart.

(** [datetime.strptime(s, '%Y-%m-%d_%H:%M:%S')], in seconds; [None] when
    [s] is not of that format. *)
Variable strptime : string -> option Z.

Definition prepare_restart (o : oracle) (w : world)
    (wdir outpath : string) (output_streams : list string)
    (end_time : string) : world * pyres Q :=
  match run_log o with
  | None => (w, Raise FileNotFoundError)
  | Some runlog =>
      if bool_decide (success_line end_time ∈ runlog) then
        (print msg_complete w, RetNone)
      else if bool_decide (ls_rst o = "") then
        (print msg_no_rst w, RetNone)
      else
        let ID := run_ID wdir in
        let restart_time := newest_restart_time (ls_rst o) in
        let w1 :=
          print ("Restart run from " ++ String.concat " " restart_time) w in
        match strptime (String.concat "_" restart_time) with
        | None => (w1, Raise (ValueError "time data does not match format"))
        | Some start_time_rst =>
            match restart_time with
            | [rst_date; rst_time] =>
                let times_start :=
                  (split dash rst_date ++ split colon rst_time)%list in
                match strptime end_time with
                | None =>
                    (w1, Raise (ValueError "time data does not match format"))
                | Some end_time_dt =>
                    match split underscore end_time with
                    | [end_d; end_t] =>
                        let times_end :=
                          (split dash end_d ++ split colon end_t)%list in
                        let run_hours :=
                          (inject_Z (end_time_dt - start_time_rst)
                             / inject_Z 3600)%Q in
                        if Qle_bool run_hours 0 then
                          (print msg_complete w1, RetNone)
                        else
                          let rst_opt :=
                            "restart .true" ++ rst_opt_of "start" times_start
                              ++ rst_opt_of "end" times_end in
                          let w2 := makedirs (outpath ++ "/rst/") w1 in
                          let outfiles :=
                            List.filter (fun f => bool_decide (f ∈ files w2))
                              (map (fun stream =>
                                      outpath ++ "/" ++ stream ++ "_" ++ ID)
                                   output_streams) in
                          match move_outfiles outpath outfiles w2 with
                          | (w3, Some e) => (w3, Raise e)
                          | (w3, None) =>
                              let w4 := setenv "code_dir" "." w3 in
                              let w5 :=
                                system ("bash search_replace.sh " ++ wdir
                                          ++ "/namelist.input " ++ wdir
                                          ++ "/namelist.input 0 " ++ rst_opt)
                                       w4 in
                              if (search_replace_status o =? 0)%Z then
                                (w5, Ret run_hours)
                              else
                                (w5, Raise (RuntimeError
                                  "Error in preparing restart run! Failed to modify namelist values!"))
                          end
                    | _ => (w1, Raise (ValueError "unpack"))
                    end
                end
            | _ => (w1, Raise (ValueError "unpack"))
            end
        end
  end.

End PrepareRestart.

(** What a pass that only prints leaves alone. *)
Definition untouched (w w' : world) : Prop :=
  files w' = files w /\ dirs_made w' = dirs_made w /\
  environ w' = environ w /\ commands w' = commands w.

(** *** A sample run directory *)

(** [strptime] on the three time stamps of the sample. *)
Definition sample_strptime (s : string) : option Z :=
  if String.eqb s "2018-06-20_07:00:00" then Some 25200
  else if String.eqb s "2018-06-20_08:00:00" then Some 28800
  else if String.eqb s "2018-06-20_10:00:00" then Some 36000
  else None.

Definition sample_oracle : oracle :=
  {| run_log := Some ["d01 2018-06-20_08:00:00 wrf: timing" ++ String newline ""];
     ls_rst := "/runs/WRF_pytest_lin_0/wrfrst_d01_2018-06-20_08:00:00"
               ++ String newline
                  ("/runs/WRF_pytest_lin_0/wrfrst_d01_2018-06-20_07:00:00"
                   ++ String newline "");
     search_replace_status := 0 |}.

Definition sample_world : world :=
  {| files := {[ "/out/wrfout_pytest_lin_0"; "/out/rst/wrfout_pytest_lin_0_rst_0" ]};
     dirs_made := []; printed := []; environ := []; commands := [] |}.

End Restart.

(** ** misc_tools.grid_combinations, by value *)

Module Grid.

Local Open Scope string_scope.

(** The values of parameters: numbers and strings, and any other object
    that [flatten_list] does not take for a sequence. *)
Inductive scalar : Type :=
  | SInt (z : Z)
  | SFloat (q : Q)
  | SStr (s : string)
  | SObj (id : nat).

#[local] Set Warnings "-register-all".

(** An element of an axis, or of a tuple of [itertools.product]: a value,
    or a list of elements. *)
Inductive item : Type :=
  | Atom (v : scalar)
  | Seq (l : list item).

(** A value of [param_grid]: the values of a parameter, or a composite
    parameter, a dictionary from sub-parameter names to their values. *)
Inductive grid_value : Type :=
  | Values (vals : list scalar)
  | Composite (subs : list (string * list scalar)).

(** Dictionaries keep the order of insertion; their keys are distinct. *)
Definition dict (A : Type) : Type := list (string * A).

Definition param_grid : Type := dict grid_value.

Definition msg_lengths : string :=
  "All parameter ranges that belong to the same composite must have equal lengths!".

(** [d[k] = v]: the value of an existing key is replaced in place, a new
    key goes to the end. *)
Fixpoint dict_set {A} (d : dict A) (k : string) (v : A) : dict A :=
  match d with
  | [] => [(k, v)]
  | (k', v') :: d' =>
      if String.eqb k' k then (k, v) :: d' else (k', v') :: dict_set d' k v
  end.

Fixpoint dict_get {A} (d : dict A) (k : string) : option A :=
  match d with
  | [] => None
  | (k', v') :: d' => if String.eqb k' k then Some v' else dict_get d' k
  end.

Definition dict_has {A} (d : dict A) (k : string) : bool :=
  match dict_get d k with Some _ => true | None => false end.

(** [del d[k]]; [None] stands for the [KeyError] of an absent key. *)
Fixpoint dict_del {A} (d : dict A) (k : string) : option (dict A) :=
  match d with
  | [] => None
  | (k', v') :: d' =>
      if String.eqb k' k then Some d'
      else option_map (cons (k', v')) (dict_del d' k)
  end.

(** [odict(zip(keys, values))] *)
Definition odict_zip {A} (keys : list string) (values : list A) : dict A :=
  fold_left (fun d kv => dict_set d (fst kv) (snd kv)) (combine keys values) [].

(** [flatten_list] *)
Fixpoint flatten_item (it : item) : list scalar :=
  match it with
  | Atom v => [v]
  | Seq l => flat_map flatten_item l
  end.

Definition flatten_list (l : list item) : list scalar :=
  flat_map flatten_item l.

(** The first elements of all the lists, when none is exhausted. *)
Fixpoint heads {A} (l : list (list A)) : option (list A) :=
  match l with
  | [] => Some []
  | [] :: _ => None
  | (x :: _) :: l' => option_map (cons x) (heads l')
  end.

(** [zip( *l)], at most [fuel] tuples. *)
Fixpoint zip_star {A} (fuel : nat) (l : list (list A)) : list (list A) :=
  match fuel with
  | O => []
  | S fuel' =>
      match heads l with
      | Some hs => hs :: zip_star fuel' (map (@List.tl A) l)
      | None => []
      end
  end.

(** [transpose_list]: [list(map(list, zip( *l)))].  The first list bounds
    the number of tuples. *)
Definition transpose_list {A} (l : list (list A)) : list (list A) :=
  match l with
  | [] => []
  | x :: _ => zip_star (length x) l
  end.

(** [np.arange(n)] *)
Definition arange (n : nat) : list scalar :=
  map (fun i => SInt (Z.of_nat i)) (seq 0 n).

(** [itertools.product( *axes)]: the last axis runs fastest. *)
Fixpoint product {A} (axes : list (list A)) : list (list A) :=
  match axes with
  | [] => [[]]
  | axis :: rest =>
      flat_map (fun x => map (cons x) (product rest)) axis
  end.

(** The variables of the loop at lines 166-181. *)
Record loop_state : Type := {
  d : dict (list item);
  param_grid_flat : dict (list scalar);
  params : list string;
  composite_params : dict (list string);
}.

(** Lines 168-176: the axis that replaces a composite in [d]. *)
Definition composite_axis (subs : list (string * list scalar)) (len0 : nat)
    : list item :=
  map Seq (transpose_list (map (fun kv => map Atom (snd kv)) subs
                             ++ [map Atom (arange len0)])%list).

(** Lines 177-179: the sub-parameters take the place of the composite in
    [param_grid_flat]. *)
Definition flatten_composite (flat : dict (list scalar)) (param : string)
    (subs : list (string * list scalar)) : option (dict (list scalar)) :=
  dict_del (fold_left (fun f kv => dict_set f (fst kv) (snd kv)) subs flat)
           param.

(** Lines 166-181.  [d] starts as a copy of [param_grid]; the model
    collects its values, the axes, entry by entry. *)
Fixpoint for_params (entries : param_grid) (st : loop_state)
    : pyres loop_state :=
  match entries with
  | [] => Ret st
  | (param, Values vals) :: rest =>
      for_params rest
        {| d := (d st ++ [(param, map Atom vals)])%list;
           param_grid_flat := param_grid_flat st;
           params := (params st ++ [param])%list;
           composite_params := composite_params st |}
  | (param, Composite subs) :: rest =>
      let lens := map (fun kv => length (snd kv)) subs in
      match lens with
      | [] => Raise IndexError
      | len0 :: _ =>
          if existsb (fun n => negb (Nat.eqb len0 n)) lens then
            Raise (ValueError msg_lengths)
          else
            match flatten_composite (param_grid_flat st) param subs with
            | None => Raise (RuntimeError "KeyError")
            | Some flat =>
                for_params rest
                  {| d := (d st ++ [(param, composite_axis subs len0)])%list;
                     param_grid_flat := flat;
                     params :=
                       (params st ++ map fst subs ++ [(param ++ "_idx")%string])%list;
                     composite_params :=
                       dict_set (composite_params st) param (map fst subs) |}
            end
      end
  end.

(** [param_grid_flat] before the loop, a copy of [param_grid]: the model
    keeps a composite as an entry without values, which the loop
    deletes. *)
Definition flat_start (g : param_grid) : dict (list scalar) :=
  map (fun kv => (fst kv, match snd kv with
                          | Values vals => vals
                          | Composite _ => []
                          end)) g.

(** Lines 189-194: the additional parameters a configuration lacks. *)
Definition add_missing (add_params : dict scalar) (comb : dict scalar)
    : dict scalar :=
  fold_left (fun c kv => if dict_has c (fst kv) then c
                         else dict_set c (fst kv) (snd kv))
            add_params comb.

Record result : Type := {
  combs : list (dict scalar);
  combs_full : list (dict scalar);
  res_param_grid_flat : dict (list scalar);
  res_composite_params : dict (list string);
}.

Definition grid_combinations (g : param_grid) (add_params : option (dict scalar))
    : pyres result :=
  match for_params g {| d := []; param_grid_flat := flat_start g;
                        params := []; composite_params := [] |} with
  | Ret st =>
      let cs := map (fun comb => odict_zip (params st) (flatten_list comb))
                    (product (map snd (d st))) in
      Ret {| combs := cs;
             combs_full := match add_params with
                           | Some ap => map (add_missing ap) cs
                           | None => cs
                           end;
             res_param_grid_flat := param_grid_flat st;
             res_composite_params := composite_params st |}
  | RetNone => RetNone
  | Raise e => Raise e
  end.

(** *** Vocabulary of the properties *)













(** *** A sample grid: the one of the docstring *)

Definition sample_grid : param_grid :=
  [("input_sounding", Values [SStr "stable"; SStr "unstable"]);
   ("topo", Values [SStr "cos"; SStr "flat"]);
   ("c1", Composite [("res", [SInt 200; SInt 1000]);
                     ("nz", [SInt 120; SInt 80])])].


End Grid.

(** ** misc_tools.grid_combinations, on a store of objects

    The same function once more, now with the identity of the lists and
    dictionaries it reads, copies and writes: what it does to the
    caller's objects cannot be told from values alone. *)

Module GridHeap.

(** A value is immutable and held directly, or a reference to a list or
    a dictionary in the store. *)
Abbreviation loc := nat.

Inductive val : Type :=
  | VNone
  | VInt (z : Z)
  | VFloat (q : Q)
  | VStr (s : string)
  | VRef (l : loc).

Inductive obj : Type :=
  | OList (items : list val)
  | ODict (entries : list (string * val)).

(** The store: the object of reference [l] is at index [l]; objects are
    never freed. *)
Abbreviation heap := (list obj).

(** A computation on the store; the store is kept when it raises. *)
Definition H (A : Type) : Type := heap -> heap * (exn + A).

Definition ret {A} (a : A) : H A := fun h => (h, inr a).
Definition raise {A} (e : exn) : H A := fun h => (h, inl e).

Definition bind {A B} (m : H A) (f : A -> H B) : H B :=
  fun h => match m h with
           | (h', inr a) => f a h'
           | (h', inl e) => (h', inl e)
           end.

Notation "'do' x <- m ; k" := (bind m (fun x => k))
  (at level 10, x name, m at level 100, k at level 200).

Definition alloc (o : obj) : H loc := fun h => ((h ++ [o])%list, inr (length h)).

Definition load (l : loc) : H obj :=
  fun h => match h !! l with
           | Some o => (h, inr o)
           | None => (h, inl (RuntimeError "no such object"))
           end.

Definition store (l : loc) (o : obj) : H unit :=
  fun h => (<[l := o]> h, inr tt).

(** A loop over a list, results collected. *)
Fixpoint mapM {A B} (f : A -> H B) (l : list A) : H (list B) :=
  match l with
  | [] => ret []
  | a :: l' => do b <- f a; do bs <- mapM f l'; ret (b :: bs)
  end.

(** The list, or the dictionary, a value refers to. *)
Definition load_list (v : val) : H (list val) :=
  match v with
  | VRef l => do o <- load l;
              match o with
              | OList items => ret items
              | ODict _ => raise TypeError
              end
  | _ => raise TypeError
  end.

Definition load_dict (v : val) : H (loc * list (string * val)) :=
  match v with
  | VRef l => do o <- load l;
              match o with
              | ODict entries => ret (l, entries)
              | OList _ => raise TypeError
              end
  | _ => raise TypeError
  end.

(** [type(v) == dict] *)
Definition is_dict (v : val) : H (option (list (string * val))) :=
  fun h => (h, inr match v with
                   | VRef l => match h !! l with
                               | Some (ODict entries) => Some entries
                               | _ => None
                               end
                   | _ => None
                   end).

(** [dc[k] = v] and [del dc[k]] on the dictionary at [l]. *)
Definition dict_store (l : loc) (k : string) (v : val) : H unit :=
  do o <- load l;
  match o with
  | ODict entries => store l (ODict (Grid.dict_set entries k v))
  | OList _ => raise TypeError
  end.

Definition dict_delete (l : loc) (k : string) : H unit :=
  do o <- load l;
  match o with
  | ODict entries =>
      match Grid.dict_del entries k with
      | Some entries' => store l (ODict entries')
      | None => raise (RuntimeError "KeyError")
      end
  | OList _ => raise TypeError
  end.

(** *** copy.deepcopy *)

(** The copies made so far, by original. *)
Abbreviation memo := (gmap nat nat).

Fixpoint copy_items (copy : memo -> val -> H (val * memo)) (m : memo)
    (items : list val) : H (list val * memo) :=
  match items with
  | [] => ret ([], m)
  | v :: rest =>
      do r <- copy m v;
      do rs <- copy_items copy (snd r) rest;
      ret (fst r :: fst rs, snd rs)
  end.

(** An object is copied once: the copy is entered in the memo before its
    items are copied, and filled afterwards.  [fuel] bounds the depth. *)
Fixpoint deepcopy_val (fuel : nat) (m : memo) (v : val) : H (val * memo) :=
  match v with
  | VRef l =>
      match m !! l with
      | Some l' => ret (VRef l', m)
      | None =>
          match fuel with
          | O => raise OutOfFuel
          | S fuel' =>
              do o <- load l;
              match o with
              | OList items =>
                  do l' <- alloc (OList []);
                  do r <- copy_items (deepcopy_val fuel') (<[l := l']> m) items;
                  do _ <- store l' (OList (fst r));
                  ret (VRef l', snd r)
              | ODict entries =>
                  do l' <- alloc (ODict []);
                  do r <- copy_items (deepcopy_val fuel') (<[l := l']> m)
                            (map snd entries);
                  do _ <- store l' (ODict (combine (map fst entries) (fst r)));
                  ret (VRef l', snd r)
              end
          end
      end
  | _ => ret (v, m)
  end.

Definition deepcopy (fuel : nat) (v : val) : H val :=
  do r <- deepcopy_val fuel ∅ v; ret (fst r).

(** *** flatten_list *)

Fixpoint flat_mapE (f : val -> exn + list val) (l : list val) : exn + list val :=
  match l with
  | [] => inr []
  | v :: l' =>
      match f v, flat_mapE f l' with
      | inr a, inr b => inr (a ++ b)%list
      | inl e, _ => inl e
      | _, inl e => inl e
      end
  end.

(** An item that is a list is flattened in its turn; [fuel] bounds the
    nesting. *)
Fixpoint flatten_val (fuel : nat) (h : heap) (v : val) : exn + list val :=
  match v with
  | VRef l =>
      match h !! l with
      | Some (OList items) =>
          match fuel with
          | O => inl OutOfFuel
          | S fuel' => flat_mapE (flatten_val fuel' h) items
          end
      | _ => inr [v]
      end
  | _ => inr [v]
  end.

Definition flatten_list (fuel : nat) (l : list val) : H (list val) :=
  fun h => (h, flat_mapE (flatten_val fuel h) l).

(** *** grid_combinations *)

(** Lines 168-179 for the composite [param] of [d], whose sub-parameters
    are [subs]. *)
Definition composite_step (ld lflat lcp : loc) (param : string)
    (subs : list (string * val)) (params : list string) : H (list string) :=
  do cols <- mapM load_list (map snd subs);
  match map (@length val) cols with
  | [] => raise IndexError
  | len0 :: lens =>
      if existsb (fun n => negb (Nat.eqb len0 n)) (len0 :: lens) then
        raise (ValueError Grid.msg_lengths)
      else
        let val_list :=
          (cols ++ [map (fun i => VInt (Z.of_nat i)) (seq 0 len0)])%list in
        do lkeys <- alloc (OList (map VStr (map fst subs)));
        do _ <- dict_store lcp param (VRef lkeys);
        do rows <- mapM (fun row => do l <- alloc (OList row); ret (VRef l))
                        (Grid.transpose_list val_list);
        do laxis <- alloc (OList rows);
        do _ <- dict_store ld param (VRef laxis);
        do _ <- mapM (fun kv => dict_store lflat (fst kv) (snd kv)) subs;
        do _ <- dict_delete lflat param;
        ret (params ++ map fst subs ++ [(param ++ "_idx")%string])%list
  end.

(** Lines 166-181: the loop over the items of [d]. *)
Fixpoint for_items (ld lflat lcp : loc) (entries : list (string * val))
    (params : list string) : H (list string) :=
  match entries with
  | [] => ret params
  | (param, v) :: rest =>
      do sub <- is_dict v;
      match sub with
      | Some subs =>
          do params' <- composite_step ld lflat lcp param subs params;
          for_items ld lflat lcp rest params'
      | None => for_items ld lflat lcp rest (params ++ [param])%list
      end
  end.

(** Lines 184-186: one configuration. *)
Definition make_comb (fuel : nat) (params : list string) (comb : list val)
    : H val :=
  do c <- flatten_list fuel comb;
  do l <- alloc (ODict (Grid.odict_zip params c));
  ret (VRef l).

(** Lines 192-194 for one configuration. *)
Definition add_param (param : string) (v : val) (comb : val) : H unit :=
  do lc <- load_dict comb;
  if Grid.dict_has (snd lc) param then ret tt
  else store (fst lc) (ODict (Grid.dict_set (snd lc) param v)).

(** Lines 189-194. *)
Definition add_all (add_params : val) (combs_full : val) : H unit :=
  match add_params with
  | VNone => ret tt
  | _ =>
      do la <- load_dict add_params;
      do cfl <- load_list combs_full;
      do _ <- mapM (fun kv => mapM (add_param (fst kv) (snd kv)) cfl) (snd la);
      ret tt
  end.

Record result : Type := {
  combs : val;
  combs_full : val;
  param_grid_flat : val;
  composite_params : val;
}.

(** Lines 162-186: the copies, the loop, and the configurations. *)
Definition expand (fuel : nat) (param_grid : val) : H result :=
  do d <- deepcopy fuel param_grid;
  do flat <- deepcopy fuel param_grid;
  do lcp <- alloc (ODict []);
  do ld <- load_dict d;
  do lflat <- load_dict flat;
  do params <- for_items (fst ld) (fst lflat) lcp (snd ld) [];
  do ld' <- load_dict d;
  do axes <- mapM load_list (map snd (snd ld'));
  do cfgs <- mapM (make_comb fuel params) (Grid.product axes);
  do lcombs <- alloc (OList cfgs);
  ret {| combs := VRef lcombs; combs_full := VNone;
         param_grid_flat := flat; composite_params := VRef lcp |}.

(** Lines 188-200. *)
Definition grid_combinations (fuel : nat) (param_grid add_params : val)
    : H result :=
  do r <- expand fuel param_grid;
  do full <- deepcopy fuel (combs r);
  do _ <- add_all add_params full;
  ret {| combs := combs r; combs_full := full;
         param_grid_flat := param_grid_flat r;
         composite_params := composite_params r |}.

(** *** Vocabulary of the properties *)

(** The values an object holds. *)
Definition obj_vals (o : obj) : list val :=
  match o with
  | OList items => items
  | ODict entries => map snd entries
  end.

(** A value that is not a reference to an object older than [n]. *)
Definition fresh (n : nat) (v : val) : Prop :=
  match v with
  | VRef l => (n <= l)%nat
  | _ => True
  end.

(** A value that is not a reference, or refers to one of the objects
    from [n] up to [k]. *)
Definition inside (n k : nat) (v : val) : Prop :=
  match v with
  | VRef l => (n <= l < k)%nat
  | _ => True
  end.

(** A value of the store [h]: not a reference, or a reference to one of
    its objects. *)
Definition known (h : heap) (v : val) : Prop :=
  match v with
  | VRef l => (l < length h)%nat
  | _ => True
  end.

(** The objects not older than [n] refer to such objects only. *)
Definition closed (n : nat) (h : heap) : Prop :=
  forall l o, (n <= l)%nat -> h !! l = Some o ->
    Forall (inside n (length h)) (obj_vals o).

(** The objects older than [n] are what they were. *)
Definition preserved (n : nat) (h h' : heap) : Prop :=
  (length h <= length h')%nat /\
  forall l, (l < n)%nat -> h' !! l = h !! l.

(** A computation that, run on a store of [k] objects or more, leaves
    the objects older than [n] alone, keeps the younger ones closed, and
    whose result satisfies [Q] at the size of the final store. *)
Definition safe {A} (n k : nat) (m : H A) (Q : nat -> A -> Prop) : Prop :=
  forall h, (n <= length h)%nat -> (k <= length h)%nat -> closed n h ->
    preserved n h (fst (m h)) /\ closed n (fst (m h)) /\
    forall a, snd (m h) = inr a -> Q (length (fst (m h))) a.

(** The copies of a memo are objects from [n] up to [k]. *)
Definition memo_inside (n k : nat) (m : memo) : Prop :=
  forall l l', m !! l = Some l' -> (n <= l' < k)%nat.

(** The items of the list [v] refers to. *)
Definition list_of (h : heap) (v : val) : list val :=
  match v with
  | VRef l => match h !! l with
              | Some (OList items) => items
              | _ => []
              end
  | _ => []
  end.

(** The items of the list, or the values of the dictionary, [v] refers
    to. *)
Definition items_of (h : heap) (v : val) : list val :=
  match v with
  | VRef l => match h !! l with
              | Some o => obj_vals o
              | None => []
              end
  | _ => []
  end.

(** From [h] to [h'] an object is what it was, or it is one of the
    dictionaries [cfl] and all it holds now it held before or is one of
    [extra]. *)
Definition merged (extra cfl : list val) (h h' : heap) : Prop :=
  length h' = length h /\
  forall l, h' !! l = h !! l \/
    (In (VRef l) cfl /\
     exists es es', h !! l = Some (ODict es) /\ h' !! l = Some (ODict es') /\
       forall v, In v (map snd es') -> In v (map snd es) \/ In v extra).

(** A computation that only merges [extra] into the dictionaries
    [cfl]. *)
Definition merging {A} (extra cfl : list val) (m : H A) : Prop :=
  forall h, merged extra cfl h (fst (m h)).

(** *** A sample store

    The grid and the additional parameters of the test configuration:
    [param_grid = {"mp_physics": [5, 2]}] at 1 (its list at 0), and
    [params = {"dx": 500, "output_streams": {...}}] at 3 (the
    dictionary of the output streams at 2). *)
Definition sample_heap : heap :=
  [ OList [VInt 5; VInt 2];
    ODict [("mp_physics"%string, VRef 0%nat)];
    ODict [("24"%string, VStr "wrfout"); ("0"%string, VStr "fastout")];
    ODict [("dx"%string, VInt 500); ("output_streams"%string, VRef 2%nat)] ].

End GridHeap.

(** ** submit_jobs: the size of the submitted pools *)

Module PoolMore.
Import Pool.

Section Capacity.

Variable conf : config.
Variable opts : options.

(** The runs [ms] may be submitted as one job: with pooling, two or more
    runs together need at most [conf.pool_size] slots; without pooling a
    job holds one run. *)
Definition runs_fit (ms : list rep) : Prop :=
  if pool_jobs opts then
    (2 <= length ms)%nat -> py_sum (map nslotsi ms) <= pool_size conf
  else length ms = 1%nat.

(** The same, read off what is handed to the shell. *)
Definition within_capacity (sub : submission) : Prop :=
  if pool_jobs opts then
    (2 <= length (sub_IDs sub))%nat -> py_sum (sub_nslots sub) <= pool_size conf
  else length (sub_IDs sub) = 1%nat.

(** Every submission of a stretch of the loop is within capacity. *)
Definition capped {A} (m : M A) : Prop :=
  Forall within_capacity (submitted (fst m)).

End Capacity.

End PoolMore.

(** ** misc_tools.check_namelist_best_practice *)

Module Namelist.

Local Open Scope string_scope.

(** The namelist dictionary, by the kind of its entries: the parameters
    that hold a number, the layer thicknesses [dz] that [prepare_init]
    adds when it created the vertical grid, and the array that the string
    under ["eta_levels"] lists. *)
Record namelist : Type := {
  params : gmap string Q;
  dz : option (list Q);
  eta_levels : option (list Q);
}.

(** [KeyError] carries the missing key. *)
Inductive failure : Type :=
  | KeyError (key : string)
  | Failed (e : exn).

(** The lines printed so far, and either a failure or a value. *)
Definition R (A : Type) : Type := list string * (failure + A).

Definition ret {A} (a : A) : R A := ([], inr a).
Definition fail {A} (f : failure) : R A := ([], inl f).
Definition print (line : string) : R unit := ([line], inr tt).

Definition bind {A B} (m : R A) (f : A -> R B) : R B :=
  match snd m with
  | inl e => (fst m, inl e)
  | inr a => (fst m ++ fst (f a), snd (f a))%list
  end.

Notation "'do' x <- m ; k" := (bind m (fun x => k))
  (at level 10, x name, m at level 100, k at level 200).

Definition Qlt_bool (a b : Q) : bool := negb (Qle_bool b a).

(** [x in l] on numbers. *)
Definition mem (x : Q) (l : list Q) : bool := existsb (Qeq_bool x) l.

(** [np.nanmax]: the largest entry; raises on an empty array. *)
Definition nanmax (a : list Q) : option Q :=
  match a with
  | [] => None
  | x :: l => Some (Pool.qmax x l)
  end.

Definition msg_empty_array : string :=
  "zero-size array to reduction operation fmax which has no identity".

Definition msg_critical : string :=
  "Critical inconsistencies found in namelist settings. Fix the issues or use -n option to ignore them.".

Definition msg_dt : string :=
  "WARNING: time step is larger then recommended. This may cause numerical instabilities. Recommendation: dt(s) = 6 * dx(km)".
Definition msg_mp_warn : string :=
  "WARNING: Microphysics scheme with graupel necessary at cloud-resolving resolution. Avoid the following settings for mp_physics: 1,3,4,14".
Definition msg_mp_hint : string :=
  "HINT: Microphysics scheme with graupel not necessary for grid spacings above 10 km. You can instead use one of the following settings for mp_physics: 1,3,4,14".
Definition msg_pbl_needed : string :=
  "ERROR: PBL scheme necessary for dx > 500 m!".
Definition msg_pbl_les : string :=
  "ERROR: No PBL scheme necessary for dx < 100 m, use LES!".
Definition msg_les_km : string :=
  "ERROR: Need 3D SGS turbulence scheme for LES. Choose km_opt 2 or 3".
Definition msg_les_diff : string :=
  "ERROR: LES requires horizontal diffusion in physical space (diff_opt=2).".
Definition msg_les_mix : string :=
  "WARNING: Isotropic mixing (mix_isotropic=1) recommended for LES".
Definition msg_sgs_diff : string :=
  "ERROR: Horizontal diffusion in physical space (diff_opt=2) needed for 3D SGS turbulence scheme (km_opt=2 or 3).".
Definition msg_km4 : string :=
  "WARNING: For dx > 2000, SGS turbulent mixing should be based on 2D deformation (km_opt=4).".
Definition msg_cu_needed : string :=
  "WARNING: For dx >= 10 km, the use of a cumulus scheme is strongly recommended.".
Definition msg_cu_not_needed : string :=
  "WARNING: For dx <= 4 km, a cumulus scheme is probably not needed.".
Definition msg_cu_gray : string :=
  "WARNING: The grid spacing lies in the gray zone for cumulus convection. Consider using a scale-aware cumulus parametrization (cu_physics={3, 5, 11, 14})".
Definition msg_adv : string :=
  "WARNING: Monotonic or non-oscillatory advection options are recommended for 100m < dx < 1km (moist/scalar/momentum_adv_opt >= 2)".

(** A printed line that reports an error. *)
Definition is_error (line : string) : bool := String.prefix "ERROR" line.

Definition has_error (lines : list string) : bool := existsb is_error lines.

Section Check.

(** [fmt n x] is ['{0:.nf}'.format(x)] and [str x] is ['{}'.format(x)]. *)
Variable fmt : nat -> Q -> string.
Variable str : Q -> string.

Variable namelist : namelist.

(** [namelist[key]] *)
Definition lookup (key : string) : R Q :=
  match params namelist !! key with
  | Some v => ret v
  | None => fail (KeyError key)
  end.

(** [if c: print(line)] *)
Definition when (c : bool) (line : string) : R unit :=
  if c then print line else ret tt.

(** [if c: print(line); raise_err = True] *)
Definition error_if (c : bool) (line : string) (raise_err : bool) : R bool :=
  if c then do _ <- print line; ret true else ret raise_err.

(** [c and m]: [m] is evaluated only when [c] holds. *)
Definition and_then (c : bool) (m : R bool) : R bool :=
  if c then m else ret false.

(** Lines 736-738. *)
Definition check_dt (dx : Q) : R unit :=
  do time_step <- lookup "time_step";
  do num <- lookup "time_step_fract_num";
  do den <- lookup "time_step_fract_den";
  if Qeq_bool den 0 then fail (Failed ZeroDivisionError)
  else
    let dt := (time_step + num / den)%Q in
    when (Qlt_bool (6 * dx / 1000)%Q dt) msg_dt.

(** Lines 741-748. *)
Definition check_dz (dx : Q) (raise_err : bool) : R bool :=
  match dz namelist with
  | None => ret raise_err
  | Some a =>
      match nanmax a with
      | None => fail (Failed (ValueError msg_empty_array))
      | Some dz_max =>
          do raise_err <-
            error_if (Qlt_bool dx dz_max)
              ("ERROR: There are levels with dz > dx (dz_max=" ++ fmt 1 dz_max
                 ++ " m). Use more vertical levels, a lower model top or a higher dx!")
              raise_err;
          error_if (Qlt_bool 1000 dz_max)
            ("ERROR: There are levels with dz > 1000 m (dz_max=" ++ fmt 1 dz_max
               ++ " m). Use more vertical levels or a lower model top!")
            raise_err
      end
  end.

(** Lines 751-755. *)
Definition check_mp (dx : Q) : R unit :=
  do mp_physics <- lookup "mp_physics";
  let graupel := negb (mem mp_physics [1; 3; 4; 14]%Q) in
  if negb graupel && Qle_bool dx 4000 then print msg_mp_warn
  else if graupel && Qle_bool 10000 dx then print msg_mp_hint
  else ret tt.

(** Lines 767-768. *)
Definition check_first_level : R unit :=
  match dz namelist with
  | None => ret tt
  | Some a =>
      match a with
      | [] => fail (Failed IndexError)
      | dz0 :: _ =>
          when (Qlt_bool 100 dz0)
            ("WARNING: First vertical level should be within surface layer (max. 100 m). Current lowest level at "
               ++ fmt 2 dz0 ++ " m")
      end
  end.

(** Lines 769-772. *)
Definition check_eta (bl_pbl_physics : Q) : R unit :=
  if mem bl_pbl_physics [3; 7; 99]%Q then
    match eta_levels namelist with
    | None => fail (KeyError "eta_levels")
    | Some levels =>
        match nth_error levels 1 with
        | None => fail (Failed IndexError)
        | Some eta1 =>
            when (Qlt_bool (995 # 1000) eta1)
              ("WARNING: First eta level should not be larger than 0.995 for ACM2, GFS and MRF PBL schemes. Found: "
                 ++ fmt 4 eta1)
        end
    end
  else ret tt.

(** Lines 759-772. *)
Definition check_pbl (dx : Q) (raise_err : bool) : R bool :=
  do bl_pbl_physics <- lookup "bl_pbl_physics";
  if Qeq_bool bl_pbl_physics 0 && Qle_bool 500 dx then
    error_if true msg_pbl_needed raise_err
  else if negb (Qeq_bool bl_pbl_physics 0) then
    if Qle_bool dx 100 then error_if true msg_pbl_les raise_err
    else
      do _ <- check_first_level;
      do _ <- check_eta bl_pbl_physics;
      ret raise_err
  else ret raise_err.

(** Lines 775-785. *)
Definition check_les (dx : Q) (raise_err : bool) : R bool :=
  do bl_pbl_physics <- lookup "bl_pbl_physics";
  if Qeq_bool bl_pbl_physics 0 && Qle_bool dx 500 then
    do km_opt <- lookup "km_opt";
    do raise_err <-
      error_if (negb (mem km_opt [2; 3]%Q)) msg_les_km raise_err;
    do diff_opt <- lookup "diff_opt";
    do raise_err <-
      error_if (negb (Qeq_bool diff_opt 2)) msg_les_diff raise_err;
    do sf_sfclay_physics <- lookup "sf_sfclay_physics";
    do _ <-
      when (negb (mem sf_sfclay_physics [0; 1; 2]%Q))
        ("WARNING: Surface layer scheme " ++ str sf_sfclay_physics
           ++ " not recommended for LES. Rather use setting 1 or 2.");
    do mix_isotropic <- lookup "mix_isotropic";
    do _ <- when (negb (Qeq_bool mix_isotropic 1)) msg_les_mix;
    ret raise_err
  else ret raise_err.

(** Lines 788-790. *)
Definition check_sgs (raise_err : bool) : R bool :=
  do km_opt <- lookup "km_opt";
  do c <- and_then (mem km_opt [2; 3]%Q)
            (do diff_opt <- lookup "diff_opt";
             ret (negb (Qeq_bool diff_opt 2)));
  error_if c msg_sgs_diff raise_err.

(** Lines 792-793. *)
Definition check_km4 (dx : Q) : R unit :=
  do km_opt <- lookup "km_opt";
  when (negb (Qeq_bool km_opt 4) && Qlt_bool 2000 dx) msg_km4.

(** Lines 796-801. *)
Definition check_cu (dx : Q) : R unit :=
  do c1 <- and_then (Qle_bool 10000 dx)
             (do cu_physics <- lookup "cu_physics";
              ret (Qeq_bool cu_physics 0));
  if c1 then print msg_cu_needed
  else
    do c2 <- and_then (Qle_bool dx 4000)
               (do cu_physics <- lookup "cu_physics";
                ret (negb (Qeq_bool cu_physics 0)));
    if c2 then print msg_cu_not_needed
    else
      do c3 <- and_then (Qlt_bool 4000 dx && Qlt_bool dx 10000)
                 (do cu_physics <- lookup "cu_physics";
                  ret (negb (mem cu_physics [3; 5; 11; 14]%Q)));
      when c3 msg_cu_gray.

(** Lines 805-808. *)
Definition check_adv (dx : Q) : R unit :=
  do moist <- lookup "moist_adv_opt";
  do scalar <- lookup "scalar_adv_opt";
  do momentum <- lookup "momentum_adv_opt";
  let any_basic_adv :=
    Qlt_bool moist 2 || Qlt_bool scalar 2 || Qlt_bool momentum 2 in
  when (Qlt_bool 100 dx && Qlt_bool dx 1000 && any_basic_adv) msg_adv.

(** Lines 812-821, one pass of the loop. *)
Definition check_flux (flux : string) (use_fluxes : list Q) : R unit :=
  let flux_val :=
    match params namelist !! flux with Some v => v | None => 0%Q end in
  do isfflx <- lookup "isfflx";
  if mem isfflx use_fluxes && Qeq_bool flux_val 0 then
    print ("WARNING: " ++ flux ++ "=0, although it is used as surface flux for isfflx="
             ++ str isfflx)
  else ret tt.

Definition check_namelist_best_practice : R unit :=
  let raise_err := false in
  do dx <- lookup "dx";
  do _ <- print ("Check consistency of namelist settings. Horizontal grid spacing: dx="
                   ++ fmt 1 dx ++ " m");
  do _ <- check_dt dx;
  do raise_err <- check_dz dx raise_err;
  do _ <- check_mp dx;
  do raise_err <- check_pbl dx raise_err;
  do raise_err <- check_les dx raise_err;
  do raise_err <- check_sgs raise_err;
  do _ <- check_km4 dx;
  do _ <- check_cu dx;
  do _ <- check_adv dx;
  do _ <- check_flux "tke_drag_coefficient" [0]%Q;
  do _ <- check_flux "tke_heat_flux" [0; 2]%Q;
  do _ <- print (String "010"%char "");
  if raise_err then fail (Failed (ValueError msg_critical)) else ret tt.

End Check.

(** *** Vocabulary of the properties *)

(** The error of line 825. *)
Definition critical : failure := Failed (ValueError msg_critical).

(** A block that prints no error line and does not end in the error of
    line 825. *)
Definition quiet {A} (m : R A) : Prop :=
  has_error (fst m) = false /\ snd m <> inl critical.

(** A block that is entered with the flag [raise_err]: it hands on the
    flag, or [True] once it printed an error line. *)
Definition flags (raise_err : bool) (m : R bool) : Prop :=
  match snd m with
  | inr b => b = raise_err || has_error (fst m)
  | inl f => f <> critical
  end.

(** The rest of the function from a point where the flag is [raise_err]:
    it returns only if the flag is unset and no error line follows; it
    ends in the error of line 825 only if the flag is set or an error
    line follows; in both cases the last line printed is the empty line
    of line 823. *)
Definition ends_ok (raise_err : bool) (m : R unit) : Prop :=
  match snd m with
  | inr _ =>
      raise_err = false /\ has_error (fst m) = false /\
      List.last (fst m) "" = String "010"%char ""
  | inl f =>
      f = critical ->
      raise_err || has_error (fst m) = true /\
      List.last (fst m) "" = String "010"%char ""
  end.

(** *** Sample namelists *)

Definition sample_fmt (n : nat) (x : Q) : string := "x".
Definition sample_str (x : Q) : string := "x".

Definition numbers (l : list (string * Q)) : gmap string Q := list_to_map l.

(** A large-eddy simulation at 100 m. *)
Definition sample_les : namelist :=
  {| params := numbers
       [("dx", 100); ("time_step", 0); ("time_step_fract_num", 5);
        ("time_step_fract_den", 10); ("mp_physics", 2);
        ("bl_pbl_physics", 0); ("km_opt", 2); ("diff_opt", 2);
        ("sf_sfclay_physics", 1); ("mix_isotropic", 1); ("cu_physics", 0);
        ("moist_adv_opt", 2); ("scalar_adv_opt", 2);
        ("momentum_adv_opt", 2); ("isfflx", 1)]%Q;
     dz := Some [20; 40; 80]%Q;
     eta_levels := None |}.

(** The same at 500 m. *)
Definition sample_les_500 : namelist :=
  {| params := <["dx" := 500%Q]> (params sample_les);
     dz := dz sample_les; eta_levels := eta_levels sample_les |}.

End Namelist.

(** ** misc_tools.get_vmem and misc_tools.set_vmem_rt *)

Module Vmem.

Local Abbreviation failure := Namelist.failure.
Local Abbreviation KeyError := Namelist.KeyError.
Local Abbreviation Failed := Namelist.Failed.

Local Open Scope string_scope.

(** [mag in s] for a one-character string [mag]. *)
Fixpoint contains (mag : ascii) (s : string) : bool :=
  match s with
  | EmptyString => false
  | String a s' => Ascii.eqb a mag || contains mag s'
  end.

(** [s[:s.index(mag)]] *)
Fixpoint before (mag : ascii) (s : string) : string :=
  match s with
  | EmptyString => EmptyString
  | String a s' => if Ascii.eqb a mag then EmptyString else String a (before mag s')
  end.

(** What the two functions read from outside.  [identical_runs] is what
    [get_identical_runs] returns, [timing] the means of the columns
    [timing] and [timing_sd] of what [get_runtime_all] returns ([None]
    for an empty table).  [maxvmem file] is [None] when [file] does not
    exist, and else the entry ["maxvmem"] of [get_job_usage(file)] or the
    failure of reading it.  [float s] is [None] when [s] is not a
    number. *)
Record oracle : Type := {
  identical_runs : list string;
  timing : option (Q * Q);
  maxvmem : string -> option (failure + string);
  float : string -> option Q;
}.

Definition msg_float : string := "could not convert string to float".

Section GetVmem.

Variable o : oracle.

(** Lines 498-501: the magnitudes are tried in turn, the last one found
    in the string decides. *)
Fixpoint scan (mags : list (ascii * Q)) (vmem_r : string) (vmem_r_num : option Q)
    : failure + option Q :=
  match mags with
  | [] => inr vmem_r_num
  | (mag, factor) :: mags' =>
      if contains mag vmem_r then
        match float o (before mag vmem_r) with
        | None => inl (Failed (ValueError msg_float))
        | Some x => scan mags' vmem_r (Some (x * factor)%Q)
        end
      else scan mags' vmem_r vmem_r_num
  end.

Definition magnitudes : list (ascii * Q) := [("M"%char, 1%Q); ("G"%char, 1000%Q)].

(** Lines 494-503. *)
Fixpoint collect (runs : list string) (logfile : string) (vmem : list Q)
    : failure + list Q :=
  match runs with
  | [] => inr vmem
  | r :: runs' =>
      match maxvmem o (r ++ "/" ++ logfile) with
      | None => collect runs' logfile vmem
      | Some (inl e) => inl e
      | Some (inr vmem_r) =>
          match scan magnitudes vmem_r None with
          | inl e => inl e
          | inr None => collect runs' logfile vmem
          | inr (Some vmem_r_num) =>
              collect runs' logfile (vmem ++ [vmem_r_num])%list
          end
      end
  end.

Definition get_vmem (runs : list string) (logfile : string)
    : failure + option (list Q) :=
  match runs with
  | [] => inr None
  | _ =>
      match collect runs logfile [] with
      | inl e => inl e
      | inr [] => inr None
      | inr vmem => inr (Some vmem)
      end
  end.

End GetVmem.

(** The attributes of the config module [set_vmem_rt] reads. *)
Record config : Type := {
  rt_test : Q;
  rt_buffer : Q;
  rt : option Q;
  runtime_per_step_dict : option (list (Q * Q));
  vmem_test : Q;
  vmem : option Q;
  vmem_per_grid_point : option Q;
  vmem_min : option Q;
  vmem_buffer : Q;
}.

(** The numbers in [args], which the function changes in place, and the
    lines printed. *)
Record state : Type := {
  args : gmap string Q;
  printed : list string;
}.

Definition M (A : Type) : Type := state -> state * (failure + A).

Definition ret {A} (a : A) : M A := fun s => (s, inr a).
Definition fail {A} (f : failure) : M A := fun s => (s, inl f).
Definition lift {A} (r : failure + A) : M A := fun s => (s, r).

Definition bind {A B} (m : M A) (f : A -> M B) : M B :=
  fun s =>
    match m s with
    | (s', inl e) => (s', inl e)
    | (s', inr a) => f a s'
    end.

Notation "'do' x <- m ; k" := (bind m (fun x => k))
  (at level 10, x name, m at level 100, k at level 200).

Definition print (line : string) : M unit :=
  fun s => ({| args := args s; printed := (printed s ++ [line])%list |}, inr tt).

(** [args[key]] *)
Definition get (key : string) : M Q :=
  fun s =>
    match args s !! key with
    | Some v => (s, inr v)
    | None => (s, inl (KeyError key))
    end.

(** [args[key] = v] *)
Definition set (key : string) (v : Q) : M unit :=
  fun s => ({| args := <[key := v]> (args s); printed := printed s |}, inr tt).

(** [a / b] *)
Definition div (a b : Q) : M Q :=
  if Qeq_bool b 0 then fail (Failed ZeroDivisionError) else ret (a / b)%Q.

(** [d[r]] when [d] is a dictionary that has the key [r]. *)
Definition dict_lookup (r : Q) (d : option (list (Q * Q))) : option Q :=
  match d with
  | None => None
  | Some kvs => option_map snd (List.find (fun kv => Qeq_bool (fst kv) r) kvs)
  end.

(** [max(a, b)] *)
Definition py_max2 (a b : Q) : Q := if Qlt_le_dec a b then b else a.

(** [max(l)] *)
Definition py_max_list (l : list Q) : M Q :=
  match l with
  | [] => fail (Failed (ValueError Pool.msg_empty_max))
  | x :: l' => ret (Pool.qmax x l')
  end.

Section SetVmemRt.

Variable fmt : nat -> Q -> string.
Variable o : oracle.
Variable conf : config.
Variable run_hours : Q.
Variable nslots : Z.
Variable restart : bool.
Variable test_run : bool.

(** Lines 541-563: [runtime_per_step], which is [None] exactly when
    [skip] is set, and [print_rt_step]. *)
Definition find_runtime (r n_steps : Q) : M (option Q * bool) :=
  if test_run then
    do x <- div (rt_test conf * 60)%Q n_steps;
    do runtime_per_step <- div x (rt_buffer conf);
    do _ <- set "n_rep" 1%Q;
    ret (Some runtime_per_step, false)
  else
    match rt conf with
    | Some rt =>
        do runtime_per_step <- div (rt * 60)%Q (rt_buffer conf);
        ret (Some runtime_per_step, false)
    | None =>
        match dict_lookup r (runtime_per_step_dict conf) with
        | Some runtime_per_step =>
            do _ <- print "Use runtime dict";
            ret (Some runtime_per_step, true)
        | None =>
            do _ <- print "Get runtime from previous runs";
            do runtime_per_step <-
              match identical_runs o with
              | [] => ret None
              | _ =>
                  match timing o with
                  | Some (mean, rt_sd) =>
                      do _ <- print ("Runtime per time step standard deviation: "
                                       ++ fmt 5 rt_sd ++ " s");
                      ret (Some mean)
                  | None => ret None
                  end
              end;
            do _ <-
              match runtime_per_step with
              | None =>
                  print "No runtime specified and no previous runs found. Skipping..."
              | Some _ => ret tt
              end;
            ret (runtime_per_step, true)
        end
    end.

(** Lines 565-570. *)
Definition set_runtime (n_steps : Q) (found : option Q * bool) : M unit :=
  match fst found with
  | None => ret tt
  | Some runtime_per_step =>
      let rt_per_timestep := (runtime_per_step * rt_buffer conf)%Q in
      do _ <- set "rt_per_timestep" rt_per_timestep;
      do _ <-
        if restart then ret tt
        else print ("Runtime: " ++ fmt 1 (rt_per_timestep * n_steps / 60)%Q ++ " min");
      if snd found then
        print ("Runtime per time step: " ++ fmt 5 runtime_per_step ++ " s")
      else ret tt
  end.

(** Lines 574-595: [vmemi], which is [None] exactly when this part sets
    [skip]. *)
Definition find_vmem : M (option Q) :=
  if test_run then ret (Some (vmem_test conf))
  else
    match vmem conf with
    | Some v => ret (Some v)
    | None =>
        match vmem_per_grid_point conf with
        | Some per_point =>
            do _ <- print "Use vmem per grid point";
            do e_we <- get "e_we";
            do e_sn <- get "e_sn";
            do vmemi <-
              div (inject_Z (Pool.py_int (per_point * e_we * e_sn)%Q))
                  (inject_Z nslots);
            match vmem_min conf with
            | Some vmem_min => ret (Some (py_max2 vmemi vmem_min))
            | None => ret (Some vmemi)
            end
        | None =>
            do _ <- print "Get vmem from previous runs";
            do found <- lift (get_vmem o (identical_runs o) "qstat.info");
            match found with
            | None =>
                do _ <- print "No vmem specified and no previous runs found. Skipping...";
                ret None
            | Some l =>
                do vmemi <- py_max_list l;
                ret (Some vmemi)
            end
        end
    end.

(** The function returns [skip]; [args] is changed in place. *)
Definition set_vmem_rt : M bool :=
  do r <- get "dx";
  do dt <- get "dt";
  do n_steps <- div (3600 * run_hours)%Q dt;
  do found <- find_runtime r n_steps;
  do _ <- set_runtime n_steps found;
  do vmemi <- find_vmem;
  match vmemi with
  | None => ret true
  | Some vmemi =>
      let vmemi := (vmemi * (inject_Z nslots * vmem_buffer conf))%Q in
      match fst found with
      | None => ret true
      | Some _ =>
          do per_slot <- div vmemi (inject_Z nslots);
          do _ <- print ("Use vmem per slot: " ++ fmt 1 per_slot ++ "M");
          do _ <- set "vmem" vmemi;
          ret false
      end
  end.

End SetVmemRt.

(** *** Vocabulary of the properties *)

(** The number [get_vmem] takes from the entry [s]: in megabytes, a
    gigabyte counting as 1000. *)
Definition reading (o : oracle) (s : string) (v : Q) : Prop :=
  (contains "G"%char s = true /\
   exists x, float o (before "G"%char s) = Some x /\ v = (x * 1000)%Q) \/
  (contains "G"%char s = false /\ contains "M"%char s = true /\
   exists x, float o (before "M"%char s) = Some x /\ v = (x * 1)%Q).

(** A run directory that gives no number: it has no log file, or the
    entry has neither unit. *)
Definition unusable (o : oracle) (logfile r : string) : Prop :=
  maxvmem o (r ++ "/" ++ logfile) = None \/
  exists s, maxvmem o (r ++ "/" ++ logfile) = Some (inr s) /\
            contains "M"%char s = false /\ contains "G"%char s = false.

(** The failures [set_vmem_rt] can end in. *)
Definition expected_failure (o : oracle) (f : failure) : Prop :=
  f = KeyError "dx" \/ f = KeyError "dt" \/ f = KeyError "e_we" \/
  f = KeyError "e_sn" \/ f = Failed ZeroDivisionError \/
  f = Failed (ValueError msg_float) \/
  exists file, maxvmem o file = Some (inl f).

(** A step that leaves [args] alone and fails only as expected. *)
Definition tame {A} (o : oracle) (m : M A) : Prop :=
  forall s, args (fst (m s)) = args s /\
            forall f, snd (m s) = inl f -> expected_failure o f.

(** *** A sample *)

Definition sample_oracle : oracle :=
  {| identical_runs := ["/runs/a"; "/runs/b"; "/runs/c"];
     timing := Some (1 # 10, 1 # 100)%Q;
     maxvmem := fun file =>
       if String.eqb file "/runs/a/qstat.info" then Some (inr "845.2M")
       else if String.eqb file "/runs/b/qstat.info" then Some (inr "1.5G")
       else None;
     float := fun s =>
       if String.eqb s "845.2" then Some (8452 # 10)%Q
       else if String.eqb s "1.5" then Some (15 # 10)%Q
       else None |}.

End Vmem.

(** ** submit_jobs: the horizontal domain and the slots (lines 199-243) *)

Module Domain.

Local Open Scope string_scope.

Inductive failure : Type :=
  | KeyError (key : string)
  | Exception (msg : string)
  | Failed (e : exn).

(** [conf.use_min_gridpoints]: a false value, ["x"], ["y"], or another
    true value. *)
Inductive gp_mode : Type := GpOff | GpX | GpY | GpOn.

(** [conf.force_domain_multiple]: [True], ["x"], ["y"], or another
    value. *)
Inductive fm_mode : Type := FmOn | FmX | FmY | FmOff.

Record config : Type := {
  use_min_gridpoints : gp_mode;
  force_domain_multiple : fm_mode;
  min_n_per_proc : Z;
  even_split : bool;
  max_nslotsx : option Z;
  max_nslotsy : option Z;
}.

(** The entries of [args] that are read; [None] for an absent key. *)
Record args : Type := {
  lx : option Q;
  ly : option Q;
  min_gridpoints_x : option Z;
  min_gridpoints_y : option Z;
}.

Definition ret {A} (a : A) : failure + A := inr a.

Definition bind {A B} (m : failure + A) (f : A -> failure + B) : failure + B :=
  match m with
  | inl e => inl e
  | inr a => f a
  end.

Notation "'do' x <- m ; k" := (bind m (fun x => k))
  (at level 10, x name, m at level 100, k at level 200).

(** [args[k]] *)
Definition key {A} (k : string) (v : option A) : failure + A :=
  match v with
  | Some a => inr a
  | None => inl (KeyError k)
  end.

(** [a / b] *)
Definition div (a b : Q) : failure + Q :=
  if Qeq_bool b 0 then inl (Failed ZeroDivisionError) else inr (a / b)%Q.






(** Lines 235-238: [min(conf.max_nslotsx, nx)], which fails on [None]. *)
Definition capped (max_nslots : option Z) (n : option Z) : failure + option Z :=
  match max_nslots with
  | None => inr n
  | Some m =>
      match n with
      | None => inl (Failed TypeError)
      | Some n => inr (Some (Z.min m n))
      end
  end.


(** *** Vocabulary of the properties *)


(** *** A sample *)



End Domain.

(** ** misc_tools.output_id_from_config *)

Module OutputId.
Import Grid.

Local Open Scope string_scope.

(** [KeyError] carries the missing key. *)
Inductive failure : Type :=
  | KeyError (key : scalar)
  | Failed (e : exn).

Definition ret {A} (a : A) : failure + A := inr a.

Definition bind {A B} (m : failure + A) (f : A -> failure + B) : failure + B :=
  match m with
  | inl e => inl e
  | inr a => f a
  end.

Notation "'do' x <- m ; k" := (bind m (fun x => k))
  (at level 10, x name, m at level 100, k at level 200).

(** [v == w] on parameter values: numbers by value, strings by their
    characters, other objects by identity. *)
Definition scalar_eqb (v w : scalar) : bool :=
  match v, w with
  | SInt a, SInt b => (a =? b)%Z
  | SInt a, SFloat q => Qeq_bool (inject_Z a) q
  | SFloat q, SInt b => Qeq_bool q (inject_Z b)
  | SFloat p, SFloat q => Qeq_bool p q
  | SStr s, SStr t => String.eqb s t
  | SObj i, SObj j => Nat.eqb i j
  | _, _ => false
  end.

(** An entry of [param_names]: a list of names, or a dictionary. *)
Inductive names : Type :=
  | NamesList (l : list scalar)
  | NamesDict (d : list (scalar * scalar)).

(** [l[i]] with Python's negative indices. *)
Definition list_item (l : list scalar) (i : Z) : failure + scalar :=
  let n := Z.of_nat (length l) in
  let j := (if i <? 0 then n + i else i)%Z in
  if ((0 <=? j) && (j <? n))%Z then
    match nth_error l (Z.to_nat j) with
    | Some v => inr v
    | None => inl (Failed IndexError)
    end
  else inl (Failed IndexError).

(** [namep[x]] *)
Definition name_of (namep : names) (x : scalar) : failure + scalar :=
  match namep with
  | NamesList l =>
      match x with
      | SInt i => list_item l i
      | _ => inl (Failed TypeError)
      end
  | NamesDict d =>
      match List.find (fun kv => scalar_eqb (fst kv) x) d with
      | Some kv => inr (snd kv)
      | None => inl (KeyError x)
      end
  end.

(** [l.index(x)] *)
Fixpoint index (l : list scalar) (x : scalar) : failure + Z :=
  match l with
  | [] => inl (Failed (ValueError "x is not in list"))
  | v :: l' =>
      if scalar_eqb v x then inr 0%Z
      else match index l' x with
           | inr i => inr (i + 1)%Z
           | inl e => inl e
           end
  end.

(** [ID[k]] and [del ID[k]] *)
Definition item (ID : dict scalar) (k : string) : failure + scalar :=
  match dict_get ID k with
  | Some v => inr v
  | None => inl (KeyError (SStr k))
  end.

Definition del (ID : dict scalar) (k : string) : failure + dict scalar :=
  match dict_del ID k with
  | Some ID' => inr ID'
  | None => inl (KeyError (SStr k))
  end.

(** Lines 228-229. *)
Fixpoint del_all (ks : list string) (ID : dict scalar) : failure + dict scalar :=
  match ks with
  | [] => inr ID
  | pc :: ks' => do ID <- del ID pc; del_all ks' ID
  end.

Definition msg_names : string :=
  "param_names cannot be None if composite parameters are used!".

(** Lines 225-229. *)
Definition drop_composite (v : grid_value) (param_names : option (dict names))
    (ID : dict scalar) : failure + dict scalar :=
  match v with
  | Composite subs =>
      match param_names with
      | None => inl (Failed (ValueError msg_names))
      | Some _ => del_all (map fst subs) ID
      end
  | Values _ => inr ID
  end.

(** Lines 230-239. *)
Definition rename (p : string) (v : grid_value)
    (param_names : option (dict names)) (ID : dict scalar)
    : failure + dict scalar :=
  match param_names with
  | None => inr ID
  | Some pn =>
      match dict_get pn p with
      | None => inr ID
      | Some namep =>
          match v with
          | Composite _ =>
              do idx <- item ID (p ++ "_idx");
              do name <- name_of namep idx;
              del (dict_set ID p name) (p ++ "_idx")
          | Values vals =>
              match namep with
              | NamesDict _ =>
                  do cur <- item ID p;
                  do name <- name_of namep cur;
                  ret (dict_set ID p name)
              | NamesList _ =>
                  do cur <- item ID p;
                  do i <- index vals cur;
                  do name <- name_of namep (SInt i);
                  ret (dict_set ID p name)
              end
          end
      end
  end.

(** Lines 224-239. *)
Fixpoint for_items (entries : param_grid) (param_names : option (dict names))
    (ID : dict scalar) : failure + dict scalar :=
  match entries with
  | [] => inr ID
  | (p, v) :: rest =>
      do ID <- drop_composite v param_names ID;
      do ID <- rename p v param_names ID;
      for_items rest param_names ID
  end.

Section Str.

(** [str(v)] *)
Variable str : scalar -> string.

Definition output_id_from_config (param_comb : dict scalar)
    (param_grid : param_grid) (param_names : option (dict names))
    (runID : option string) : failure + (string * dict scalar) :=
  do ID <- for_items param_grid param_names param_comb;
  let ID_str := String.concat "_" (map (fun kv => str (snd kv)) ID) in
  match runID with
  | Some runID => ret (runID ++ "_" ++ ID_str, ID)
  | None => ret (ID_str, ID)
  end.

End Str.

(** *** Vocabulary of the properties *)

Definition is_composite (entry : string * grid_value) : bool :=
  match snd entry with
  | Composite _ => true
  | Values _ => false
  end.

(** *** A sample *)

Definition sample_str (v : scalar) : string :=
  match v with
  | SInt z => pretty z
  | SStr s => s
  | _ => "?"
  end.

Definition sample_comb : dict scalar :=
  [("dx", SInt 100); ("topo", SStr "flat"); ("nz", SInt 80)].

Definition sample_plain_grid : param_grid :=
  [("dx", Values [SInt 100; SInt 500]);
   ("topo", Values [SStr "cos"; SStr "flat"])].

Definition sample_names : dict names :=
  [("topo", NamesList [SStr "c"; SStr "f"])].

End OutputId.
(** * Properties *)

Module NprocSpec.
Import Nproc.







End NprocSpec.

Module PoolSpec.
Import Pool.

(** *** Sums, maxima and the parallel lists *)

Lemma fold_add_acc (l : list Z) (a : Z) : fold_left Z.add l a = a + py_sum l.
Proof.
  unfold py_sum. revert a. induction l as [|x l IH]; intros a; cbn.
  - lia.
  - rewrite IH, (IH (0 + x)). lia.
Qed.


Lemma py_sum_snoc (l : list Z) (x : Z) : py_sum (l ++ [x]) = py_sum l + x.
Proof.
  unfold py_sum at 1. rewrite fold_left_app. cbn.
  rewrite fold_add_acc. lia.
Qed.

Lemma py_sum_Q_Some (vs : list Q) (acc : Q) :
  py_sum_Q acc (map Some vs) = inr (fold_left Qplus vs acc).
Proof.
  revert acc. induction vs as [|v vs IH]; intros acc; cbn; [reflexivity|].
  apply IH.
Qed.

Lemma py_sum_Q_cases (l : list (option Q)) (acc : Q) :
  (exists vs, l = map Some vs) \/ py_sum_Q acc l = inl TypeError.
Proof.
  revert acc. induction l as [|[v|] l IH]; intros acc; cbn.
  - left. exists []. reflexivity.
  - destruct (IH (acc + v)%Q) as [[vs ->]|H].
    + left. exists (v :: vs). reflexivity.
    + right. exact H.
  - right. reflexivity.
Qed.

Lemma py_max_Some (x : Q) (l : list Q) :
  py_max (map Some (x :: l)) = inr (qmax x l).
Proof.
  cbn. unfold qmax. revert x. induction l as [|y l IH]; intros x; cbn.
  - reflexivity.
  - apply IH.
Qed.

Lemma removelast_snoc {A} (l : list A) (x : A) : removelast (l ++ [x]) = l.
Proof. apply removelast_last. Qed.

Section Proofs.

Variable conf : config.
Variable opts : options.

Local Abbreviation holds := (holds opts).
Local Abbreviation pool_of := (pool_of conf opts).
Local Abbreviation submit_pool := (submit_pool conf opts).
Local Abbreviation send_signal := (send_signal conf opts).
Local Abbreviation Inv := (Inv conf opts).
Local Abbreviation cap_ok := (cap_ok conf opts).
Local Abbreviation good_trace := (good_trace conf opts).
Local Abbreviation post := (post conf opts).
Local Abbreviation flush := (flush conf opts).
Local Abbreviation step := (step conf opts).

Lemma holds_nil (s : state) :
  IDs s = [] -> nslots s = [] -> nxny s = [] -> vmem s = [] -> rtr s = [] ->
  holds s [].
Proof. intros. repeat split; auto. Qed.

Lemma holds_length (s : state) (ms : list rep) :
  holds s ms -> length (nslots s) = length ms.
Proof. intros (_ & -> & _). apply length_map. Qed.

(** One submission of a pool that holds the runs [ms]: the pool is
    announced, then either submitted as the pool of [ms], or one of the
    expected errors ends the run before the command is issued. *)
Lemma submit_pool_holds (r : rep) (s : state) (ms : list rep) :
  holds s ms -> ms <> [] ->
  exists t' res,
    submit_pool r s =
      (Announce (map IDr ms) (py_sum (map nslotsi ms)) :: t', res) /\
    ((res = inr tt /\ exists sub, t' = [Submit sub] /\ pool_of sub ms) \/
     (exists e, res = inl e /\ t' = [] /\ expected_error e)).
Proof.
  intros (HI & HN & HX & HV & HR) Hne.
  unfold submit_pool, Pool.submit_pool, pool_vmemp.
  rewrite HI, HN.
  destruct (job_scheduler opts) as [js|] eqn:Hjs.
  - rewrite HR by discriminate. rewrite HV.
    destruct ms as [|r0 ms0]; [contradiction|].
    change (map (fun r1 => Some (rtri r1)) (r0 :: ms0))
      with (map (fun r1 => Some (rtri r1)) (r0 :: ms0)).
    assert (Hmax : py_max (map (fun r1 => Some (rtri r1)) (r0 :: ms0))
                   = inr (qmax (rtri r0) (map rtri ms0))).
    { rewrite <- py_max_Some. f_equal. cbn. f_equal.
      rewrite map_map. reflexivity. }
    rewrite Hmax.
    fold send_signal. unfold Pool.send_signal.
    set (send := if restart opts then send_rt_signal_restart conf
                 else send_rt_signal conf).
    set (m := qmax (rtri r0) (map rtri ms0)).
    destruct (request_vmem conf) eqn:Hrv.
    + destruct (py_sum_Q_cases (map vmemi (r0 :: ms0)) 0%Q) as [[vs Hvs]|Herr].
      * rewrite Hvs, py_sum_Q_Some.
        cbn [bind emit lift fst snd app].
        destruct (py_sum (map nslotsi (r0 :: ms0)) =? 0) eqn:Hz.
        { eexists _, _. split; [reflexivity|]. right.
          eexists. repeat split. right; left; reflexivity. }
        cbn [bind ret raise fst snd app].
        destruct (Qlt_le_dec m send) as [Hlt|Hle].
        { eexists _, _. split; [reflexivity|]. right.
          eexists. repeat split. right; right; left; reflexivity. }
        eexists _, _. split; [reflexivity|]. left. split; [reflexivity|].
        eexists. split; [reflexivity|].
        constructor; cbn; try reflexivity; try assumption; rewrite Hjs.
        -- exists r0, ms0. split; [reflexivity|]. cbn.
           fold m. unfold Pool.send_signal. fold send. auto.
        -- rewrite Hrv. exists vs. split; [exact Hvs|].
           split; [apply Z.eqb_neq; exact Hz|]. reflexivity.
      * rewrite Herr. cbn [bind emit lift fst snd app].
        eexists _, _. split; [reflexivity|]. right.
        eexists. repeat split. left; reflexivity.
    + cbn [bind emit lift ret fst snd app].
      destruct (Qlt_le_dec m send) as [Hlt|Hle].
      { eexists _, _. split; [reflexivity|]. right.
        eexists. repeat split. right; right; left; reflexivity. }
      eexists _, _. split; [reflexivity|]. left. split; [reflexivity|].
      eexists. split; [reflexivity|].
      constructor; cbn; try reflexivity; try assumption; rewrite Hjs.
      -- exists r0, ms0. split; [reflexivity|]. cbn.
         fold m. unfold Pool.send_signal. fold send. auto.
      -- rewrite Hrv. reflexivity.
  - cbn [bind emit fst snd app].
    eexists _, _. split; [reflexivity|]. left. split; [reflexivity|].
    eexists. split; [reflexivity|].
    constructor; cbn; try reflexivity; try assumption; rewrite Hjs; auto.
Qed.


(** *** Traces *)

Lemma submitted_app (t1 t2 : list event) :
  submitted (t1 ++ t2) = submitted t1 ++ submitted t2.
Proof. unfold submitted. apply flat_map_app. Qed.

Lemma good_trace_nil : good_trace [] [].
Proof. split; constructor. Qed.

Lemma good_trace_app t1 t2 p1 p2 :
  good_trace t1 p1 -> good_trace t2 p2 -> good_trace (t1 ++ t2) (p1 ++ p2).
Proof.
  intros [H1 A1] [H2 A2]. split.
  - rewrite submitted_app. apply Forall2_app; assumption.
  - apply Forall_app; split; assumption.
Qed.

Lemma pool_of_names (sub : submission) (ms : list rep) :
  pool_of sub ms -> sub_IDs sub <> [].
Proof.
  intros H. rewrite (po_IDs _ _ _ _ H).
  destruct ms; [destruct (po_nonempty _ _ _ _ H); reflexivity|discriminate].
Qed.

(** The trace of one successful submission of the runs [ms]. *)
Lemma good_trace_submit (ms : list rep) (sub : submission) :
  pool_of sub ms ->
  good_trace [Announce (map IDr ms) (py_sum (map nslotsi ms)); Submit sub] [ms].
Proof.
  intros H. split.
  - cbn. constructor; [exact H|constructor].
  - repeat constructor; cbn.
    + destruct ms; [destruct (po_nonempty _ _ _ _ H); reflexivity|discriminate].
    + apply (pool_of_names _ _ H).
Qed.

(** The trace of a submission an error cut short. *)
Lemma good_trace_announce (ms : list rep) :
  ms <> [] ->
  good_trace [Announce (map IDr ms) (py_sum (map nslotsi ms))] [].
Proof.
  intros H. split; [constructor|].
  repeat constructor. cbn. destruct ms; [contradiction|discriminate].
Qed.

(** *** The monad *)

Lemma bind_ret_l {A B} (a : A) (f : A -> M B) : bind (ret a) f = f a.
Proof. unfold bind, ret. cbn. destruct (f a); reflexivity. Qed.

Lemma bind_raise_l {A B} (e : exn) (f : A -> M B) : bind (raise e) f = raise e.
Proof. reflexivity. Qed.

Lemma bind_ret_r {A} (m : M A) : bind m ret = m.
Proof.
  destruct m as [t [e|a]]; cbn; [reflexivity|].
  rewrite app_nil_r. reflexivity.
Qed.

Lemma post_bind (final : bool) (todo more : list rep) (m : M state)
    (f : state -> M state) :
  post false todo m ->
  (forall s' ms', Inv s' ms' -> post final (ms' ++ more) (f s')) ->
  post final (todo ++ more) (bind m f).
Proof.
  intros (pools & Hg & Hm) Hf. destruct m as [t [e|s']]; cbn in *.
  - destruct Hm as (He & rest & Hrest).
    exists pools. split; [exact Hg|]. split; [exact He|].
    exists (rest ++ more). rewrite app_assoc, Hrest. reflexivity.
  - destruct Hm as (ms' & HI & Hc).
    destruct (Hf s' ms' HI) as (pools2 & Hg2 & Hm2).
    exists (pools ++ pools2). split; [apply good_trace_app; assumption|].
    rewrite concat_app. destruct (snd (f s')) as [e|s''].
    + destruct Hm2 as (He & rest & Hrest). split; [exact He|].
      exists rest. rewrite <- app_assoc, Hrest, app_assoc, Hc. reflexivity.
    + destruct Hm2 as (ms'' & HI2 & Hc2). exists ms''. split; [exact HI2|].
      destruct final.
      * rewrite Hc2, app_assoc, Hc. reflexivity.
      * rewrite <- app_assoc, Hc2, app_assoc, Hc. reflexivity.
Qed.


(** *** The [while iterate] loop never needs more than two passes *)

Lemma flush_while_plain (r : rep) (last_id : bool) (s : state) :
  flush_while conf opts 2 r false last_id s =
  bind (submit_pool r s) (fun _ => ret (emptied s)).
Proof.
  cbn [flush_while after_submit]. destruct (submit_pool r s) as [t [e|u]];
    reflexivity.
Qed.

Lemma flush_while_resched (r : rep) (last_id : bool) (s : state) (rt : option Q) :
  rtri_var s = Some rt ->
  flush_while conf opts 2 r true last_id s =
  bind (submit_pool r s) (fun _ =>
    if last_id then
      bind (submit_pool r (seeded r rt s)) (fun _ => ret (seeded r rt s))
    else ret (seeded r rt s)).
Proof.
  intros Hrt. cbn [flush_while after_submit]. rewrite Hrt.
  destruct (submit_pool r s) as [t [e|u]]; [reflexivity|].
  destruct last_id; [|reflexivity].
  cbn [bind ret fst snd seeded rtri_var]. rewrite Hrt.
  destruct (submit_pool r (seeded r rt s)) as [t2 [e2|u2]]; reflexivity.
Qed.

(** *** One flush *)

Lemma post_ret (s : state) (ms : list rep) : Inv s ms -> post false ms (ret s).
Proof.
  intros HI. exists []. split; [apply good_trace_nil|].
  cbn. exists ms. split; [exact HI|reflexivity].
Qed.

Lemma post_ret_final (s : state) (ms : list rep) :
  Inv s ms -> post true [] (ret s).
Proof.
  intros HI. exists []. split; [apply good_trace_nil|].
  cbn. exists ms. split; [exact HI|reflexivity].
Qed.

Lemma post_raise (final : bool) (todo : list rep) (e : exn) :
  expected_error e -> post final todo (raise e).
Proof.
  intros He. exists []. split; [apply good_trace_nil|].
  cbn. split; [exact He|]. exists todo. reflexivity.
Qed.

Lemma post_submit (final : bool) (r : rep) (s : state) (ms more : list rep)
    (k : M state) :
  holds s ms -> ms <> [] -> post final more k ->
  post final (ms ++ more) (bind (submit_pool r s) (fun _ => k)).
Proof.
  intros Hh Hne (pools & Hg & Hk).
  destruct (submit_pool_holds r s ms Hh Hne) as (t' & res & -> & Hcase).
  destruct Hcase as [(-> & sub & -> & Hsub)|(e & -> & -> & He)].
  - exists (ms :: pools). cbn [bind fst snd]. split.
    + apply (good_trace_app _ _ [ms] pools); [|exact Hg].
      apply good_trace_submit. exact Hsub.
    + destruct (snd k) as [e|s'].
      * destruct Hk as (He & rest & Hrest). split; [exact He|].
        exists rest. cbn. rewrite <- app_assoc, Hrest. reflexivity.
      * destruct Hk as (ms' & HI & Hc). exists ms'. split; [exact HI|].
        destruct final; cbn.
        -- rewrite Hc. reflexivity.
        -- rewrite <- app_assoc, Hc. reflexivity.
  - exists []. cbn [bind fst snd]. split.
    + apply good_trace_announce. exact Hne.
    + split; [exact He|]. exists (ms ++ more). reflexivity.
Qed.

Lemma Inv_nil (s : state) : holds s [] -> Inv s [].
Proof.
  intros H. split; [exact H|]. unfold Pool.cap_ok.
  destruct (pool_jobs opts); [cbn; lia|reflexivity].
Qed.

Lemma holds_emptied (s : state) : holds (emptied s) [].
Proof. repeat split. Qed.

Lemma holds_seeded (r : rep) (s : state) :
  holds (seeded r (current_rt opts r) s) [r].
Proof.
  repeat split. intros Hjs. cbn. unfold current_rt.
  destruct (job_scheduler opts); [reflexivity|contradiction].
Qed.

Lemma Inv_seeded (r : rep) (s : state) :
  pool_jobs opts = true -> Inv (seeded r (current_rt opts r) s) [r].
Proof.
  intros Hp. split; [apply holds_seeded|]. unfold Pool.cap_ok.
  rewrite Hp. cbn. lia.
Qed.

Lemma holds_appended (r : rep) (s : state) (ms : list rep) :
  holds s ms -> holds (appended opts r s) (ms ++ [r]).
Proof.
  intros (HI & HN & HX & HV & HR). unfold appended.
  repeat split; cbn; rewrite ?map_app; cbn; try congruence.
  intros Hjs. unfold current_rt.
  destruct (job_scheduler opts); [|contradiction].
  rewrite HR by discriminate. reflexivity.
Qed.

Lemma skipped_id (r : rep) (s : state) : skipped r s = s.
Proof.
  unfold skipped. rewrite !removelast_snoc. destruct s; reflexivity.
Qed.

Lemma holds_trim (s : state) (ms : list rep) (r : rep) :
  holds s (ms ++ [r]) -> holds (trim s) ms.
Proof.
  intros (HI & HN & HX & HV & HR). unfold trim.
  repeat split; cbn.
  - rewrite HI, map_app. apply removelast_snoc.
  - rewrite HN, map_app. apply removelast_snoc.
  - rewrite HX, map_app. apply removelast_snoc.
  - rewrite HV, map_app. apply removelast_snoc.
  - intros Hjs. rewrite (HR Hjs), map_app. apply removelast_snoc.
Qed.

(** A flush right after the run [r] joined a pool that held [ms]. *)
Lemma flush_post_accept (last_id : bool) (r : rep) (s : state) (ms : list rep) :
  Inv s ms ->
  post last_id (ms ++ [r]) (flush last_id r (appended opts r s)).
Proof.
  intros [Hh Hcap].
  pose proof (holds_appended r s ms Hh) as Hh1.
  unfold flush, Pool.flush, overflow_split.
  assert (HN : nslots (appended opts r s) = map nslotsi (ms ++ [r]))
    by apply Hh1.
  rewrite HN, length_map.
  destruct (pool_jobs opts && (pool_size conf <? py_sum (map nslotsi (ms ++ [r]))))
    eqn:Hover.
  - apply andb_true_iff in Hover as [Hp Hgt].
    destruct ((1 <? length (ms ++ [r]))%nat) eqn:Hlen.
    + (* the split *)
      assert (Hne : ms <> []).
      { intros ->. cbn in Hlen. discriminate Hlen. }
      rewrite bind_ret_l. cbn [fst snd].
      rewrite (flush_while_resched r last_id (trim (appended opts r s))
                 (current_rt opts r)) by reflexivity.
      apply (post_submit last_id r _ ms [r]); [|exact Hne|].
      * apply (holds_trim _ ms r). exact Hh1.
      * destruct last_id.
        -- replace [r] with ([r] ++ []) by reflexivity.
           apply post_submit; [apply holds_seeded|discriminate|].
           apply (post_ret_final _ [r]). apply Inv_seeded. exact Hp.
        -- apply post_ret. apply Inv_seeded. exact Hp.
    + (* a single run above capacity *)
      assert (Hms : ms = []).
      { apply Nat.ltb_ge in Hlen. rewrite length_app in Hlen. cbn in Hlen.
        destruct ms as [|? ?]; [reflexivity|]. cbn in Hlen. lia. }
      subst ms.
      destruct (job_scheduler opts) as [[|]|] eqn:Hjs.
      * rewrite bind_raise_l. apply post_raise.
        right; right; right; reflexivity.
      * rewrite bind_ret_l. cbn [fst snd]. rewrite flush_while_plain.
        replace ([] ++ [r]) with (([] ++ [r]) ++ []) by reflexivity.
        apply post_submit; [exact Hh1|discriminate|].
        destruct last_id; [apply (post_ret_final _ [])|apply post_ret];
          apply Inv_nil, holds_emptied.
      * rewrite bind_ret_l. cbn [fst snd]. rewrite flush_while_plain.
        replace ([] ++ [r]) with (([] ++ [r]) ++ []) by reflexivity.
        apply post_submit; [exact Hh1|discriminate|].
        destruct last_id; [apply (post_ret_final _ [])|apply post_ret];
          apply Inv_nil, holds_emptied.
  - rewrite bind_ret_l. cbn [fst snd]. rewrite flush_while_plain.
    rewrite <- (app_nil_r (ms ++ [r])).
    apply post_submit; [exact Hh1|destruct ms; discriminate|].
    destruct last_id; [apply (post_ret_final _ [])|apply post_ret];
      apply Inv_nil, holds_emptied.
Qed.

(** The forced flush of the last pass when its run is skipped and the
    pool still holds the runs [ms]. *)
Lemma flush_post_skip (r : rep) (s : state) (ms : list rep) :
  Inv s ms -> ms <> [] -> post true ms (flush true r s).
Proof.
  intros [Hh Hcap] Hne.
  unfold flush, Pool.flush, overflow_split.
  assert (HN : nslots s = map nslotsi ms) by apply Hh.
  rewrite HN, length_map.
  assert (Hplain : post true ms
            (bind (ret (s, false)) (fun sp =>
               flush_while conf opts 2 r (snd sp) true (fst sp)))).
  { rewrite bind_ret_l. cbn [fst snd]. rewrite flush_while_plain. rewrite <- (app_nil_r ms).
    apply post_submit; [exact Hh|exact Hne|].
    apply (post_ret_final _ []). apply Inv_nil, holds_emptied. }
  destruct (pool_jobs opts && (pool_size conf <? py_sum (map nslotsi ms)))
    eqn:Hover; [|exact Hplain].
  apply andb_true_iff in Hover as [Hp Hgt]. apply Z.ltb_lt in Hgt.
  destruct ((1 <? length ms)%nat) eqn:Hlen.
  - apply Nat.ltb_lt in Hlen. unfold Pool.cap_ok in Hcap.
    rewrite Hp in Hcap. specialize (Hcap ltac:(lia)). lia.
  - destruct (job_scheduler opts) as [[|]|] eqn:Hjs.
    + rewrite bind_raise_l. apply post_raise.
      right; right; right; reflexivity.
    + exact Hplain.
    + exact Hplain.
Qed.

(** *** One repetition, one configuration, the batch *)

Lemma step_post (last_id : bool) (r : rep) (s : state) (ms : list rep) :
  Inv s ms -> post last_id (ms ++ accepted_of [r]) (step last_id r s).
Proof.
  intros HI. unfold step, Pool.step, accepted_of. cbn [List.filter].
  destruct (skip r) eqn:Hskip; cbn [negb].
  - rewrite skipped_id, app_nil_r.
    destruct (negb last_id || (length (nslots s) =? 0)%nat) eqn:Hcont.
    + destruct last_id; cbn in Hcont.
      * apply Nat.eqb_eq in Hcont.
        rewrite (holds_length s ms (proj1 HI)) in Hcont.
        destruct ms; [|discriminate]. apply (post_ret_final _ []). exact HI.
      * apply post_ret. exact HI.
    + apply orb_false_iff in Hcont as [Hlast Hlen].
      destruct last_id; [|discriminate]. unfold flush_due.
      rewrite orb_true_r. apply flush_post_skip; [exact HI|].
      apply Nat.eqb_neq in Hlen.
      rewrite (holds_length s ms (proj1 HI)) in Hlen.
      destruct ms; [contradiction|discriminate].
  - destruct (flush_due conf opts last_id (appended opts r s)) eqn:Hdue.
    + apply flush_post_accept. exact HI.
    + unfold flush_due in Hdue.
      apply orb_false_iff in Hdue as [Hdue ->].
      apply orb_false_iff in Hdue as [Hp Hsum].
      apply negb_false_iff in Hp. apply Z.leb_gt in Hsum.
      apply post_ret. destruct HI as [Hh Hcap].
      pose proof (holds_appended r s ms Hh) as Hh1.
      split; [exact Hh1|]. unfold Pool.cap_ok. rewrite Hp. intros _.
      destruct Hh1 as (_ & <- & _). exact Hsum.
Qed.

Lemma accepted_of_cons (r : rep) (rs : list rep) :
  accepted_of (r :: rs) = accepted_of [r] ++ accepted_of rs.
Proof. unfold accepted_of. cbn. destruct (skip r); reflexivity. Qed.

Lemma rep_loop_post (last_cfg : bool) (rs : list rep) :
  forall s ms, Inv s ms ->
    post (last_cfg && nonempty rs) (ms ++ accepted_of rs)
      (rep_loop conf opts last_cfg rs s).
Proof.
  induction rs as [|r rs IH]; intros s ms HI.
  - cbn. rewrite andb_false_r, app_nil_r. apply post_ret. exact HI.
  - cbn [rep_loop nonempty]. rewrite andb_true_r, accepted_of_cons, app_assoc.
    destruct rs as [|r' rs'].
    + cbn [rep_loop]. rewrite andb_true_r.
      replace (fun s' : state => ret s') with (@ret state) by reflexivity.
      rewrite bind_ret_r. cbn [accepted_of List.filter]. rewrite app_nil_r.
      apply step_post. exact HI.
    + rewrite andb_false_r. apply post_bind.
      * apply step_post. exact HI.
      * intros s' ms' HI'. specialize (IH s' ms' HI').
        cbn [nonempty] in IH. rewrite andb_true_r in IH. exact IH.
Qed.

Lemma last_reached_cons (c : batch_config) (cs : list batch_config) :
  last_reached (c :: cs) =
  if nonempty cs then last_reached cs
  else negb (cfg_skip c) && nonempty (reps c).
Proof. destruct cs; reflexivity. Qed.

Lemma cfg_loop_post (cs : list batch_config) :
  forall s ms, Inv s ms ->
    post (last_reached cs) (ms ++ accepted cs) (cfg_loop conf opts cs s).
Proof.
  induction cs as [|c cs IH]; intros s ms HI.
  - cbn. rewrite app_nil_r. apply post_ret. exact HI.
  - cbn [cfg_loop]. rewrite last_reached_cons. unfold accepted.
    cbn [flat_map]. fold (accepted cs).
    destruct (cfg_skip c) eqn:Hskip; cbn [negb andb app].
    + destruct cs as [|c' cs'].
      * cbn. rewrite app_nil_r. apply post_ret. exact HI.
      * apply (IH s ms HI).
    + rewrite app_assoc. destruct cs as [|c' cs'].
      * cbn [cfg_loop nonempty accepted flat_map].
        replace (fun s' : state => ret s') with (@ret state) by reflexivity.
        rewrite bind_ret_r, app_nil_r.
        pose proof (rep_loop_post true (reps c) s ms HI) as H.
        exact H.
      * cbn [nonempty]. apply post_bind.
        -- pose proof (rep_loop_post false (reps c) s ms HI) as H.
           exact H.
        -- intros s' ms' HI'. apply (IH s' ms' HI').
Qed.

Lemma holds_initial : holds initial_state [].
Proof. repeat split. Qed.

(** The whole batch: the pools submitted are, in order, a prefix of the
    accepted runs; all of them once the last pass reached the pooling
    code. *)
Lemma submit_jobs_post (batch : list batch_config) :
  post (last_reached batch) (accepted batch) (submit_jobs conf opts batch).
Proof.
  apply (cfg_loop_post batch initial_state []).
  apply Inv_nil, holds_initial.
Qed.

(** *** Limits of a pool *)

Lemma qmax_cons (x y : Q) (l : list Q) :
  qmax x (y :: l) = qmax (if Qlt_le_dec x y then y else x) l.
Proof. reflexivity. Qed.


Lemma qmax_ge (l : list Q) :
  forall x, (x <= qmax x l)%Q /\ Forall (fun y => (y <= qmax x l)%Q) l.
Proof.
  induction l as [|y l IH]; intros x.
  - split; [apply Qle_refl|constructor].
  - rewrite qmax_cons.
    destruct (IH (if Qlt_le_dec x y then y else x)) as [H1 H2].
    destruct (Qlt_le_dec x y) as [Hlt|Hle].
    + split; [|constructor; assumption].
      apply Qle_trans with y; [apply Qlt_le_weak; exact Hlt|exact H1].
    + split; [exact H1|constructor; [|exact H2]].
      apply Qle_trans with x; assumption.
Qed.






(** What [post] says of the events alone. *)
Lemma post_trace (final : bool) (todo : list rep) (out : M state) :
  post final todo out ->
  exists pools rest,
    Forall2 pool_of (submitted (fst out)) pools /\
    Forall names_a_run (fst out) /\
    concat pools ++ rest = todo /\
    (forall s', snd out = inr s' -> final = true -> rest = []) /\
    (forall e, snd out = inl e -> expected_error e).
Proof.
  intros (pools & [Hf Hn] & Hm). exists pools.
  destruct (snd out) as [e|s'].
  - destruct Hm as (He & rest & Hrest). exists rest.
    repeat split; try assumption; [discriminate|].
    intros e' [= <-]. exact He.
  - destruct Hm as (ms' & HI & Hc). destruct final.
    + exists []. rewrite app_nil_r.
      repeat split; try assumption; discriminate.
    + exists ms'. repeat split; try assumption; discriminate.
Qed.

End Proofs.

(** *** The overflow split *)

(** At a flush where the pool, the current run [r] included, is above
    capacity and [r] is not alone, the pool is submitted without [r], and
    [r] alone is the next pool; when the pass is the last one, a second
    pass of the [while] loop submits that pool too. *)
Lemma overflow_split_step (conf : config) (opts : options) (last_id : bool)
    (r : rep) (s : state) (ms : list rep) :
  holds opts s ms -> ms <> [] -> skip r = false -> pool_jobs opts = true ->
  pool_size conf < py_sum (map nslotsi (ms ++ [r])) ->
  let cut := trim (appended opts r s) in
  let seed := seeded r (current_rt opts r) cut in
  holds opts cut ms /\ holds opts seed [r] /\
  step conf opts last_id r s =
    bind (submit_pool conf opts r cut) (fun _ =>
      if last_id then bind (submit_pool conf opts r seed) (fun _ => ret seed)
      else ret seed).
Proof.
  intros Hh Hne Hskip Hp Hgt cut seed.
  pose proof (holds_appended opts r s ms Hh) as Hh1.
  split; [apply (holds_trim opts _ ms r); exact Hh1|].
  split; [apply holds_seeded|].
  unfold step. rewrite Hskip.
  assert (HN : nslots (appended opts r s) = map nslotsi (ms ++ [r]))
    by apply Hh1.
  assert (Hdue : flush_due conf opts last_id (appended opts r s) = true).
  { unfold flush_due. rewrite HN.
    apply orb_true_iff; left. apply orb_true_iff; right.
    apply Z.leb_le. lia. }
  rewrite Hdue. unfold flush, overflow_split. rewrite HN, Hp, length_map.
  apply Z.ltb_lt in Hgt. rewrite Hgt. cbn [andb].
  assert (Hlen : (1 <? length (ms ++ [r]))%nat = true).
  { apply Nat.ltb_lt. rewrite length_app. cbn.
    destruct ms; [contradiction|cbn; lia]. }
  rewrite Hlen, bind_ret_l. cbn [fst snd].
  apply flush_while_resched. reflexivity.
Qed.

(** Slot costs 4, 4, 4 against capacity 10: the third run overflows the
    pool, the first two are submitted (8 slots), and the third is the seed
    of the next pool: it is submitted alone when it is the last run of the
    batch, and together with the next run otherwise. *)
Lemma overflow_example_4_4_4 :
  let a := mk_rep "a" 4 3600 false in
  let b := mk_rep "b" 4 3600 false in
  let c := mk_rep "c" 4 3600 false in
  let d := mk_rep "d" 4 3600 false in
  map (fun sub => (sub_IDs sub, py_sum (sub_nslots sub)))
      (submitted (fst (submit_jobs conf10 (pooled SGE) [mk_cfg [a; b; c]])))
    = [(["a"; "b"], 8); (["c"], 4)] /\
  map (fun sub => (sub_IDs sub, py_sum (sub_nslots sub)))
      (submitted (fst (submit_jobs conf10 (pooled SGE) [mk_cfg [a; b; c; d]])))
    = [(["a"; "b"], 8); (["c"; "d"], 8)].
Proof. split; vm_compute; reflexivity. Qed.

(** X12: every submitted pool is the pool of a stretch of the accepted runs,
    in their order; once the last pass of the loop has reached the pooling
    code and the run ended normally, all accepted runs are submitted. *)
Lemma accepted_runs_conserved (conf : config) (opts : options)
    (batch : list batch_config) :
  exists pools rest,
    Forall2 (pool_of conf opts)
      (submitted (fst (submit_jobs conf opts batch))) pools /\
    concat pools ++ rest = accepted batch /\
    (forall s', snd (submit_jobs conf opts batch) = inr s' ->
       last_reached batch = true -> rest = []).
Proof.
  destruct (post_trace conf opts _ _ _ (submit_jobs_post conf opts batch))
    as (pools & rest & Hf & _ & Hc & Hrest & _).
  exists pools, rest. repeat split; assumption.
Qed.


(** C1: the tail of the batch can be lost.  A run of 4 slots is accepted
    into a pool of capacity 10; the next and last configuration has no
    resource estimate, so line 282 leaves its pass before the forced flush
    of the last pass is reached: nothing is ever submitted.  When the last
    run is skipped inside the repetition loop instead (lines 430-436), the
    pool is flushed without it. *)
Theorem tail_pool_never_submitted :
  let a := mk_rep "a" 4 3600 false in
  let b := mk_rep "b" 4 3600 false in
  let b_skipped := mk_rep "b" 4 3600 true in
  accepted [mk_cfg [a]; skipped_cfg [b]] = [a] /\
  fst (submit_jobs conf10 (pooled SGE) [mk_cfg [a]; skipped_cfg [b]]) = [] /\
  (exists s', snd (submit_jobs conf10 (pooled SGE) [mk_cfg [a]; skipped_cfg [b]])
              = inr s' /\ IDs s' = ["a"]) /\
  map sub_IDs
    (submitted (fst (submit_jobs conf10 (pooled SGE) [mk_cfg [a]; mk_cfg [b_skipped]])))
    = [["a"]].
Proof.
  cbv zeta. split; [reflexivity|]. split; [vm_compute; reflexivity|].
  split; [|vm_compute; reflexivity].
  eexists. split; [vm_compute; reflexivity|reflexivity].
Qed.

(** *** A single run above capacity *)









(** *** The signal time *)

(** C4 (as the code has it): under a job scheduler, once the limits of
    the pool are computed, a wall-clock limit strictly below the signal
    time raises the error before the command is issued; a limit equal to
    or above the signal time lets the pool be submitted, with the
    difference as [rtlimit].  The signal time is [send_rt_signal_restart]
    for a restart. *)
Theorem rt_signal_check (conf : config) (opts : options) (r : rep) (s : state)
    (js : scheduler) (vmemp : option Z) (m : Q) :
  job_scheduler opts = Some js ->
  pool_vmemp conf s = ([], inr vmemp) ->
  py_max (rtr s) = inr m ->
  ((m < send_signal conf opts)%Q ->
     submit_pool conf opts r s =
       ([Announce (IDs s) (py_sum (nslots s))],
        inl (ValueError msg_rt_signal))) /\
  ((send_signal conf opts <= m)%Q ->
     exists sub,
       submit_pool conf opts r s =
         ([Announce (IDs s) (py_sum (nslots s)); Submit sub], inr tt) /\
       sub_rtp sub = Some (format_timedelta m) /\
       sub_rtlimit sub = Some (py_int (m - send_signal conf opts))).
Proof.
  intros Hjs Hv Hmax. unfold submit_pool, send_signal.
  rewrite Hjs, Hv, Hmax.
  set (send := if restart opts then send_rt_signal_restart conf
               else send_rt_signal conf).
  cbn [bind emit lift raise fst snd app].
  split; intros Hcmp.
  - destruct (Qlt_le_dec m send) as [_|Hle]; [reflexivity|].
    exfalso. apply (Qlt_not_le _ _ Hcmp). exact Hle.
  - destruct (Qlt_le_dec m send) as [Hlt|_].
    + exfalso. apply (Qlt_not_le _ _ Hlt). exact Hcmp.
    + eexists. split; [reflexivity|]. split; reflexivity.
Qed.

Lemma rt_signal_check_witness :
  let r := mk_rep "a" 4 3600 false in
  let s := appended (pooled SGE) r initial_state in
  submit_pool conf_signal_at_limit (pooled SGE) r s
    = ([Announce ["a"] 4], inl (ValueError msg_rt_signal)) \/
  exists sub,
    submit_pool conf_signal_at_limit (pooled SGE) r s
      = ([Announce ["a"] 4; Submit sub], inr tt) /\
    sub_rtlimit sub = Some 0.
Proof.
  cbv zeta. right.
  destruct (proj2 (rt_signal_check conf_signal_at_limit (pooled SGE)
                     (mk_rep "a" 4 3600 false)
                     (appended (pooled SGE) (mk_rep "a" 4 3600 false) initial_state)
                     SGE (Some 25) (inject_Z 3600) eq_refl eq_refl eq_refl))
    as (sub & Hsub & _ & Hlim).
  - cbn. unfold Qle. cbn. lia.
  - exists sub. split; [exact Hsub|exact Hlim].
Defined.

(** C4 as the specification words it fails at equality: with the signal
    time equal to the wall-clock limit of the pool (3600 s) no error is
    raised and the pool is submitted. *)
Lemma rt_signal_equal_is_submitted :
  let out := submit_jobs conf_signal_at_limit (pooled SGE)
               [mk_cfg [mk_rep "a" 4 3600 false]] in
  send_signal conf_signal_at_limit (pooled SGE) = inject_Z 3600 /\
  map (fun sub => (sub_IDs sub, sub_rtp sub, sub_rtlimit sub))
      (submitted (fst out))
    = [(["a"], Some (1, 0, 0), Some 0)] /\
  (exists s', snd out = inr s') /\
  snd out <> inl (ValueError msg_rt_signal).
Proof.
  cbv zeta. split; [reflexivity|]. split; [vm_compute; reflexivity|].
  split; [eexists; vm_compute; reflexivity|vm_compute; discriminate].
Qed.

(** *** The limits of a pool *)


(** *** No flush of an empty pool *)

(** C9: when the last pass skips its run and the pool is empty, the pass
    ends without any event; and in every run of a batch each pool that is
    announced or submitted names a run, each submission lists a slot
    count, and [max] is never asked for the largest of no run times. *)
Theorem no_empty_pool_flush (conf : config) (opts : options) :
  (forall r s, skip r = true -> nslots s = [] ->
     step conf opts true r s = ([], inr s)) /\
  (forall batch,
     Forall names_a_run (fst (submit_jobs conf opts batch)) /\
     Forall (fun sub => sub_nslots sub <> [] /\ sub_IDs sub <> [])
       (submitted (fst (submit_jobs conf opts batch))) /\
     snd (submit_jobs conf opts batch) <> inl (ValueError msg_empty_max)).
Proof.
  split.
  - intros r s Hskip Hs. unfold step. rewrite Hskip, skipped_id, Hs.
    reflexivity.
  - intros batch.
    destruct (post_trace conf opts _ _ _ (submit_jobs_post conf opts batch))
      as (pools & rest & Hf & Hn & _ & _ & He).
    split; [exact Hn|]. split.
    + clear -Hf. induction Hf as [|sub ms subs pools Hp _ IH]; constructor.
      * split; [|apply (pool_of_names conf opts _ _ Hp)].
        rewrite (po_nslots _ _ _ _ Hp).
        destruct ms; [destruct (po_nonempty _ _ _ _ Hp); reflexivity|discriminate].
      * exact IH.
    + intros Heq. destruct (He _ Heq) as [H|[H|[H|H]]]; discriminate H.
Qed.

Lemma no_empty_pool_flush_witness :
  step conf10 (pooled SGE) true (mk_rep "a" 4 3600 true) initial_state
    = ([], inr initial_state).
Proof.
  apply (proj1 (no_empty_pool_flush conf10 (pooled SGE))); reflexivity.
Defined.

End PoolSpec.

Module IdenticalSpec.
Import Identical.

Section Proofs.

Context {V : Type} `{EqDecision V}.




End Proofs.





End IdenticalSpec.


Module RestartSpec.
Import Restart.

Local Open Scope string_scope.

Lemma run_hours_nonpositive (t_end t_rst : Z) :
  (t_end <= t_rst)%Z ->
  Qle_bool (inject_Z (t_end - t_rst) / inject_Z 3600) 0 = true.
Proof.
  intros H. unfold Qle_bool, Qdiv, Qmult, Qinv, inject_Z. cbn.
  apply Z.leb_le. lia.
Qed.

Lemma run_hours_positive (t_end t_rst : Z) :
  (t_rst < t_end)%Z ->
  Qle_bool (inject_Z (t_end - t_rst) / inject_Z 3600) 0 = false.
Proof.
  intros H. unfold Qle_bool, Qdiv, Qmult, Qinv, inject_Z. cbn.
  apply Z.leb_gt. lia.
Qed.

(** C8: when the log can be read and the time stamp in the name of the
    newest restart file is at or after the requested end time, the
    function prints "Run already complete" last and returns [None]; no
    file is moved, no folder is made, and the command that patches the
    namelist is not run. *)
Theorem restart_already_complete (strptime : string -> option Z)
    (o : oracle) (w : world) (wdir outpath : string)
    (output_streams : list string) (end_time : string)
    (runlog : list string) (rst_date rst_time end_d end_t : string)
    (t_rst t_end : Z) :
  run_log o = Some runlog ->
  newest_restart_time (ls_rst o) = [rst_date; rst_time] ->
  strptime (rst_date ++ "_" ++ rst_time) = Some t_rst ->
  strptime end_time = Some t_end ->
  split underscore end_time = [end_d; end_t] ->
  (t_end <= t_rst)%Z ->
  let out := prepare_restart strptime o w wdir outpath output_streams end_time in
  snd out = RetNone /\
  untouched w (fst out) /\
  exists msgs, printed (fst out) = (printed w ++ msgs ++ [msg_complete])%list.
Proof.
  intros Hlog Hnew Hrst Hend Hsplit Hle. cbv zeta. unfold prepare_restart.
  rewrite Hlog.
  destruct (bool_decide (success_line end_time ∈ runlog)).
  - split; [reflexivity|]. split; [repeat split|].
    exists []. reflexivity.
  - destruct (bool_decide (ls_rst o = "")) eqn:Hempty.
    + apply bool_decide_eq_true in Hempty. rewrite Hempty in Hnew.
      discriminate Hnew.
    + rewrite Hnew. cbn [String.concat]. rewrite Hrst, Hend, Hsplit.
      rewrite (run_hours_nonpositive _ _ Hle).
      split; [reflexivity|]. split; [repeat split|].
      eexists [_]. cbn. rewrite <- app_assoc. reflexivity.
Qed.

Lemma restart_already_complete_witness :
  let out := prepare_restart sample_strptime sample_oracle sample_world
               "/runs/WRF_pytest_lin_0" "/out" ["wrfout"; "fastout"]
               "2018-06-20_08:00:00" in
  snd out = RetNone /\
  untouched sample_world (fst out) /\
  exists msgs, printed (fst out) = (printed sample_world ++ msgs ++ [msg_complete])%list.
Proof.
  apply (restart_already_complete sample_strptime sample_oracle sample_world
           "/runs/WRF_pytest_lin_0" "/out" ["wrfout"; "fastout"]
           "2018-06-20_08:00:00"
           ["d01 2018-06-20_08:00:00 wrf: timing" ++ String newline ""]
           "2018-06-20" "08:00:00" "2018-06-20" "08:00:00" 28800 28800);
    try reflexivity.
  all: lia.
Defined.

(** With the end time two hours after the newest restart file the same
    run is prepared for a restart: the output is moved to the first free
    backup name and the namelist is patched. *)
Lemma restart_prepared_example :
  let out := prepare_restart sample_strptime sample_oracle sample_world
               "/runs/WRF_pytest_lin_0" "/out" ["wrfout"; "fastout"]
               "2018-06-20_10:00:00" in
  elements (files (fst out)) =
    ["/out/rst/wrfout_pytest_lin_0_rst_1"; "/out/rst/wrfout_pytest_lin_0_rst_0"] /\
  dirs_made (fst out) = ["/out/rst/"] /\
  length (commands (fst out)) = 1%nat /\
  snd out = Ret (7200 # 3600).
Proof. cbv zeta. repeat split; vm_compute; reflexivity. Qed.

End RestartSpec.

Module GridSpec.
Import Grid.
Local Open Scope string_scope.

(** *** Dictionaries *)




(** *** Transposition *)

Lemma heads_even {A} (dflt : A) (n : nat) (cols : list (list A)) :
  Forall (fun c => length c = S n) cols ->
  heads cols = Some (map (fun c => nth 0 c dflt) cols) /\
  Forall (fun c => length c = n) (map (@List.tl A) cols).
Proof.
  induction 1 as [|c cols Hc _ [IH1 IH2]]; cbn [heads map].
  - split; [reflexivity|constructor].
  - destruct c as [|x c]; [discriminate|]. rewrite IH1. cbn.
    split; [reflexivity|]. constructor; [|exact IH2]. cbn in Hc. lia.
Qed.

Lemma zip_star_even {A} (dflt : A) (n : nat) :
  forall cols : list (list A),
    Forall (fun c => length c = n) cols ->
    zip_star n cols = map (fun i => map (fun c => nth i c dflt) cols) (seq 0 n).
Proof.
  induction n as [|n IH]; intros cols Hall; [reflexivity|].
  cbn [zip_star]. destruct (heads_even dflt n cols Hall) as [-> Htl].
  rewrite (IH _ Htl). cbn [seq map]. f_equal.
  rewrite <- seq_shift, map_map. apply map_ext. intros i.
  rewrite map_map. apply map_ext. intros c. destruct c; [destruct i|]; reflexivity.
Qed.

Lemma transpose_list_even {A} (dflt : A) (n : nat) (cols : list (list A)) :
  cols <> [] ->
  Forall (fun c => length c = n) cols ->
  transpose_list cols =
  map (fun i => map (fun c => nth i c dflt) cols) (seq 0 n).
Proof.
  intros Hne Hall. unfold transpose_list.
  destruct cols as [|c cols]; [contradiction|].
  assert (Hc : length c = n) by (inversion Hall; assumption).
  rewrite Hc. apply zip_star_even. exact Hall.
Qed.

(** *** The axis of a composite *)




(** *** The loop over the parameters *)








(** *** The configurations *)










Lemma dict_set_new {A} (dc : dict A) (k : string) (v : A) :
  ~ In k (map fst dc) -> dict_set dc k v = (dc ++ [(k, v)])%list.
Proof.
  induction dc as [|[k' v'] dc IH]; intros Hnot; [reflexivity|].
  cbn [dict_set]. destruct (String.eqb_spec k' k) as [->|Hne].
  - exfalso. apply Hnot. left. reflexivity.
  - cbn. f_equal. apply IH. intros Hin. apply Hnot. right. exact Hin.
Qed.






(** *** Grid expansion of composites *)









(** A composite without sub-parameters is outside the theorem: line 170
    reads [lens[0]] of an empty array. *)
Lemma empty_composite_raises_index_error :
  grid_combinations [("c1", Composite [])] None = Raise IndexError.
Proof. reflexivity. Qed.

End GridSpec.






Module GridHeapSpec.
Import GridHeap.

(** *** The store *)

Lemma inside_mono (n k k' : nat) (v : val) :
  (k <= k')%nat -> inside n k v -> inside n k' v.
Proof. destruct v; cbn; try tauto. lia. Qed.

Lemma insides_mono (n k k' : nat) (vs : list val) :
  (k <= k')%nat -> Forall (inside n k) vs -> Forall (inside n k') vs.
Proof. intros Hk. apply List.Forall_impl. intros v. apply inside_mono, Hk. Qed.

Lemma inside_fresh (n n' k : nat) (v : val) :
  (n <= n')%nat -> inside n' k v -> fresh n v.
Proof. destruct v; cbn; try tauto. lia. Qed.

Lemma preserved_refl (n : nat) (h : heap) : preserved n h h.
Proof. split; [lia|reflexivity]. Qed.

Lemma preserved_trans (n : nat) (h1 h2 h3 : heap) :
  preserved n h1 h2 -> preserved n h2 h3 -> preserved n h1 h3.
Proof.
  intros [L1 P1] [L2 P2]. split; [lia|].
  intros l Hl. rewrite (P2 l Hl). apply P1. exact Hl.
Qed.

Lemma closed_start (h : heap) : closed (length h) h.
Proof.
  intros l o Hl Hlook. apply lookup_lt_Some in Hlook. lia.
Qed.

Ltac mono :=
  match goal with
  | H : inside ?n ?k ?v |- inside ?n ?k' ?v =>
      apply (inside_mono n k k' v); [lia|exact H]
  | H : Forall (inside ?n ?k) ?vs |- Forall (inside ?n ?k') ?vs =>
      apply (insides_mono n k k' vs); [lia|exact H]
  end.

(** *** Rules *)

Lemma safe_ret {A} (n k : nat) (a : A) (Q : nat -> A -> Prop) :
  (forall k', (k <= k')%nat -> Q k' a) -> safe n k (ret a) Q.
Proof.
  intros HQ h Hn Hk Hc. cbn. split; [apply preserved_refl|].
  split; [exact Hc|]. intros a' [= <-]. apply HQ, Hk.
Qed.

Lemma safe_raise {A} (n k : nat) (e : exn) (Q : nat -> A -> Prop) :
  safe n k (raise e) Q.
Proof.
  intros h Hn Hk Hc. cbn. split; [apply preserved_refl|].
  split; [exact Hc|]. intros a' [=].
Qed.

Lemma safe_bind {A B} (n k : nat) (m : H A) (f : A -> H B)
    (Q : nat -> A -> Prop) (R : nat -> B -> Prop) :
  safe n k m Q ->
  (forall a k1, (k <= k1)%nat -> Q k1 a -> safe n k1 (f a) R) ->
  safe n k (bind m f) R.
Proof.
  intros Hm Hf h Hn Hk Hc. destruct (Hm h Hn Hk Hc) as (Hp & Hc' & HQ).
  unfold bind. destruct (m h) as [h1 [e|a]]; cbn [fst snd] in *.
  - split; [exact Hp|]. split; [exact Hc'|]. intros b [=].
  - assert (Hn1 : (n <= length h1)%nat) by (destruct Hp; lia).
    assert (Hk1 : (k <= length h1)%nat) by (destruct Hp; lia).
    destruct (Hf a (length h1) Hk1 (HQ a eq_refl) h1 Hn1 (le_n _) Hc')
      as (Hp2 & Hc2 & HR).
    split; [apply (preserved_trans n h h1 _ Hp Hp2)|].
    split; [exact Hc2|exact HR].
Qed.

Lemma safe_alloc (n k : nat) (o : obj) :
  Forall (inside n k) (obj_vals o) ->
  safe n k (alloc o) (fun k' l => (n <= l < k')%nat).
Proof.
  intros Ho h Hn Hk Hc. unfold alloc. cbn [fst snd]. split; [|split].
  - split; [rewrite length_app; lia|].
    intros l Hl. apply lookup_app_l. lia.
  - intros l o' Hl Hlook. rewrite length_app. cbn [length].
    destruct (Nat.lt_ge_cases l (length h)) as [Hlt|Hge].
    + rewrite lookup_app_l in Hlook by exact Hlt.
      apply (insides_mono n (length h)); [lia|]. apply (Hc l o' Hl Hlook).
    + rewrite lookup_app_r in Hlook by exact Hge.
      destruct (l - length h)%nat; cbn in Hlook; [|discriminate].
      injection Hlook as <-. apply (insides_mono n k); [lia|exact Ho].
  - intros l [= <-]. rewrite length_app. cbn [length]. lia.
Qed.

Lemma safe_load (n k : nat) (l : loc) :
  safe n k (load l)
    (fun k' o => (n <= l)%nat -> Forall (inside n k') (obj_vals o)).
Proof.
  intros h Hn Hk Hc. unfold load.
  destruct (h !! l) as [o|] eqn:Hl; cbn [fst snd].
  - split; [apply preserved_refl|]. split; [exact Hc|].
    intros o' [= <-] Hge. apply (Hc l o Hge Hl).
  - split; [apply preserved_refl|]. split; [exact Hc|]. intros o' [=].
Qed.

Lemma safe_store (n k : nat) (l : loc) (o : obj) :
  (n <= l)%nat -> Forall (inside n k) (obj_vals o) ->
  safe n k (store l o) (fun _ _ => True).
Proof.
  intros Hl Ho h Hn Hk Hc. unfold store. cbn [fst snd]. split; [|split].
  - split; [rewrite length_insert; lia|].
    intros l' Hl'. apply list_lookup_insert_ne. lia.
  - intros l' o' Hl' Hlook. rewrite length_insert.
    destruct (Nat.eq_dec l l') as [<-|Hne].
    + destruct (Nat.lt_ge_cases l (length h)) as [Hlt|Hge].
      * rewrite list_lookup_insert_eq in Hlook by exact Hlt.
        injection Hlook as <-. apply (insides_mono n k); [lia|exact Ho].
      * rewrite list_insert_ge in Hlook by exact Hge. apply (Hc l o' Hl Hlook).
    + rewrite list_lookup_insert_ne in Hlook by exact Hne.
      apply (Hc l' o' Hl' Hlook).
  - intros _ _. exact I.
Qed.

Lemma safe_mapM {A B} (n : nat) (f : A -> H B) (Q : nat -> B -> Prop)
    (l : list A) :
  (forall k1 k2 b, (k1 <= k2)%nat -> Q k1 b -> Q k2 b) ->
  forall k,
    (forall a k1, (k <= k1)%nat -> In a l -> safe n k1 (f a) Q) ->
    safe n k (mapM f l) (fun k' => Forall (Q k')).
Proof.
  intros Hmono. induction l as [|a l IH]; intros k Hf; cbn [mapM].
  - apply safe_ret. constructor.
  - eapply safe_bind; [apply Hf; [lia|left; reflexivity]|].
    intros b k1 Hk1 Hb.
    eapply safe_bind.
    { apply IH. intros a' k2 Hk2 Ha'. apply Hf; [lia|right; exact Ha']. }
    intros bs k2 Hk2 Hbs. apply safe_ret. intros k3 Hk3. constructor.
    + apply (Hmono k1); [lia|exact Hb].
    + revert Hbs. apply List.Forall_impl. intros b'. apply Hmono. exact Hk3.
Qed.

(** *** Dictionaries and lists in the store *)

Lemma dict_set_vals {A} (P : A -> Prop) (es : Grid.dict A) (k : string) (v : A) :
  Forall P (map snd es) -> P v -> Forall P (map snd (Grid.dict_set es k v)).
Proof.
  intros Hes Hv. induction es as [|[k' v'] es IH]; cbn [Grid.dict_set].
  - constructor; [exact Hv|constructor].
  - cbn [map snd] in Hes. inversion Hes as [|? ? Hv' Hes']; subst.
    destruct (String.eqb k' k); cbn [map snd]; constructor; auto.
Qed.

Lemma dict_del_vals {A} (P : A -> Prop) (es es' : Grid.dict A) (k : string) :
  Grid.dict_del es k = Some es' ->
  Forall P (map snd es) -> Forall P (map snd es').
Proof.
  revert es'. induction es as [|[k' v'] es IH]; intros es' Hdel Hes;
    cbn [Grid.dict_del] in Hdel; [discriminate|].
  cbn [map snd] in Hes. inversion Hes as [|? ? Hv' Hes']; subst.
  destruct (String.eqb k' k).
  - injection Hdel as <-. exact Hes'.
  - destruct (Grid.dict_del es k) as [es1|]; [|discriminate].
    injection Hdel as <-. cbn [map snd]. constructor; [exact Hv'|].
    apply IH; [reflexivity|exact Hes'].
Qed.

Lemma fold_set_vals {A} (P : A -> Prop) (kvs : list (string * A)) :
  forall acc : Grid.dict A,
    Forall P (map snd acc) -> Forall P (map snd kvs) ->
    Forall P (map snd (fold_left (fun f kv => Grid.dict_set f (fst kv) (snd kv))
                                 kvs acc)).
Proof.
  induction kvs as [|kv kvs IH]; intros acc Hacc Hkvs; cbn [fold_left];
    [exact Hacc|].
  cbn [map] in Hkvs. inversion Hkvs; subst.
  apply IH; [apply dict_set_vals; assumption|assumption].
Qed.

Lemma snd_combine_vals {A B} (P : B -> Prop) (l : list A) (l' : list B) :
  Forall P l' -> Forall P (map snd (combine l l')).
Proof.
  intros Hl'. revert l. induction Hl' as [|b l' Hb _ IH]; intros [|a l]; cbn;
    try constructor; auto.
Qed.

Lemma odict_zip_vals {A} (P : A -> Prop) (keys : list string) (c : list A) :
  Forall P c -> Forall P (map snd (Grid.odict_zip keys c)).
Proof.
  intros Hc. unfold Grid.odict_zip. apply fold_set_vals; [constructor|].
  apply snd_combine_vals. exact Hc.
Qed.

Lemma safe_load_list (n k : nat) (v : val) :
  inside n k v -> safe n k (load_list v) (fun k' => Forall (inside n k')).
Proof.
  intros Hv. destruct v as [| | | |l]; try apply safe_raise.
  cbn [load_list inside] in *. eapply safe_bind; [apply safe_load|].
  intros [items|es] k1 Hk1 Ho; [|apply safe_raise].
  apply safe_ret. intros k2 Hk2. cbn [obj_vals] in Ho.
  apply (insides_mono n k1); [lia|]. apply Ho. lia.
Qed.

Lemma safe_load_dict (n k : nat) (v : val) :
  inside n k v ->
  safe n k (load_dict v)
    (fun k' r => (n <= fst r)%nat /\ Forall (inside n k') (map snd (snd r))).
Proof.
  intros Hv. destruct v as [| | | |l]; try apply safe_raise.
  cbn [load_dict inside] in *. eapply safe_bind; [apply safe_load|].
  intros [items|es] k1 Hk1 Ho; [apply safe_raise|].
  apply safe_ret. intros k2 Hk2. cbn [fst snd obj_vals] in *.
  split; [lia|]. apply (insides_mono n k1); [lia|]. apply Ho. lia.
Qed.

Lemma safe_is_dict (n k : nat) (v : val) :
  inside n k v ->
  safe n k (is_dict v)
    (fun k' sub =>
       forall subs, sub = Some subs -> Forall (inside n k') (map snd subs)).
Proof.
  intros Hv h Hn Hk Hc. unfold is_dict. cbn [fst snd].
  split; [apply preserved_refl|]. split; [exact Hc|].
  intros sub [= <-] subs Hsub.
  destruct v as [| | | |l]; try discriminate.
  destruct (h !! l) as [[items|es]|] eqn:Hl; try discriminate.
  injection Hsub as <-. cbn [inside] in Hv.
  apply (Hc l (ODict es)); [lia|exact Hl].
Qed.

Lemma safe_dict_store (n k : nat) (l : loc) (key : string) (v : val) :
  (n <= l)%nat -> inside n k v ->
  safe n k (dict_store l key v) (fun _ _ => True).
Proof.
  intros Hl Hv. unfold dict_store. eapply safe_bind; [apply safe_load|].
  intros [items|es] k1 Hk1 Ho; [apply safe_raise|].
  apply safe_store; [exact Hl|]. cbn [obj_vals].
  apply dict_set_vals; [apply (Ho Hl)|mono].
Qed.

Lemma safe_dict_delete (n k : nat) (l : loc) (key : string) :
  (n <= l)%nat -> safe n k (dict_delete l key) (fun _ _ => True).
Proof.
  intros Hl. unfold dict_delete. eapply safe_bind; [apply safe_load|].
  intros [items|es] k1 Hk1 Ho; [apply safe_raise|].
  destruct (Grid.dict_del es key) as [es'|] eqn:Hdel; [|apply safe_raise].
  apply safe_store; [exact Hl|]. cbn [obj_vals].
  apply (dict_del_vals _ es es' key Hdel). apply (Ho Hl).
Qed.

(** *** deepcopy makes new objects only *)

Lemma memo_inside_mono (n k k' : nat) (m : memo) :
  (k <= k')%nat -> memo_inside n k m -> memo_inside n k' m.
Proof. intros Hk Hm l l' Hl. specialize (Hm l l' Hl). lia. Qed.

Lemma memo_inside_empty (n k : nat) : memo_inside n k ∅.
Proof. intros l l' Hl. rewrite lookup_empty in Hl. discriminate. Qed.

Lemma memo_inside_insert (n k : nat) (m : memo) (l l' : loc) :
  memo_inside n k m -> (n <= l' < k)%nat -> memo_inside n k (<[l := l']> m).
Proof.
  intros Hm Hl' j j' Hj. destruct (Nat.eq_dec l j) as [<-|Hne].
  - rewrite lookup_insert_eq in Hj. injection Hj as <-. exact Hl'.
  - rewrite lookup_insert_ne in Hj by exact Hne. apply (Hm j j' Hj).
Qed.

Lemma safe_copy_items (n : nat) (copy : memo -> val -> H (val * memo))
    (items : list val) :
  (forall m v k, memo_inside n k m ->
     safe n k (copy m v)
       (fun k' r => inside n k' (fst r) /\ memo_inside n k' (snd r))) ->
  forall m k, memo_inside n k m ->
    safe n k (copy_items copy m items)
      (fun k' r => Forall (inside n k') (fst r) /\ memo_inside n k' (snd r)).
Proof.
  intros Hcopy. induction items as [|v rest IH]; intros m k Hm;
    cbn [copy_items].
  - apply safe_ret. intros k' Hk'. split; [constructor|].
    apply (memo_inside_mono n k); assumption.
  - eapply safe_bind; [apply Hcopy; exact Hm|]. intros r k1 Hk1 [Hr1 Hr2].
    eapply safe_bind; [apply IH; exact Hr2|]. intros rs k2 Hk2 [Hrs1 Hrs2].
    apply safe_ret. intros k3 Hk3. cbn [fst snd]. split.
    + constructor; mono.
    + apply (memo_inside_mono n k2); assumption.
Qed.

Lemma safe_deepcopy_val (n : nat) (fuel : nat) :
  forall m v k, memo_inside n k m ->
    safe n k (deepcopy_val fuel m v)
      (fun k' r => inside n k' (fst r) /\ memo_inside n k' (snd r)).
Proof.
  assert (Hmemo : forall (m : memo) l l' k k',
             memo_inside n k m -> m !! l = Some l' -> (k <= k')%nat ->
             inside n k' (VRef l') /\ memo_inside n k' m).
  { intros m l l' k k' Hm Hl Hk. split.
    - specialize (Hm l l' Hl). cbn. lia.
    - apply (memo_inside_mono n k); assumption. }
  assert (Hval : forall (m : memo) v k k',
             memo_inside n k m -> (k <= k')%nat ->
             match v with VRef _ => False | _ => True end ->
             inside n k' v /\ memo_inside n k' m).
  { intros m v k k' Hm Hk Hv. split.
    - destruct v; cbn; tauto.
    - apply (memo_inside_mono n k); assumption. }
  induction fuel as [|fuel IH]; intros m v k Hm.
  - destruct v as [| | | |l]; cbn [deepcopy_val];
      try (apply safe_ret; intros k' Hk'; apply (Hval _ _ k); auto; exact I).
    destruct (m !! l) as [l'|] eqn:Hl; [|apply safe_raise].
    apply safe_ret. intros k' Hk'. apply (Hmemo m l l' k); assumption.
  - destruct v as [| | | |l]; cbn [deepcopy_val];
      try (apply safe_ret; intros k' Hk'; apply (Hval _ _ k); auto; exact I).
    destruct (m !! l) as [l'|] eqn:Hl.
    { apply safe_ret. intros k' Hk'. apply (Hmemo m l l' k); assumption. }
    eapply safe_bind; [apply safe_load|]. intros [items|es] k0 Hk0 _.
    + eapply safe_bind; [apply safe_alloc; constructor|]. intros l' k1 Hk1 Hl'.
      cbn beta in Hl'.
      eapply safe_bind.
      { apply (safe_copy_items n (deepcopy_val fuel) items IH).
        apply memo_inside_insert; [|exact Hl'].
        apply (memo_inside_mono n k); [lia|exact Hm]. }
      intros r k2 Hk2 [Hr1 Hr2].
      eapply safe_bind; [apply safe_store; [lia|exact Hr1]|].
      intros _ k3 Hk3 _. apply safe_ret. intros k4 Hk4. cbn [fst snd]. split.
      * cbn. lia.
      * apply (memo_inside_mono n k2); [lia|exact Hr2].
    + eapply safe_bind; [apply safe_alloc; constructor|]. intros l' k1 Hk1 Hl'.
      cbn beta in Hl'.
      eapply safe_bind.
      { apply (safe_copy_items n (deepcopy_val fuel) (map snd es) IH).
        apply memo_inside_insert; [|exact Hl'].
        apply (memo_inside_mono n k); [lia|exact Hm]. }
      intros r k2 Hk2 [Hr1 Hr2].
      eapply safe_bind.
      { apply safe_store; [lia|]. cbn [obj_vals].
        apply snd_combine_vals. exact Hr1. }
      intros _ k3 Hk3 _. apply safe_ret. intros k4 Hk4. cbn [fst snd]. split.
      * cbn. lia.
      * apply (memo_inside_mono n k2); [lia|exact Hr2].
Qed.

Lemma safe_deepcopy (n k : nat) (fuel : nat) (v : val) :
  safe n k (deepcopy fuel v) (inside n).
Proof.
  unfold deepcopy. eapply safe_bind.
  - apply safe_deepcopy_val. apply memo_inside_empty.
  - intros r k1 Hk1 [Hr _]. apply safe_ret. intros k2 Hk2. mono.
Qed.

(** *** flatten_list, transpose_list and the product *)

Lemma flat_mapE_vals (P : val -> Prop) (f : val -> exn + list val)
    (l r : list val) :
  (forall v r', In v l -> f v = inr r' -> Forall P r') ->
  flat_mapE f l = inr r -> Forall P r.
Proof.
  revert r. induction l as [|v l IH]; intros r Hf Hr; cbn [flat_mapE] in Hr.
  - injection Hr as <-. constructor.
  - destruct (f v) as [e|a] eqn:Hv; destruct (flat_mapE f l) as [e'|b] eqn:Hl;
      try discriminate.
    injection Hr as <-. apply List.Forall_app. split.
    + apply (Hf v a); [left; reflexivity|exact Hv].
    + apply IH; [|reflexivity]. intros w r' Hw. apply Hf. right. exact Hw.
Qed.

Lemma flatten_val_inside (n : nat) (h : heap) (fuel : nat) :
  closed n h ->
  forall v r, inside n (length h) v -> flatten_val fuel h v = inr r ->
    Forall (inside n (length h)) r.
Proof.
  intros Hc. induction fuel as [|fuel IH]; intros v r Hv Hr.
  - destruct v as [| | | |l]; cbn [flatten_val] in Hr;
      try (injection Hr as <-; constructor; [exact Hv|constructor]).
    destruct (h !! l) as [[items|es]|] eqn:Hl; try discriminate;
      injection Hr as <-; (constructor; [exact Hv|constructor]).
  - destruct v as [| | | |l]; cbn [flatten_val] in Hr;
      try (injection Hr as <-; constructor; [exact Hv|constructor]).
    destruct (h !! l) as [[items|es]|] eqn:Hl;
      try (injection Hr as <-; constructor; [exact Hv|constructor]).
    apply (flat_mapE_vals _ (flatten_val fuel h) items r); [|exact Hr].
    intros w r' Hin Hw. apply (IH w r'); [|exact Hw].
    assert (Hitems : Forall (inside n (length h)) items).
    { apply (Hc l (OList items)); [cbn [inside] in Hv; lia|exact Hl]. }
    rewrite List.Forall_forall in Hitems. apply Hitems, Hin.
Qed.

Lemma safe_flatten_list (n k fuel : nat) (comb : list val) :
  Forall (inside n k) comb ->
  safe n k (flatten_list fuel comb) (fun k' => Forall (inside n k')).
Proof.
  intros Hcomb h Hn Hk Hc. unfold flatten_list. cbn [fst snd].
  split; [apply preserved_refl|]. split; [exact Hc|].
  intros r Hr. apply (flat_mapE_vals _ (flatten_val fuel h) comb r); [|exact Hr].
  intros v r' Hin Hv. apply (flatten_val_inside n h fuel Hc v r'); [|exact Hv].
  apply (inside_mono n k); [exact Hk|].
  rewrite List.Forall_forall in Hcomb. apply Hcomb, Hin.
Qed.

Lemma heads_vals {A} (P : A -> Prop) (l : list (list A)) (hs : list A) :
  Forall (Forall P) l -> Grid.heads l = Some hs -> Forall P hs.
Proof.
  intros Hl. revert hs.
  induction Hl as [|x l Hx _ IH]; intros hs Hh; cbn [Grid.heads] in Hh.
  - injection Hh as <-. constructor.
  - destruct x as [|a x]; [discriminate|].
    destruct (Grid.heads l) as [hs'|]; [|discriminate].
    cbn in Hh. injection Hh as <-. inversion Hx; subst.
    constructor; [assumption|]. apply IH. reflexivity.
Qed.

Lemma tails_vals {A} (P : A -> Prop) (l : list (list A)) :
  Forall (Forall P) l -> Forall (Forall P) (map (@List.tl A) l).
Proof.
  intros Hl. induction Hl as [|x l Hx _ IH]; cbn [map]; constructor;
    [|exact IH].
  destruct Hx; cbn; [constructor|assumption].
Qed.

Lemma zip_star_vals {A} (P : A -> Prop) (fuel : nat) :
  forall l : list (list A),
    Forall (Forall P) l -> Forall (Forall P) (Grid.zip_star fuel l).
Proof.
  induction fuel as [|fuel IH]; intros l Hl; cbn [Grid.zip_star];
    [constructor|].
  destruct (Grid.heads l) as [hs|] eqn:Hh; [|constructor].
  constructor; [apply (heads_vals P l hs Hl Hh)|]. apply IH, tails_vals, Hl.
Qed.

Lemma transpose_list_vals {A} (P : A -> Prop) (l : list (list A)) :
  Forall (Forall P) l -> Forall (Forall P) (Grid.transpose_list l).
Proof.
  intros Hl. destruct l; cbn [Grid.transpose_list]; [constructor|].
  apply zip_star_vals, Hl.
Qed.

Lemma product_vals {A} (P : A -> Prop) (axes : list (list A)) :
  Forall (Forall P) axes -> Forall (Forall P) (Grid.product axes).
Proof.
  intros Ha. induction Ha as [|axis rest Hax _ IH]; cbn [Grid.product].
  - constructor; constructor.
  - apply List.Forall_forall. intros c Hc.
    apply List.in_flat_map in Hc. destruct Hc as (x & Hx & Hc).
    apply List.in_map_iff in Hc. destruct Hc as (c' & <- & Hc').
    rewrite List.Forall_forall in Hax, IH.
    constructor; [apply Hax, Hx|apply IH, Hc'].
Qed.

(** *** The loop over the parameters and the configurations *)

Lemma strs_inside (n k : nat) (l : list string) :
  Forall (inside n k) (map VStr l).
Proof. induction l; cbn [map]; constructor; [exact I|assumption]. Qed.

Lemma ints_inside (n k : nat) (l : list nat) :
  Forall (inside n k) (map (fun i => VInt (Z.of_nat i)) l).
Proof. induction l; cbn [map]; constructor; [exact I|assumption]. Qed.

Lemma lists_mono (n k k' : nat) (ls : list (list val)) :
  (k <= k')%nat ->
  Forall (Forall (inside n k)) ls -> Forall (Forall (inside n k')) ls.
Proof.
  intros Hk. apply List.Forall_impl. intros c. apply insides_mono, Hk.
Qed.

Lemma safe_load_lists (n k : nat) (vs : list val) :
  Forall (inside n k) vs ->
  safe n k (mapM load_list vs) (fun k' => Forall (Forall (inside n k'))).
Proof.
  intros Hvs. apply (safe_mapM n load_list (fun k' => Forall (inside n k'))).
  - intros k1 k2 b Hk. apply insides_mono, Hk.
  - intros a k1 Hk1 Ha. apply safe_load_list.
    apply (inside_mono n k); [exact Hk1|].
    rewrite List.Forall_forall in Hvs. apply Hvs, Ha.
Qed.

Lemma safe_rows (n k : nat) (rows : list (list val)) :
  Forall (Forall (inside n k)) rows ->
  safe n k (mapM (fun row => do l <- alloc (OList row); ret (VRef l)) rows)
    (fun k' => Forall (inside n k')).
Proof.
  intros Hrows. apply (safe_mapM n _ (inside n)).
  - intros k1 k2 b Hk. apply inside_mono, Hk.
  - intros row k1 Hk1 Hrow. eapply safe_bind.
    + apply safe_alloc. cbn [obj_vals]. apply (insides_mono n k); [exact Hk1|].
      rewrite List.Forall_forall in Hrows. apply Hrows, Hrow.
    + intros l k2 Hk2 Hl. cbn beta in Hl. apply safe_ret.
      intros k3 Hk3. cbn [inside]. lia.
Qed.

Lemma safe_composite_step (n k : nat) (ld lflat lcp : loc) (param : string)
    (subs : list (string * val)) (params : list string) :
  (n <= ld)%nat -> (n <= lflat)%nat -> (n <= lcp)%nat ->
  Forall (inside n k) (map snd subs) ->
  safe n k (composite_step ld lflat lcp param subs params) (fun _ _ => True).
Proof.
  intros Hld Hlflat Hlcp Hsubs. unfold composite_step.
  eapply safe_bind; [apply safe_load_lists; exact Hsubs|].
  intros cols k1 Hk1 Hcols. cbn beta in Hcols.
  destruct (map (@length val) cols) as [|len0 lens]; [apply safe_raise|].
  destruct (existsb _ _); [apply safe_raise|]. cbv zeta.
  eapply safe_bind; [apply safe_alloc; cbn [obj_vals]; apply strs_inside|].
  intros lkeys k2 Hk2 Hlkeys. cbn beta in Hlkeys.
  eapply safe_bind; [apply safe_dict_store; [exact Hlcp|cbn [inside]; lia]|].
  intros _ k3 Hk3 _.
  eapply safe_bind.
  { apply safe_rows. apply transpose_list_vals. apply List.Forall_app. split.
    - apply (lists_mono n k1); [lia|exact Hcols].
    - constructor; [apply ints_inside|constructor]. }
  intros rows k4 Hk4 Hrows. cbn beta in Hrows.
  eapply safe_bind; [apply safe_alloc; exact Hrows|].
  intros laxis k5 Hk5 Hlaxis. cbn beta in Hlaxis.
  eapply safe_bind; [apply safe_dict_store; [exact Hld|cbn [inside]; lia]|].
  intros _ k6 Hk6 _.
  eapply safe_bind.
  { apply (safe_mapM n _ (fun _ _ => True)).
    - intros; exact I.
    - intros kv k7 Hk7 Hkv. apply safe_dict_store; [exact Hlflat|].
      apply (inside_mono n k); [lia|].
      rewrite List.Forall_forall in Hsubs. apply Hsubs.
      apply List.in_map. exact Hkv. }
  intros _ k7 Hk7 _.
  eapply safe_bind; [apply safe_dict_delete; exact Hlflat|].
  intros _ k8 Hk8 _. apply safe_ret. intros; exact I.
Qed.

Lemma safe_for_items (n : nat) (ld lflat lcp : loc)
    (entries : list (string * val)) :
  (n <= ld)%nat -> (n <= lflat)%nat -> (n <= lcp)%nat ->
  forall k params, Forall (inside n k) (map snd entries) ->
    safe n k (for_items ld lflat lcp entries params) (fun _ _ => True).
Proof.
  intros Hld Hlflat Hlcp.
  induction entries as [|[param v] rest IH]; intros k params He;
    cbn [for_items].
  - apply safe_ret. intros; exact I.
  - cbn [map snd] in He. inversion He as [|? ? Hv Hrest]; subst.
    eapply safe_bind; [apply safe_is_dict; exact Hv|].
    intros [subs|] k1 Hk1 Hsub; cbn beta in Hsub.
    + eapply safe_bind.
      { apply safe_composite_step; try assumption. apply Hsub. reflexivity. }
      intros params' k2 Hk2 _. apply IH. mono.
    + apply IH. mono.
Qed.

Lemma safe_make_comb (n k fuel : nat) (params : list string)
    (comb : list val) :
  Forall (inside n k) comb ->
  safe n k (make_comb fuel params comb) (inside n).
Proof.
  intros Hcomb. unfold make_comb.
  eapply safe_bind; [apply safe_flatten_list; exact Hcomb|].
  intros c k1 Hk1 Hc. cbn beta in Hc.
  eapply safe_bind.
  { apply safe_alloc. cbn [obj_vals]. apply odict_zip_vals. exact Hc. }
  intros l k2 Hk2 Hl. cbn beta in Hl. apply safe_ret.
  intros k3 Hk3. cbn [inside]. lia.
Qed.

Lemma safe_expand (n k fuel : nat) (param_grid : val) :
  safe n k (expand fuel param_grid)
    (fun k' r => inside n k' (combs r) /\ inside n k' (param_grid_flat r) /\
                 inside n k' (composite_params r)).
Proof.
  unfold expand.
  eapply safe_bind; [apply safe_deepcopy|]. intros d k1 Hk1 Hd.
  eapply safe_bind; [apply safe_deepcopy|]. intros flat k2 Hk2 Hflat.
  eapply safe_bind; [apply safe_alloc; constructor|].
  intros lcp k3 Hk3 Hlcp. cbn beta in Hlcp.
  eapply safe_bind; [apply safe_load_dict; mono|].
  intros ld k4 Hk4 [Hld1 Hld2].
  eapply safe_bind; [apply safe_load_dict; mono|].
  intros lflat k5 Hk5 [Hlf1 Hlf2].
  eapply safe_bind; [apply safe_for_items; try assumption; [lia|mono]|].
  intros params k6 Hk6 _.
  eapply safe_bind; [apply safe_load_dict; mono|].
  intros ld' k7 Hk7 [Hld1' Hld2'].
  eapply safe_bind; [apply safe_load_lists; exact Hld2'|].
  intros axes k8 Hk8 Haxes. cbn beta in Haxes.
  eapply safe_bind.
  { apply (safe_mapM n (make_comb fuel params) (inside n)).
    - intros ka kb b Hk. apply inside_mono, Hk.
    - intros comb ka Hka Hcomb. apply safe_make_comb.
      pose proof (product_vals _ axes Haxes) as Hp.
      rewrite List.Forall_forall in Hp.
      apply (insides_mono n k8); [lia|apply Hp, Hcomb]. }
  intros cfgs k9 Hk9 Hcfgs. cbn beta in Hcfgs.
  eapply safe_bind; [apply safe_alloc; exact Hcfgs|].
  intros lcombs k10 Hk10 Hlc. cbn beta in Hlc.
  apply safe_ret. intros k11 Hk11.
  cbn [combs param_grid_flat composite_params]. split; [|split].
  - cbn [inside]. lia.
  - mono.
  - cbn [inside]. lia.
Qed.

(** *** The additional parameters *)

Lemma merged_refl (extra cfl : list val) (h : heap) : merged extra cfl h h.
Proof. split; [reflexivity|]. intros l. left. reflexivity. Qed.

Lemma merged_trans (extra cfl : list val) (h1 h2 h3 : heap) :
  merged extra cfl h1 h2 -> merged extra cfl h2 h3 -> merged extra cfl h1 h3.
Proof.
  intros [L1 M1] [L2 M2]. split; [congruence|]. intros l.
  destruct (M1 l) as [E1|(Hin & es & es' & Ha & Hb & Hv)];
    destruct (M2 l) as [E2|(Hin2 & fs & fs' & Hc & Hd & Hw)].
  - left. congruence.
  - right. split; [exact Hin2|]. exists fs, fs'. rewrite <- E1. auto.
  - right. split; [exact Hin|]. exists es, es'. rewrite E2. auto.
  - right. split; [exact Hin|]. rewrite Hb in Hc. injection Hc as <-.
    exists es, fs'. split; [exact Ha|]. split; [exact Hd|].
    intros v Hv'. destruct (Hw v Hv') as [Hold|Hnew];
      [apply Hv, Hold|right; exact Hnew].
Qed.

Lemma merging_ret {A} (extra cfl : list val) (a : A) :
  merging extra cfl (ret a).
Proof. intros h. apply merged_refl. Qed.

Lemma merging_raise {A} (extra cfl : list val) (e : exn) :
  merging extra cfl (@raise A e).
Proof. intros h. apply merged_refl. Qed.

Lemma merging_bind {A B} (extra cfl : list val) (m : H A) (f : A -> H B) :
  merging extra cfl m -> (forall a, merging extra cfl (f a)) ->
  merging extra cfl (bind m f).
Proof.
  intros Hm Hf h. specialize (Hm h). unfold bind.
  destruct (m h) as [h1 [e|a]]; cbn [fst] in *; [exact Hm|].
  apply (merged_trans _ _ h h1); [exact Hm|apply Hf].
Qed.

Lemma merging_mapM {A B} (extra cfl : list val) (f : A -> H B) (l : list A) :
  (forall a, In a l -> merging extra cfl (f a)) ->
  merging extra cfl (mapM f l).
Proof.
  induction l as [|a l IH]; intros Hf; cbn [mapM]; [apply merging_ret|].
  apply merging_bind; [apply Hf; left; reflexivity|]. intros b.
  apply merging_bind; [apply IH; intros a' Ha'; apply Hf; right; exact Ha'|].
  intros bs. apply merging_ret.
Qed.

Lemma merging_load (extra cfl : list val) (l : loc) :
  merging extra cfl (load l).
Proof. intros h. unfold load. destruct (h !! l); apply merged_refl. Qed.

Lemma merging_load_dict (extra cfl : list val) (v : val) :
  merging extra cfl (load_dict v).
Proof.
  destruct v as [| | | |l]; try apply merging_raise. cbn [load_dict].
  apply merging_bind; [apply merging_load|].
  intros [items|es]; [apply merging_raise|apply merging_ret].
Qed.

Lemma merging_add_param (extra cfl : list val) (param : string)
    (v comb : val) :
  In v extra -> In comb cfl -> merging extra cfl (add_param param v comb).
Proof.
  intros Hv Hcomb h. unfold add_param, load_dict.
  destruct comb as [| | | |l]; try apply merged_refl.
  unfold bind, load. destruct (h !! l) as [[items|es]|] eqn:Hl;
    try apply merged_refl.
  unfold ret. cbn [fst snd].
  destruct (Grid.dict_has es param); [apply merged_refl|].
  unfold store. cbn [fst]. split; [apply length_insert|]. intros l'.
  destruct (Nat.eq_dec l l') as [<-|Hne].
  - right. split; [exact Hcomb|].
    exists es, (Grid.dict_set es param v). split; [exact Hl|]. split.
    + apply list_lookup_insert_eq. apply lookup_lt_Some in Hl. exact Hl.
    + assert (Hall : Forall (fun w => In w (map snd es) \/ In w extra)
                            (map snd (Grid.dict_set es param v))).
      { apply dict_set_vals; [|right; exact Hv].
        apply List.Forall_forall. intros w Hw. left. exact Hw. }
      rewrite List.Forall_forall in Hall. exact Hall.
  - left. apply list_lookup_insert_ne. exact Hne.
Qed.

(** [add_all] changes nothing but the configurations of [combs_full],
    into which it merges values of [add_params] as they are. *)
Lemma add_all_merged (h : heap) (add_params full : val) :
  merged (items_of h add_params) (list_of h full) h
         (fst (add_all add_params full h)).
Proof.
  assert (Hbody : forall es items,
            merging (map snd es) items
              (do _ <- mapM (fun kv =>
                              mapM (add_param (fst kv) (snd kv)) items) es;
               ret tt)).
  { intros es items. apply merging_bind; [|intros; apply merging_ret].
    apply merging_mapM. intros kv Hkv. apply merging_mapM. intros comb Hcomb.
    apply merging_add_param; [|exact Hcomb]. apply List.in_map. exact Hkv. }
  unfold add_all.
  destruct add_params as [| | | |la]; try apply merged_refl.
  unfold load_dict, load_list, items_of, list_of.
  unfold bind at 1 2. unfold load at 1.
  destruct (h !! la) as [[aitems|es]|] eqn:Hla; try apply merged_refl.
  unfold ret at 1. cbn [snd fst].
  destruct full as [| | | |lf]; try apply merged_refl.
  unfold bind at 1 2. unfold load at 1.
  destruct (h !! lf) as [[items|fs]|] eqn:Hlf; try apply merged_refl.
  unfold ret at 1. cbn [obj_vals]. apply Hbody.
Qed.

(** *** What the caller sees *)

Lemma list_of_inside (n : nat) (h : heap) (v : val) :
  closed n h -> inside n (length h) v ->
  Forall (inside n (length h)) (list_of h v).
Proof.
  intros Hc Hv. destruct v as [| | | |l]; cbn [list_of]; try constructor.
  destruct (h !! l) as [[items|es]|] eqn:Hl; try constructor.
  apply (Hc l (OList items)); [cbn [inside] in Hv; lia|exact Hl].
Qed.

Lemma items_of_inside (n : nat) (h : heap) (v : val) :
  closed n h -> inside n (length h) v ->
  Forall (inside n (length h)) (items_of h v).
Proof.
  intros Hc Hv. destruct v as [| | | |l]; cbn [items_of]; try constructor.
  destruct (h !! l) as [o|] eqn:Hl; try constructor.
  apply (Hc l o); [cbn [inside] in Hv; lia|exact Hl].
Qed.

Lemma preserved_list (m n : nat) (h h' : heap) (v : val) :
  preserved n h h' -> inside m n v -> list_of h' v = list_of h v.
Proof.
  intros [_ P] Hv. destruct v as [| | | |l]; try reflexivity.
  cbn [list_of inside] in *. rewrite P by lia. reflexivity.
Qed.

Lemma preserved_items (m n : nat) (h h' : heap) (v : val) :
  preserved n h h' -> inside m n v -> items_of h' v = items_of h v.
Proof.
  intros [_ P] Hv. destruct v as [| | | |l]; try reflexivity.
  cbn [items_of inside] in *. rewrite P by lia. reflexivity.
Qed.

Lemma merged_old (extra cfl : list val) (h h' : heap) (n k : nat) (l : loc) :
  merged extra cfl h h' -> Forall (inside n k) cfl -> (l < n)%nat ->
  h' !! l = h !! l.
Proof.
  intros [_ M] Hcfl Hl. destruct (M l) as [E|[Hin _]]; [exact E|].
  rewrite List.Forall_forall in Hcfl. specialize (Hcfl _ Hin).
  cbn [inside] in Hcfl. lia.
Qed.

Lemma merged_list (extra cfl : list val) (h h' : heap) (v : val) :
  merged extra cfl h h' -> list_of h' v = list_of h v.
Proof.
  intros [_ M]. destruct v as [| | | |l]; try reflexivity. cbn [list_of].
  destruct (M l) as [E|(_ & es & es' & Ha & Hb & _)].
  - rewrite E. reflexivity.
  - rewrite Ha, Hb. reflexivity.
Qed.

Lemma insides_fresh (n n' k : nat) (vs : list val) :
  (n <= n')%nat -> Forall (inside n' k) vs -> Forall (fresh n) vs.
Proof.
  intros Hn. apply List.Forall_impl. intros v. apply inside_fresh, Hn.
Qed.

(** C10, as the code has it.  Whatever the grid and the additional
    parameters, and also when the function raises, every object the
    caller had is after the call what it was before: [param_grid] and
    [add_params] are never written to.  When the function returns, the
    four results are objects made by the call; every configuration of
    [combs] is such an object and holds nothing of the caller's; every
    configuration of [combs_full] is such an object too, and a value it
    holds is either not an object of the caller or one of the values of
    [add_params], stored as it is and not copied. *)
Theorem grid_combinations_frame (fuel : nat) (h : heap)
    (param_grid add_params : val) :
  known h add_params ->
  let out := grid_combinations fuel param_grid add_params h in
  preserved (length h) h (fst out) /\
  forall res, snd out = inr res ->
    (fresh (length h) (combs res) /\ fresh (length h) (combs_full res) /\
     fresh (length h) (param_grid_flat res) /\
     fresh (length h) (composite_params res)) /\
    (forall c, In c (list_of (fst out) (combs res)) ->
       fresh (length h) c /\
       Forall (fresh (length h)) (items_of (fst out) c)) /\
    (forall c, In c (list_of (fst out) (combs_full res)) ->
       fresh (length h) c /\
       forall v, In v (items_of (fst out) c) ->
         fresh (length h) v \/ In v (items_of h add_params)).
Proof.
  intros Hap out.
  assert (Hout : out = grid_combinations fuel param_grid add_params h)
    by reflexivity.
  clearbody out. unfold grid_combinations, bind in Hout.
  destruct (safe_expand (length h) (length h) fuel param_grid h
              (le_n _) (le_n _) (closed_start h)) as (P6 & C6 & Q6).
  destruct (expand fuel param_grid h) as [h6 [e|r]]; cbn [fst snd] in *.
  { subst out. split; [exact P6|]. intros res [=]. }
  destruct (Q6 r eq_refl) as (Hcombs & Hflat & Hcp). clear Q6.
  assert (L6 : (length h <= length h6)%nat) by (destruct P6; assumption).
  destruct (safe_deepcopy (length h) (length h6) fuel (combs r) h6
              L6 (le_n _) C6) as (P7 & C7 & Q7).
  destruct (safe_deepcopy (length h6) (length h6) fuel (combs r) h6
              (le_n _) (le_n _) (closed_start h6)) as (P7' & C7' & Q7').
  destruct (deepcopy fuel (combs r) h6) as [h7 [e|full]]; cbn [fst snd] in *.
  { subst out. split; [apply (preserved_trans _ _ h6); assumption|].
    intros res [=]. }
  specialize (Q7 full eq_refl). specialize (Q7' full eq_refl).
  assert (L7 : (length h6 <= length h7)%nat) by (destruct P7; assumption).
  assert (P07 : preserved (length h) h h7)
    by (apply (preserved_trans _ _ h6); assumption).
  assert (Hcfl : Forall (inside (length h6) (length h7)) (list_of h7 full))
    by (apply list_of_inside; assumption).
  pose proof (add_all_merged h7 add_params full) as M8.
  assert (P8 : preserved (length h) h (fst (add_all add_params full h7))).
  { split.
    - destruct M8 as [L8 _]. rewrite L8. lia.
    - intros l Hl.
      rewrite (merged_old _ _ h7 _ (length h6) (length h7) l M8 Hcfl) by lia.
      destruct P07 as [_ P07]. apply P07, Hl. }
  destruct (add_all add_params full h7) as [h8 [e|u]]; cbn [fst snd] in *.
  { subst out. split; [exact P8|]. intros res [=]. }
  unfold ret in Hout. subst out. cbn [fst snd].
  split; [exact P8|]. intros res [= <-].
  cbn [combs combs_full param_grid_flat composite_params].
  split; [|split].
  - split; [apply (inside_fresh _ (length h) (length h6)); [lia|exact Hcombs]|].
    split; [apply (inside_fresh _ (length h6) (length h7)); [lia|exact Q7']|].
    split; [apply (inside_fresh _ (length h) (length h6)); [lia|exact Hflat]|].
    apply (inside_fresh _ (length h) (length h6)); [lia|exact Hcp].
  - intros c Hc. rewrite (merged_list _ _ h7 h8 _ M8) in Hc.
    rewrite (preserved_list (length h) (length h6) h6 h7 _ P7' Hcombs) in Hc.
    pose proof (list_of_inside _ h6 _ C6 Hcombs) as Hitems.
    rewrite List.Forall_forall in Hitems. specialize (Hitems c Hc).
    split; [apply (inside_fresh _ (length h) (length h6)); [lia|exact Hitems]|].
    assert (E : items_of h8 c = items_of h6 c).
    { rewrite <- (preserved_items (length h) (length h6) h6 h7 c P7' Hitems).
      destruct c as [| | | |l]; try reflexivity. cbn [items_of inside] in *.
      rewrite (merged_old _ _ h7 h8 (length h6) (length h7) l M8 Hcfl) by lia.
      reflexivity. }
    rewrite E. apply (insides_fresh _ (length h) (length h6)); [lia|].
    apply items_of_inside; assumption.
  - intros c Hc. rewrite (merged_list _ _ h7 h8 _ M8) in Hc.
    rewrite List.Forall_forall in Hcfl. pose proof (Hcfl c Hc) as Hin.
    split; [apply (inside_fresh _ (length h6) (length h7)); [lia|exact Hin]|].
    intros v Hv. destruct c as [| | | |l]; try (destruct Hv).
    cbn [items_of inside] in *. destruct M8 as [_ M].
    destruct (M l) as [E|(_ & es & es' & Ha & Hb & Hw)].
    + left. rewrite E in Hv. destruct (h7 !! l) as [o|] eqn:Hl; [|destruct Hv].
      pose proof (C7' l o (proj1 Hin) Hl) as Ho.
      rewrite List.Forall_forall in Ho.
      apply (inside_fresh _ (length h6) (length h7)); [lia|apply Ho, Hv].
    + rewrite Hb in Hv. cbn [obj_vals] in Hv.
      destruct (Hw v Hv) as [Hold|Hnew].
      * left. pose proof (C7' l (ODict es) (proj1 Hin) Ha) as Ho.
        rewrite List.Forall_forall in Ho.
        apply (inside_fresh _ (length h6) (length h7)); [lia|apply Ho, Hold].
      * right.
        rewrite <- (preserved_items 0 (length h) h h7 add_params P07);
          [exact Hnew|].
        destruct add_params; cbn [known inside] in *; try exact I. lia.
Qed.

(** The theorem at the test configuration: the grid
    [{"mp_physics": [5, 2]}] and the additional parameters with the
    dictionary of output streams. *)
Lemma grid_combinations_frame_witness :
  known sample_heap (VRef 3%nat) /\
  let out := grid_combinations 5 (VRef 1%nat) (VRef 3%nat) sample_heap in
  preserved (length sample_heap) sample_heap (fst out) /\
  forall res, snd out = inr res ->
    (fresh (length sample_heap) (combs res) /\
     fresh (length sample_heap) (combs_full res) /\
     fresh (length sample_heap) (param_grid_flat res) /\
     fresh (length sample_heap) (composite_params res)) /\
    (forall c, In c (list_of (fst out) (combs res)) ->
       fresh (length sample_heap) c /\
       Forall (fresh (length sample_heap)) (items_of (fst out) c)) /\
    (forall c, In c (list_of (fst out) (combs_full res)) ->
       fresh (length sample_heap) c /\
       forall v, In v (items_of (fst out) c) ->
         fresh (length sample_heap) v \/
         In v (items_of sample_heap (VRef 3%nat))).
Proof.
  split; [cbn; lia|].
  apply (grid_combinations_frame 5 sample_heap (VRef 1%nat) (VRef 3%nat)).
  cbn. lia.
Defined.

(** C10 as the specification words it fails for the configurations of
    [combs_full].  At the test configuration the call returns, and the
    first configuration of [combs_full] holds under [output_streams] the
    very dictionary the caller has in [add_params] (object 2 of the
    store, older than the call): line 194 stores the value, it does not
    copy it. *)
Lemma add_params_value_is_shared :
  let out := grid_combinations 5 (VRef 1%nat) (VRef 3%nat) sample_heap in
  let res := {| combs := VRef 11%nat; combs_full := VRef 12%nat;
                param_grid_flat := VRef 6%nat;
                composite_params := VRef 8%nat |} in
  snd out = inr res /\
  In (VRef 13%nat) (list_of (fst out) (combs_full res)) /\
  In (VRef 2%nat) (items_of (fst out) (VRef 13%nat)) /\
  In (VRef 2%nat) (items_of sample_heap (VRef 3%nat)) /\
  ~ fresh (length sample_heap) (VRef 2%nat).
Proof.
  cbv zeta. split; [vm_compute; reflexivity|].
  split; [vm_compute; auto|]. split; [vm_compute; auto|].
  split; [vm_compute; auto|]. cbn. lia.
Qed.

End GridHeapSpec.

(** * Further properties of the helper functions *)

(** ** misc_tools.find_nproc: the load of a processor *)

Module NprocMore.
Import Nproc.



(** X2: with [min_n_per_proc = 0] and a positive [n] no value is
    returned: the floor division of line 57 raises [ZeroDivisionError],
    and with an even split the search stops at [d = 0] (numpy's [n % 0]
    is 0) and [int(n/d)] raises [OverflowError]. *)
Theorem find_nproc_zero_min (n : Z) :
  0 < n ->
  find_nproc n 0 false = Raise ZeroDivisionError /\
  find_nproc n 0 true = Raise OverflowError.
Proof.
  intros Hn. unfold find_nproc.
  destruct (Z.leb_spec n 0) as [Hle|_]; [lia|]. split; [reflexivity|].
  unfold arange. replace (Z.to_nat (n + 1 - 0)) with (S (Z.to_nat n)) by lia.
  cbn [arange_from first_divisor]. unfold np_mod at 1. cbn [Z.eqb].
  unfold int_quotient. cbn [Z.eqb].
  destruct (Z.eqb_spec n 0) as [|_]; [lia|reflexivity].
Qed.

Lemma find_nproc_zero_min_witness :
  find_nproc 50 0 false = Raise ZeroDivisionError /\
  find_nproc 50 0 true = Raise OverflowError.
Proof. apply (find_nproc_zero_min 50). lia. Defined.

End NprocMore.

(** ** misc_tools.format_timedelta *)

Module TimedeltaMore.
Import Pool.



End TimedeltaMore.

(** ** misc_tools.transpose_list and misc_tools.flatten_list *)

Module ListToolsMore.
Import Grid.

Lemma heads_values {A} (d : A) (l : list (list A)) (hs : list A) :
  heads l = Some hs -> hs = map (fun r => nth 0 r d) l.
Proof.
  revert hs. induction l as [|r l IH]; intros hs Hh; cbn [heads] in Hh.
  - injection Hh as <-. reflexivity.
  - destruct r as [|x r]; [discriminate|].
    destruct (heads l) as [hs'|]; [|discriminate]. cbn in Hh.
    injection Hh as <-. rewrite (IH hs' eq_refl). reflexivity.
Qed.

Lemma heads_Some {A} (l : list (list A)) (hs : list A) :
  heads l = Some hs -> Forall (fun r => (0 < length r)%nat) l.
Proof.
  revert hs. induction l as [|r l IH]; intros hs Hh; cbn [heads] in Hh.
  - constructor.
  - destruct r as [|x r]; [discriminate|].
    destruct (heads l) as [hs'|]; [|discriminate].
    constructor; [cbn; lia|apply (IH hs' eq_refl)].
Qed.

Lemma heads_None {A} (l : list (list A)) :
  heads l = None -> ~ Forall (fun r => (0 < length r)%nat) l.
Proof.
  induction l as [|r l IH]; intros Hh Hall; cbn [heads] in Hh; [discriminate|].
  inversion Hall as [|? ? Hr Hl]; subst.
  destruct r as [|x r]; [cbn in Hr; lia|].
  destruct (heads l) as [hs'|]; [discriminate|].
  apply IH; [reflexivity|exact Hl].
Qed.

Lemma tails_longer {A} (i : nat) (l : list (list A)) :
  Forall (fun r => (i < length r)%nat) (map (@List.tl A) l) <->
  Forall (fun r => (S i < length r)%nat) l.
Proof.
  rewrite List.Forall_map.
  split; apply List.Forall_impl; intros [|x r]; cbn; lia.
Qed.

Lemma longer_nonempty {A} (i : nat) (l : list (list A)) :
  Forall (fun r => (i < length r)%nat) l ->
  Forall (fun r => (0 < length r)%nat) l.
Proof. apply List.Forall_impl. intros r. lia. Qed.

Lemma zip_star_length {A} (fuel : nat) :
  forall (l : list (list A)) (i : nat),
    (i < length (zip_star fuel l))%nat <->
    (i < fuel)%nat /\ Forall (fun r => (i < length r)%nat) l.
Proof.
  induction fuel as [|fuel IH]; intros l i; cbn [zip_star].
  - cbn. lia.
  - destruct (heads l) as [hs|] eqn:Hh.
    + pose proof (heads_Some l hs Hh) as Hne. cbn [length].
      destruct i as [|i].
      * split; [intros _; split; [lia|exact Hne]|intros _; lia].
      * rewrite <- tails_longer. specialize (IH (map (@List.tl A) l) i).
        split.
        -- intros Hi.
           assert (Hi' : (i < length (zip_star fuel (map (@List.tl A) l)))%nat)
             by lia.
           apply IH in Hi'. split; [lia|apply Hi'].
        -- intros [Hi Hall].
           assert (Hi' : (i < length (zip_star fuel (map (@List.tl A) l)))%nat)
             by (apply IH; split; [lia|exact Hall]).
           lia.
    + cbn [length]. split; [lia|]. intros [_ Hall].
      exfalso. apply (heads_None l Hh). apply (longer_nonempty i). exact Hall.
Qed.

Lemma zip_star_row {A} (d : A) (fuel : nat) :
  forall (l : list (list A)) (i : nat),
    (i < length (zip_star fuel l))%nat ->
    nth i (zip_star fuel l) [] = map (fun r => nth i r d) l.
Proof.
  induction fuel as [|fuel IH]; intros l i; cbn [zip_star].
  - cbn. lia.
  - destruct (heads l) as [hs|] eqn:Hh; [|cbn; lia].
    cbn [length]. destruct i as [|i]; intros Hi.
    + cbn [nth]. apply (heads_values d l hs Hh).
    + cbn [nth]. rewrite IH by lia. rewrite map_map.
      apply map_ext. intros [|x r]; [destruct i|]; reflexivity.
Qed.

(** X4: [transpose_list] cuts the lists to the shortest of them, as
    [zip] does: the result has a row [i] exactly when the input is not
    empty and every input list has an element [i]; and row [i] holds, in
    the order of the input lists, their elements at [i], so it is as long
    as the input. *)
Theorem transpose_list_rows {A} (d : A) (l : list (list A)) :
  (forall i, (i < length (transpose_list l))%nat <->
             l <> [] /\ Forall (fun r => (i < length r)%nat) l) /\
  (forall i, (i < length (transpose_list l))%nat ->
             nth i (transpose_list l) [] = map (fun r => nth i r d) l).
Proof.
  unfold transpose_list. destruct l as [|x l].
  - split; [|cbn; lia]. intros i. cbn. split; [lia|]. intros [H _].
    contradiction.
  - split.
    + intros i. rewrite zip_star_length. split.
      * intros [_ Hall]. split; [discriminate|exact Hall].
      * intros [_ Hall]. split; [|exact Hall].
        inversion Hall; assumption.
    + intros i. apply zip_star_row.
Qed.

Lemma nth_seq_all {A} (d : A) (l : list A) :
  map (fun i => nth i l d) (seq 0 (length l)) = l.
Proof.
  induction l as [|x l IH]; [reflexivity|].
  cbn [length seq map nth]. f_equal.
  rewrite <- seq_shift, map_map. exact IH.
Qed.

Lemma transpose_twice {A} (d : A) (n : nat) (l : list (list A)) :
  l <> [] -> (0 < n)%nat -> Forall (fun r => length r = n) l ->
  transpose_list (transpose_list l) = l.
Proof.
  intros Hne Hn Hall.
  rewrite (GridSpec.transpose_list_even d n l Hne Hall).
  set (T := map (fun i => map (fun c => nth i c d) l) (seq 0 n)).
  assert (HT : T <> []).
  { subst T. destruct n; [lia|]. discriminate. }
  assert (HTall : Forall (fun r => length r = length l) T).
  { subst T. apply List.Forall_forall. intros r Hr.
    apply List.in_map_iff in Hr. destruct Hr as (i & <- & _).
    apply length_map. }
  rewrite (GridSpec.transpose_list_even d (length l) T HT HTall).
  transitivity (map (fun j => nth j l []) (seq 0 (length l)));
    [|apply nth_seq_all].
  apply map_ext_in. intros j Hj. apply in_seq in Hj.
  subst T. rewrite map_map.
  assert (Hrow : length (nth j l []) = n).
  { rewrite List.Forall_forall in Hall. apply Hall. apply nth_In. lia. }
  transitivity (map (fun i => nth i (nth j l []) d) (seq 0 n));
    [|rewrite <- Hrow; apply nth_seq_all].
  apply map_ext_in. intros i Hi.
  rewrite (nth_indep _ d ((fun c : list A => nth i c d) []))
    by (rewrite length_map; lia).
  exact (map_nth (fun c : list A => nth i c d) l [] j).
Qed.

(** X5: on a matrix (a non-empty list of lists of one length [n > 0])
    transposing twice gives the matrix back. *)
Theorem transpose_list_involutive {A} (n : nat) (l : list (list A)) :
  l <> [] -> (0 < n)%nat -> Forall (fun r => length r = n) l ->
  transpose_list (transpose_list l) = l.
Proof.
  intros Hne Hn Hall. destruct l as [|[|x r] l0] eqn:El; [contradiction| |].
  - inversion Hall as [|? ? Hr _]; subst. cbn in Hn. lia.
  - apply (transpose_twice x n); assumption.
Qed.

Lemma transpose_list_involutive_witness :
  transpose_list (transpose_list [[1; 2; 3]; [4; 5; 6]]%Z)
    = [[1; 2; 3]; [4; 5; 6]]%Z.
Proof.
  apply (transpose_list_involutive 3); [discriminate|lia|].
  repeat constructor.
Defined.

Lemma flatten_list_atoms (vs : list scalar) :
  flatten_list (map Atom vs) = vs.
Proof.
  unfold flatten_list. induction vs as [|v vs IH]; [reflexivity|].
  cbn. f_equal. exact IH.
Qed.

(** X6: [flatten_list] returns the values of a nested list in their
    order: a list without nesting is returned as it is, an item that is
    itself a list counts as its items spliced in, and flattening the
    result again changes nothing. *)
Theorem flatten_list_spliced (l1 l l2 : list item) (vs : list scalar) :
  flatten_list (map Atom vs) = vs /\
  flatten_list (l1 ++ Seq l :: l2) =
    (flatten_list l1 ++ flatten_list l ++ flatten_list l2)%list /\
  flatten_list (map Atom (flatten_list l)) = flatten_list l.
Proof.
  split; [apply flatten_list_atoms|]. split; [|apply flatten_list_atoms].
  unfold flatten_list. rewrite flat_map_app. reflexivity.
Qed.

End ListToolsMore.

(** ** More on misc_tools.prepare_restart *)

Module RestartMore.
Import Restart.

Local Open Scope string_scope.

Lemma append_cancel_l (s a b : string) : s ++ a = s ++ b -> a = b.
Proof.
  induction s as [|c s IH]; cbn; [tauto|]. intros [= E]. exact (IH E).
Qed.



Lemma rst_name_inj (outpath fname : string) (i j : nat) :
  rst_name outpath fname i = rst_name outpath fname j -> i = j.
Proof.
  unfold rst_name. intros E.
  apply append_cancel_l in E. apply (append_cancel_l "/rst/") in E.
  apply append_cancel_l in E. apply (append_cancel_l "_rst_") in E.
  exact (pretty_nat_inj _ _ E).
Qed.

Lemma find_seq_first (p : nat -> bool) (n : nat) : forall a i,
  List.find p (seq a n) = Some i ->
  p i = true /\ (a <= i)%nat /\ forall j, (a <= j < i)%nat -> p j = false.
Proof.
  induction n as [|n IH]; intros a i; cbn [seq List.find]; [discriminate|].
  destruct (p a) eqn:Ha.
  - intros [= <-]. split; [exact Ha|]. split; [lia|]. intros j Hj. lia.
  - intros E. destruct (IH _ _ E) as (Hi & Hle & Hmin).
    split; [exact Hi|]. split; [lia|]. intros j Hj.
    destruct (Nat.eq_dec j a) as [->|Hne]; [exact Ha|]. apply Hmin. lia.
Qed.

Lemma find_seq_none (p : nat -> bool) (n a : nat) :
  List.find p (seq a n) = None ->
  forall j, (a <= j < a + n)%nat -> p j = false.
Proof.
  intros E j Hj. apply (find_none p (seq a n) E). apply in_seq. lia.
Qed.

(** Among the backup names of one file only [size fs] can be taken. *)
Lemma backup_names_bounded (fs : gset string) (outpath fname : string) (n : nat) :
  (forall j, (j < n)%nat -> rst_name outpath fname j ∈ fs) -> (n <= size fs)%nat.
Proof.
  intros Hall.
  set (names := rst_name outpath fname <$> seq 0 n).
  assert (Hnd : NoDup names).
  { apply NoDup_fmap_2_strong; [|apply NoDup_seq].
    intros i j _ _. apply rst_name_inj. }
  assert (Hsz : size (list_to_set names : gset string) = n).
  { rewrite (size_list_to_set names Hnd). unfold names.
    rewrite length_fmap. apply length_seq. }
  rewrite <- Hsz. apply subseteq_size.
  intros x Hx. apply elem_of_list_to_set in Hx. unfold names in Hx.
  apply list_elem_of_fmap in Hx as (j & -> & Hj).
  apply elem_of_seq in Hj. apply Hall. lia.
Qed.

Lemma first_free_spec (fs : gset string) (outpath fname : string) :
  exists i, first_free fs outpath fname = Some i /\
            (rst_name outpath fname i ∉ fs) /\
            forall j, (j < i)%nat -> rst_name outpath fname j ∈ fs.
Proof.
  unfold first_free.
  destruct (List.find _ (seq 0 (S (size fs)))) as [i|] eqn:E.
  - exists i. split; [reflexivity|].
    destruct (find_seq_first _ _ _ _ E) as (Hi & _ & Hmin). split.
    + apply negb_true_iff, bool_decide_eq_false in Hi. exact Hi.
    + intros j Hj. specialize (Hmin j (conj (Nat.le_0_l j) Hj)).
      apply negb_false_iff, bool_decide_eq_true in Hmin. exact Hmin.
  - exfalso. pose proof (find_seq_none _ _ _ E) as Hnone.
    assert (Hall : forall j, (j < S (size fs))%nat ->
                     rst_name outpath fname j ∈ fs).
    { intros j Hj. specialize (Hnone j (conj (Nat.le_0_l j) Hj)).
      apply negb_false_iff, bool_decide_eq_true in Hnone. exact Hnone. }
    apply backup_names_bounded in Hall. lia.
Qed.

Lemma rename_size (w : world) (src dst : string) :
  src ∈ files w -> dst ∉ files w ->
  size (files (rename src dst w)) = size (files w).
Proof.
  intros Hs Hd. cbn [rename files].
  assert (Hdisj : ({[dst]} : gset string) ## files w ∖ {[src]}).
  { intros x Hx Hx'. apply elem_of_singleton in Hx. subst x.
    apply elem_of_difference in Hx' as [Hx' _]. exact (Hd Hx'). }
  assert (Hsub : ({[src]} : gset string) ⊆ files w).
  { intros x Hx. apply elem_of_singleton in Hx. subst x. exact Hs. }
  rewrite (size_union _ _ Hdisj), (size_difference _ _ Hsub).
  rewrite !size_singleton.
  assert (Hpos : (size ({[src]} : gset string) <= size (files w))%nat)
    by (apply subseteq_size; exact Hsub).
  rewrite size_singleton in Hpos. lia.
Qed.

(** The loop of lines 893-898 changes nothing but the files, and keeps
    their number. *)
Lemma move_outfiles_fields (outpath : string) (outfiles : list string) :
  forall w,
    let w' := fst (move_outfiles outpath outfiles w) in
    size (files w') = size (files w) /\ dirs_made w' = dirs_made w /\
    printed w' = printed w /\ environ w' = environ w /\
    commands w' = commands w.
Proof.
  induction outfiles as [|f rest IH]; intros w; cbn [move_outfiles].
  - cbn. repeat split.
  - destruct (first_free_spec (files w) outpath (last_of (split slash f)))
      as (i & -> & Hfree & _).
    destruct (bool_decide (f ∈ files w)) eqn:Hf; [|cbn; repeat split].
    apply bool_decide_eq_true in Hf.
    destruct (IH (rename f (rst_name outpath (last_of (split slash f)) i) w))
      as (H1 & H2 & H3 & H4 & H5).
    cbv zeta. rewrite H1, H2, H3, H4, H5.
    split; [apply rename_size; assumption|]. repeat split.
Qed.


(** The loop fails only when a file to move has gone. *)
Lemma move_outfiles_error (outpath : string) (outfiles : list string) :
  forall w e,
    snd (move_outfiles outpath outfiles w) = Some e -> e = FileNotFoundError.
Proof.
  induction outfiles as [|f rest IH]; intros w e; cbn [move_outfiles].
  - discriminate.
  - destruct (first_free_spec (files w) outpath (last_of (split slash f)))
      as (i & -> & _).
    destruct (bool_decide (f ∈ files w)); [apply IH|].
    intros [= <-]. reflexivity.
Qed.


(** The two ways through [prepare_restart]: it leaves before line 891 and
    has only printed, or it makes the backup folder and moves the
    output. *)
Lemma prepare_restart_shape (strptime : string -> option Z) (o : oracle)
    (w : world) (wdir outpath : string) (output_streams : list string)
    (end_time : string) :
  let out := prepare_restart strptime o w wdir outpath output_streams end_time in
  (untouched w (fst out) /\
   (snd out = RetNone \/
    (snd out = Raise FileNotFoundError /\ run_log o = None) \/
    exists m, snd out = Raise (ValueError m)))
  \/
  (exists (msg cmd : string) (run_hours : Q),
     run_log o <> None /\ Qle_bool run_hours 0 = false /\
     let w2 := makedirs (outpath ++ "/rst/") (print msg w) in
     let mv :=
       move_outfiles outpath
         (List.filter (fun f => bool_decide (f ∈ files w2))
            (map (fun stream => outpath ++ "/" ++ stream ++ "_" ++ run_ID wdir)
                 output_streams)) w2 in
     match snd mv with
     | Some e => out = (fst mv, Raise e)
     | None =>
         out = (system cmd (setenv "code_dir" "." (fst mv)),
                if (search_replace_status o =? 0)%Z then Ret run_hours
                else Raise (RuntimeError
                  "Error in preparing restart run! Failed to modify namelist values!"))
     end).
Proof.
  cbv zeta. unfold prepare_restart.
  destruct (run_log o) as [runlog|];
    [|left; split; [repeat split|right; left; split; reflexivity]].
  destruct (bool_decide (success_line end_time ∈ runlog));
    [left; split; [repeat split|left; reflexivity]|].
  destruct (bool_decide (ls_rst o = ""));
    [left; split; [repeat split|left; reflexivity]|].
  destruct (strptime (String.concat "_" (newest_restart_time (ls_rst o))))
    as [t_rst|];
    [|left; split; [repeat split|right; right; eexists; reflexivity]].
  destruct (newest_restart_time (ls_rst o)) as [|rst_date [|rst_time [|? ?]]];
    try (left; split; [repeat split|right; right; eexists; reflexivity]).
  destruct (strptime end_time) as [t_end|];
    [|left; split; [repeat split|right; right; eexists; reflexivity]].
  destruct (split underscore end_time) as [|end_d [|end_t [|? ?]]];
    try (left; split; [repeat split|right; right; eexists; reflexivity]).
  destruct (Qle_bool (inject_Z (t_end - t_rst) / inject_Z 3600) 0) eqn:Hrh;
    [left; split; [repeat split|left; reflexivity]|].
  right.
  exists ("Restart run from " ++ String.concat " " [rst_date; rst_time]),
         ("bash search_replace.sh " ++ wdir ++ "/namelist.input " ++ wdir
            ++ "/namelist.input 0 "
            ++ ("restart .true"
                  ++ rst_opt_of "start"
                       (split dash rst_date ++ split colon rst_time)%list
                  ++ rst_opt_of "end"
                       (split dash end_d ++ split colon end_t)%list)),
         (inject_Z (t_end - t_rst) / inject_Z 3600)%Q.
  split; [discriminate|]. split; [exact Hrh|].
  destruct (move_outfiles _ _ _) as [w3 [e|]]; cbn [fst snd];
    [reflexivity|].
  destruct (search_replace_status o =? 0)%Z; reflexivity.
Qed.

(** X7: the search of lines 895-897 for a backup index always ends, at
    the smallest index whose backup name is not taken by a file; that
    index is at most the number of files. *)
Theorem backup_index_least (fs : gset string) (outpath fname : string) :
  exists i, first_free fs outpath fname = Some i /\
            (i <= size fs)%nat /\
            (rst_name outpath fname i ∉ fs) /\
            forall j, (j < i)%nat -> rst_name outpath fname j ∈ fs.
Proof.
  destruct (first_free_spec fs outpath fname) as (i & Hi & Hfree & Hmin).
  exists i. split; [exact Hi|]. split; [|split; assumption].
  apply (backup_names_bounded fs outpath fname i Hmin).
Qed.


(** X9: when [prepare_restart] returns a number of hours, that number is
    positive, the backup folder [outpath/rst/] has been made, [code_dir]
    has been exported, the shell command that patches the namelist has
    been run exactly once, as the last command, and it succeeded. *)
Theorem prepare_restart_returns (strptime : string -> option Z)
    (o : oracle) (w : world) (wdir outpath : string)
    (output_streams : list string) (end_time : string) (run_hours : Q) :
  let out := prepare_restart strptime o w wdir outpath output_streams end_time in
  snd out = Ret run_hours ->
  (0 < run_hours)%Q /\
  search_replace_status o = 0%Z /\
  dirs_made (fst out) = (dirs_made w ++ [(outpath ++ "/rst/")%string])%list /\
  environ (fst out) = (environ w ++ [("code_dir", ".")])%list /\
  exists cmd, commands (fst out) = (commands w ++ [cmd])%list.
Proof.
  cbv zeta. intros Hret.
  destruct (prepare_restart_shape strptime o w wdir outpath output_streams
              end_time) as [[_ [Hn|[[He _]|[m He]]]]|(msg & cmd & rh & _ & Hrh & Hmv)];
    try congruence.
  cbv zeta in Hmv.
  set (w2 := makedirs (outpath ++ "/rst/") (print msg w)) in *.
  set (outfiles := List.filter _ _) in *.
  destruct (move_outfiles_fields outpath outfiles w2) as (_ & Hd & _ & He & Hc).
  destruct (snd (move_outfiles outpath outfiles w2)) as [e|].
  - rewrite Hmv in Hret. discriminate Hret.
  - rewrite Hmv in Hret |- *. cbn [fst snd] in Hret |- *.
    destruct (search_replace_status o =? 0)%Z eqn:Hst; [|discriminate Hret].
    injection Hret as <-. split; [|split; [apply Z.eqb_eq, Hst|]].
    + apply Qnot_le_lt. intros Hle. apply Qle_bool_iff in Hle. congruence.
    + cbn [system setenv dirs_made environ commands].
      rewrite Hd, He, Hc. split; [reflexivity|]. split; [reflexivity|].
      exists cmd. reflexivity.
Qed.

Lemma prepare_restart_returns_witness :
  let out := prepare_restart sample_strptime sample_oracle sample_world
               "/runs/WRF_pytest_lin_0" "/out" ["wrfout"; "fastout"]
               "2018-06-20_10:00:00" in
  (0 < 7200 # 3600)%Q /\
  search_replace_status sample_oracle = 0%Z /\
  dirs_made (fst out) = (dirs_made sample_world ++ [("/out" ++ "/rst/")%string])%list /\
  environ (fst out) = (environ sample_world ++ [("code_dir", ".")])%list /\
  exists cmd, commands (fst out) = (commands sample_world ++ [cmd])%list.
Proof.
  apply (prepare_restart_returns sample_strptime sample_oracle sample_world
           "/runs/WRF_pytest_lin_0" "/out" ["wrfout"; "fastout"]
           "2018-06-20_10:00:00" (7200 # 3600)).
  vm_compute. reflexivity.
Defined.




End RestartMore.

(** ** More on the pooling branch of submit_jobs *)

Module PoolMoreSpec.
Import Pool PoolSpec PoolMore.

Section Capacity.

Variable conf : config.
Variable opts : options.

Local Abbreviation capped := (capped conf opts).
Local Abbreviation runs_fit := (runs_fit conf opts).
Local Abbreviation Inv := (Inv conf opts).

Lemma capped_ret {A} (a : A) : capped (ret a).
Proof. constructor. Qed.

Lemma capped_raise {A} (e : exn) : capped (@raise A e).
Proof. constructor. Qed.

Lemma capped_bind {A B} (m : M A) (f : A -> M B) :
  capped m -> (forall a, snd m = inr a -> capped (f a)) -> capped (bind m f).
Proof.
  intros Hm Hf. destruct m as [t [e|a]]; cbn [bind]; [exact Hm|].
  unfold PoolMore.capped. cbn [fst]. rewrite submitted_app.
  apply List.Forall_app. split; [exact Hm|]. apply Hf. reflexivity.
Qed.

Lemma capped_submit (r : rep) (s : state) (ms : list rep) :
  holds opts s ms -> ms <> [] -> runs_fit ms ->
  capped (submit_pool conf opts r s).
Proof.
  intros Hh Hne Hfit.
  destruct (submit_pool_holds conf opts r s ms Hh Hne) as (t' & res & -> & Hcase).
  destruct Hcase as [(-> & sub & -> & Hsub)|(e & -> & -> & He)].
  - unfold PoolMore.capped. cbn. constructor; [|constructor].
    unfold within_capacity.
    rewrite (po_IDs _ _ _ _ Hsub), (po_nslots _ _ _ _ Hsub), length_map.
    exact Hfit.
  - constructor.
Qed.

Lemma cap_ok_fit (ms : list rep) :
  pool_jobs opts = true -> cap_ok conf opts ms -> runs_fit ms.
Proof.
  unfold cap_ok, PoolMore.runs_fit. intros ->. intros H Hlen.
  specialize (H Hlen). lia.
Qed.

Lemma single_fit (r : rep) : runs_fit [r].
Proof.
  unfold PoolMore.runs_fit. destruct (pool_jobs opts); [cbn; lia|reflexivity].
Qed.

Lemma post_Inv (final : bool) (todo : list rep) (out : M state) (s' : state) :
  post conf opts final todo out -> snd out = inr s' -> exists ms', Inv s' ms'.
Proof.
  intros (pools & _ & Hm) Hs. rewrite Hs in Hm.
  destruct Hm as (ms' & HI & _). exists ms'. exact HI.
Qed.

Lemma capped_flush_accept (last_id : bool) (r : rep) (s : state)
    (ms : list rep) :
  Inv s ms -> capped (flush conf opts last_id r (appended opts r s)).
Proof.
  intros [Hh Hcap].
  pose proof (holds_appended opts r s ms Hh) as Hh1.
  unfold flush, overflow_split.
  assert (HN : nslots (appended opts r s) = map nslotsi (ms ++ [r]))
    by apply Hh1.
  rewrite HN, length_map.
  destruct (pool_jobs opts && (pool_size conf <? py_sum (map nslotsi (ms ++ [r]))))
    eqn:Hover.
  - apply andb_true_iff in Hover as [Hp Hgt].
    destruct ((1 <? length (ms ++ [r]))%nat) eqn:Hlen.
    + assert (Hne : ms <> []).
      { intros ->. cbn in Hlen. discriminate Hlen. }
      rewrite bind_ret_l. cbn [fst snd].
      rewrite (flush_while_resched conf opts r last_id
                 (trim (appended opts r s)) (current_rt opts r))
        by reflexivity.
      apply capped_bind.
      * apply (capped_submit r _ ms);
          [apply (holds_trim opts _ ms r); exact Hh1|exact Hne|].
        apply cap_ok_fit; assumption.
      * intros _ _. destruct last_id; [|apply capped_ret].
        apply capped_bind; [|intros; apply capped_ret].
        apply (capped_submit r _ [r]);
          [apply holds_seeded|discriminate|apply single_fit].
    + assert (Hms : ms = []).
      { apply Nat.ltb_ge in Hlen. rewrite length_app in Hlen. cbn in Hlen.
        destruct ms as [|? ?]; [reflexivity|]. cbn in Hlen. lia. }
      subst ms.
      assert (Hplain : capped
                (bind (ret (appended opts r s, false)) (fun sp =>
                   flush_while conf opts 2 r (snd sp) last_id (fst sp)))).
      { rewrite bind_ret_l. cbn [fst snd]. rewrite flush_while_plain.
        apply capped_bind; [|intros; apply capped_ret].
        apply (capped_submit r _ [r]);
          [exact Hh1|discriminate|apply single_fit]. }
      destruct (job_scheduler opts) as [[|]|]; [|exact Hplain|exact Hplain].
      rewrite bind_raise_l. apply capped_raise.
  - rewrite bind_ret_l. cbn [fst snd]. rewrite flush_while_plain.
    apply capped_bind; [|intros; apply capped_ret].
    apply (capped_submit r _ (ms ++ [r]));
      [exact Hh1|destruct ms; discriminate|].
    unfold PoolMore.runs_fit. unfold cap_ok in Hcap.
    destruct (pool_jobs opts); cbn [andb] in Hover.
    + intros _. apply Z.ltb_ge in Hover. exact Hover.
    + subst ms. reflexivity.
Qed.

Lemma capped_flush_skip (r : rep) (s : state) (ms : list rep) :
  Inv s ms -> ms <> [] -> capped (flush conf opts true r s).
Proof.
  intros [Hh Hcap] Hne.
  assert (Hp : pool_jobs opts = true).
  { unfold cap_ok in Hcap. destruct (pool_jobs opts); [reflexivity|].
    contradiction. }
  unfold flush, overflow_split.
  assert (HN : nslots s = map nslotsi ms) by apply Hh.
  rewrite HN, length_map.
  assert (Hplain : capped
            (bind (ret (s, false)) (fun sp =>
               flush_while conf opts 2 r (snd sp) true (fst sp)))).
  { rewrite bind_ret_l. cbn [fst snd]. rewrite flush_while_plain.
    apply capped_bind; [|intros; apply capped_ret].
    apply (capped_submit r _ ms); [exact Hh|exact Hne|].
    apply cap_ok_fit; assumption. }
  destruct (pool_jobs opts && (pool_size conf <? py_sum (map nslotsi ms)))
    eqn:Hover; [|exact Hplain].
  apply andb_true_iff in Hover as [_ Hgt]. apply Z.ltb_lt in Hgt.
  destruct ((1 <? length ms)%nat) eqn:Hlen.
  - apply Nat.ltb_lt in Hlen. unfold cap_ok in Hcap.
    rewrite Hp in Hcap. specialize (Hcap ltac:(lia)). lia.
  - destruct (job_scheduler opts) as [[|]|]; [|exact Hplain|exact Hplain].
    rewrite bind_raise_l. apply capped_raise.
Qed.

Lemma capped_step (last_id : bool) (r : rep) (s : state) (ms : list rep) :
  Inv s ms -> capped (step conf opts last_id r s).
Proof.
  intros HI. unfold step.
  destruct (skip r).
  - rewrite skipped_id.
    destruct (negb last_id || (length (nslots s) =? 0)%nat) eqn:Hcont;
      [apply capped_ret|].
    apply orb_false_iff in Hcont as [Hlast Hlen].
    destruct last_id; [|discriminate]. unfold flush_due.
    rewrite orb_true_r. apply (capped_flush_skip r s ms HI).
    apply Nat.eqb_neq in Hlen.
    rewrite (holds_length opts s ms (proj1 HI)) in Hlen.
    destruct ms; [contradiction|discriminate].
  - destruct (flush_due conf opts last_id (appended opts r s));
      [|apply capped_ret].
    apply (capped_flush_accept last_id r s ms HI).
Qed.

Lemma capped_rep_loop (last_cfg : bool) (rs : list rep) :
  forall s ms, Inv s ms -> capped (rep_loop conf opts last_cfg rs s).
Proof.
  induction rs as [|r rs IH]; intros s ms HI; cbn [rep_loop];
    [apply capped_ret|].
  apply capped_bind; [apply (capped_step _ r s ms HI)|].
  intros s' Hs'.
  destruct (post_Inv _ _ _ s' (step_post conf opts _ r s ms HI) Hs')
    as (ms' & HI').
  apply (IH s' ms' HI').
Qed.

Lemma capped_cfg_loop (cs : list batch_config) :
  forall s ms, Inv s ms -> capped (cfg_loop conf opts cs s).
Proof.
  induction cs as [|c cs IH]; intros s ms HI; cbn [cfg_loop];
    [apply capped_ret|].
  destruct (cfg_skip c); [apply (IH s ms HI)|].
  apply capped_bind; [apply (capped_rep_loop _ (reps c) s ms HI)|].
  intros s' Hs'.
  destruct (post_Inv _ _ _ s' (rep_loop_post conf opts _ (reps c) s ms HI) Hs')
    as (ms' & HI').
  apply (IH s' ms' HI').
Qed.

End Capacity.

(** X11: no submitted job is over capacity, whatever the batch and
    however the run ends.  With pooling a job that holds two or more runs
    asks for at most [conf.pool_size] slots (only a run that is alone in
    its job can be above); without pooling every job holds exactly one
    run. *)
Theorem submitted_pools_within_capacity (conf : config) (opts : options)
    (batch : list batch_config) :
  Forall (within_capacity conf opts)
    (submitted (fst (submit_jobs conf opts batch))).
Proof.
  apply (capped_cfg_loop conf opts batch initial_state []).
  apply Inv_nil, holds_initial.
Qed.

End PoolMoreSpec.

(** ** misc_tools.check_namelist_best_practice *)

Module NamelistSpec.
Import Namelist.

Local Open Scope string_scope.

Lemma has_error_app (l1 l2 : list string) :
  has_error (l1 ++ l2)%list = has_error l1 || has_error l2.
Proof. apply existsb_app. Qed.

Lemma bind_inr {A B} (m : R A) (f : A -> R B) (b : B) :
  snd (bind m f) = inr b -> exists a, snd m = inr a /\ snd (f a) = inr b.
Proof.
  unfold bind. destruct (snd m) as [e|a]; cbn [snd]; [discriminate|].
  intros H. exists a. split; [reflexivity|exact H].
Qed.

Lemma last_app_nonempty (l1 l2 : list string) (d : string) :
  l2 <> [] -> List.last (l1 ++ l2)%list d = List.last l2 d.
Proof.
  intros Hne. induction l1 as [|x l1 IH]; [reflexivity|].
  cbn [app]. destruct (l1 ++ l2)%list as [|y l] eqn:E.
  - apply app_eq_nil in E as [_ E]. contradiction.
  - rewrite <- IH. reflexivity.
Qed.

(** *** Blocks that only warn *)

Section Blocks.

Variable fmt : nat -> Q -> string.
Variable str : Q -> string.
Variable nl : namelist.

Local Abbreviation lookup := (lookup nl).

Lemma quiet_ret {A} (a : A) : quiet (ret a).
Proof. split; [reflexivity|discriminate]. Qed.

Lemma quiet_fail {A} (f : failure) : f <> critical -> quiet (@fail A f).
Proof. intros Hf. split; [reflexivity|]. cbn. congruence. Qed.

Lemma quiet_print (line : string) : is_error line = false -> quiet (print line).
Proof.
  intros H. split; [|discriminate]. cbn. rewrite H. reflexivity.
Qed.

Lemma quiet_when (c : bool) (line : string) :
  is_error line = false -> quiet (when c line).
Proof.
  intros H. destruct c; [apply quiet_print, H|apply quiet_ret].
Qed.

Lemma quiet_lookup (key : string) : quiet (lookup key).
Proof.
  unfold Namelist.lookup. destruct (params nl !! key);
    [apply quiet_ret|apply quiet_fail; discriminate].
Qed.

Lemma quiet_bind {A B} (m : R A) (f : A -> R B) :
  quiet m -> (forall a, quiet (f a)) -> quiet (bind m f).
Proof.
  intros [Hm He] Hf. unfold quiet, bind.
  destruct (snd m) as [e|a] eqn:Hs; cbn [fst snd].
  - split; [exact Hm|]. congruence.
  - destruct (Hf a) as [Hfa Hfe]. split; [|exact Hfe].
    rewrite has_error_app, Hm, Hfa. reflexivity.
Qed.

Lemma quiet_and_then (c : bool) (m : R bool) : quiet m -> quiet (and_then c m).
Proof. intros H. destruct c; [exact H|apply quiet_ret]. Qed.

Ltac quiet_steps :=
  repeat first
    [ apply quiet_lookup
    | apply quiet_ret
    | apply quiet_when; reflexivity
    | apply quiet_print; reflexivity
    | apply quiet_fail; discriminate
    | apply quiet_and_then
    | apply quiet_bind; [|intros ?]
    | match goal with
      | |- quiet (if ?c then _ else _) => destruct c
      | |- quiet (match ?x with _ => _ end) => destruct x
      end ].

Lemma quiet_check_dt (dx : Q) : quiet (check_dt nl dx).
Proof. unfold check_dt. quiet_steps. Qed.

Lemma quiet_check_mp (dx : Q) : quiet (check_mp nl dx).
Proof. unfold check_mp. quiet_steps. Qed.

Lemma quiet_check_first_level : quiet (check_first_level fmt nl).
Proof. unfold check_first_level. quiet_steps. Qed.

Lemma quiet_check_eta (pbl : Q) : quiet (check_eta fmt nl pbl).
Proof. unfold check_eta. quiet_steps. Qed.

Lemma quiet_check_km4 (dx : Q) : quiet (check_km4 nl dx).
Proof. unfold check_km4. quiet_steps. Qed.

Lemma quiet_check_cu (dx : Q) : quiet (check_cu nl dx).
Proof. unfold check_cu. quiet_steps. Qed.

Lemma quiet_check_adv (dx : Q) : quiet (check_adv nl dx).
Proof. unfold check_adv. quiet_steps. Qed.

Lemma quiet_check_flux (flux : string) (use_fluxes : list Q) :
  is_error ("WARNING: " ++ flux) = false ->
  quiet (check_flux str nl flux use_fluxes).
Proof. intros _. unfold check_flux. quiet_steps. Qed.

(** *** Blocks that can set the flag *)

Lemma flags_ret (r : bool) : flags r (ret r).
Proof. unfold flags. cbn. rewrite orb_false_r. reflexivity. Qed.

Lemma flags_fail (r : bool) (f : failure) : f <> critical -> flags r (fail f).
Proof. intros H. exact H. Qed.

Lemma flags_error_if (c : bool) (line : string) (r : bool) :
  is_error line = true -> flags r (error_if c line r).
Proof.
  intros H. destruct c; [|apply flags_ret].
  unfold flags. cbn. rewrite H. cbn. rewrite orb_true_r. reflexivity.
Qed.

Lemma flags_bind (r : bool) (m : R bool) (f : bool -> R bool) :
  flags r m -> (forall b, flags b (f b)) -> flags r (bind m f).
Proof.
  unfold flags, bind. intros Hm Hf. destruct (snd m) as [e|b]; [exact Hm|].
  specialize (Hf b). cbn [fst snd]. destruct (snd (f b)) as [e'|b'];
    [exact Hf|].
  rewrite has_error_app, Hf, Hm. symmetry. apply orb_assoc.
Qed.

Lemma flags_quiet_bind {A} (r : bool) (m : R A) (f : A -> R bool) :
  quiet m -> (forall a, flags r (f a)) -> flags r (bind m f).
Proof.
  unfold flags, bind. intros [Hm He] Hf. destruct (snd m) as [e|a].
  - cbn [snd]. congruence.
  - specialize (Hf a). cbn [fst snd]. destruct (snd (f a)) as [e'|b'];
      [exact Hf|].
    rewrite has_error_app, Hm. exact Hf.
Qed.

Ltac flags_steps :=
  repeat first
    [ apply flags_ret
    | apply flags_error_if; reflexivity
    | apply flags_fail; discriminate
    | apply flags_quiet_bind;
        [first [ apply quiet_lookup | apply quiet_check_first_level
               | apply quiet_check_eta | apply quiet_when; reflexivity
               | apply quiet_and_then; quiet_steps ]
        |intros ?]
    | apply flags_bind; [|intros ?]
    | match goal with
      | |- flags _ (if ?c then _ else _) => destruct c
      | |- flags _ (match ?x with _ => _ end) => destruct x
      end ].

Lemma flags_check_dz (dx : Q) (r : bool) : flags r (check_dz fmt nl dx r).
Proof. unfold check_dz. flags_steps. Qed.

Lemma flags_check_pbl (dx : Q) (r : bool) : flags r (check_pbl fmt nl dx r).
Proof. unfold check_pbl. flags_steps. Qed.

Lemma flags_check_les (dx : Q) (r : bool) : flags r (check_les str nl dx r).
Proof. unfold check_les. flags_steps. Qed.

Lemma flags_check_sgs (r : bool) : flags r (check_sgs nl r).
Proof. unfold check_sgs. flags_steps. Qed.

(** *** The rest of the function *)

Lemma ends_tail (r : bool) :
  ends_ok r (do _ <- print (String "010"%char "");
             if r then fail (Failed (ValueError msg_critical)) else ret tt).
Proof.
  destruct r; unfold ends_ok; cbn.
  - intros _. split; reflexivity.
  - repeat split.
Qed.

Lemma ends_quiet_bind {A} (r : bool) (m : R A) (k : A -> R unit) :
  quiet m -> (forall a, ends_ok r (k a)) -> ends_ok r (bind m k).
Proof.
  unfold ends_ok, bind. intros [Hm He] Hk.
  destruct (snd m) as [e|a]; cbn [fst snd]; [congruence|].
  specialize (Hk a). rewrite has_error_app, Hm. cbn [orb].
  assert (Hlast : fst (k a) <> [] ->
            List.last (fst m ++ fst (k a))%list "" = List.last (fst (k a)) "")
    by apply last_app_nonempty.
  destruct (snd (k a)) as [e'|u].
  - intros He'. destruct (Hk He') as [H1 H2]. split; [exact H1|].
    rewrite Hlast; [exact H2|]. intros E. rewrite E in H2. discriminate H2.
  - destruct Hk as (H1 & H2 & H3). split; [exact H1|]. split; [exact H2|].
    rewrite Hlast; [exact H3|]. intros E. rewrite E in H3. discriminate H3.
Qed.

Lemma ends_flags_bind (r : bool) (m : R bool) (k : bool -> R unit) :
  flags r m -> (forall b, ends_ok b (k b)) -> ends_ok r (bind m k).
Proof.
  unfold ends_ok, flags, bind. intros Hm Hk.
  destruct (snd m) as [e|b]; cbn [fst snd]; [intros; contradiction|].
  subst b. set (b := r || has_error (fst m)) in *.
  specialize (Hk b). rewrite has_error_app.
  assert (Hlast : fst (k b) <> [] ->
            List.last (fst m ++ fst (k b))%list "" = List.last (fst (k b)) "")
    by apply last_app_nonempty.
  destruct (snd (k b)) as [e'|u].
  - intros He'. destruct (Hk He') as [H1 H2]. split.
    + rewrite orb_assoc. exact H1.
    + rewrite Hlast; [exact H2|]. intros E. rewrite E in H2. discriminate H2.
  - destruct Hk as (H1 & H2 & H3).
    apply orb_false_iff in H1 as [Hr Hme].
    split; [exact Hr|]. split; [rewrite Hme, H2; reflexivity|].
    rewrite Hlast; [exact H3|]. intros E. rewrite E in H3. discriminate H3.
Qed.

Lemma check_ends_ok :
  ends_ok false (check_namelist_best_practice fmt str nl).
Proof.
  unfold check_namelist_best_practice.
  apply ends_quiet_bind; [apply quiet_lookup|intros dx].
  apply ends_quiet_bind; [apply quiet_print; reflexivity|intros _].
  apply ends_quiet_bind; [apply quiet_check_dt|intros _].
  apply ends_flags_bind; [apply flags_check_dz|intros r1].
  apply ends_quiet_bind; [apply quiet_check_mp|intros _].
  apply ends_flags_bind; [apply flags_check_pbl|intros r2].
  apply ends_flags_bind; [apply flags_check_les|intros r3].
  apply ends_flags_bind; [apply flags_check_sgs|intros r4].
  apply ends_quiet_bind; [apply quiet_check_km4|intros _].
  apply ends_quiet_bind; [apply quiet_check_cu|intros _].
  apply ends_quiet_bind; [apply quiet_check_adv|intros _].
  apply ends_quiet_bind; [apply quiet_check_flux; reflexivity|intros _].
  apply ends_quiet_bind; [apply quiet_check_flux; reflexivity|intros _].
  apply ends_tail.
Qed.

(** *** What a block that hands on an unset flag has checked *)

Lemma lookup_inr (key : string) (v : Q) :
  snd (lookup key) = inr v -> params nl !! key = Some v.
Proof.
  unfold Namelist.lookup. destruct (params nl !! key); cbn; congruence.
Qed.

Lemma error_if_inr (c : bool) (line : string) (r b : bool) :
  snd (error_if c line r) = inr b -> b = c || r.
Proof. destruct c; cbn; congruence. Qed.

Lemma Qlt_bool_false (a b : Q) : Qlt_bool a b = false -> (b <= a)%Q.
Proof.
  unfold Qlt_bool. intros H. apply negb_false_iff in H.
  apply Qle_bool_iff. exact H.
Qed.

Lemma Qle_bool_false (a b : Q) : Qle_bool a b = false -> (b < a)%Q.
Proof.
  intros H. apply Qnot_le_lt. intros Hle. apply Qle_bool_iff in Hle.
  congruence.
Qed.

Lemma mem_2_3 (x : Q) : mem x [2; 3]%Q = true <-> (x == 2 \/ x == 3)%Q.
Proof.
  unfold mem. cbn [existsb]. rewrite orb_false_r, orb_true_iff.
  rewrite !Qeq_bool_iff. reflexivity.
Qed.

Lemma check_dz_false (dx : Q) (r : bool) :
  snd (check_dz fmt nl dx r) = inr false ->
  r = false /\
  forall a, dz nl = Some a -> Forall (fun d => d <= dx /\ d <= 1000)%Q a.
Proof.
  unfold check_dz. destruct (dz nl) as [a|].
  - destruct a as [|x l]; cbn [nanmax]; [discriminate|].
    intros H. apply bind_inr in H as (b & Hb & H).
    apply error_if_inr in Hb. apply error_if_inr in H.
    symmetry in H. apply orb_false_iff in H as [H2 ->].
    symmetry in Hb. apply orb_false_iff in Hb as [H1 ->].
    split; [reflexivity|]. intros a' [= <-].
    apply Qlt_bool_false in H1. apply Qlt_bool_false in H2.
    destruct (PoolSpec.qmax_ge l x) as [Hx Hl].
    constructor.
    + split; eapply Qle_trans; eauto.
    + revert Hl. apply List.Forall_impl. intros d Hd.
      split; eapply Qle_trans; eauto.
  - cbn. intros [= ->]. split; [reflexivity|]. discriminate.
Qed.

Lemma check_pbl_false (dx : Q) (r : bool) :
  snd (check_pbl fmt nl dx r) = inr false ->
  r = false /\
  exists pbl, params nl !! "bl_pbl_physics" = Some pbl /\
    (pbl == 0 -> dx < 500)%Q /\ (~ pbl == 0 -> 100 < dx)%Q.
Proof.
  unfold check_pbl. intros H. apply bind_inr in H as (pbl & Hpbl & H).
  apply lookup_inr in Hpbl.
  destruct (Qeq_bool pbl 0) eqn:Hz; cbn [andb negb] in H.
  - apply Qeq_bool_iff in Hz.
    destruct (Qle_bool 500 dx) eqn:H500; [discriminate H|].
    cbn in H. injection H as ->. split; [reflexivity|].
    exists pbl. split; [exact Hpbl|]. split.
    + intros _. apply Qle_bool_false, H500.
    + intros Hn. contradiction.
  - destruct (Qle_bool dx 100) eqn:H100; [discriminate H|].
    apply bind_inr in H as (u1 & _ & H). apply bind_inr in H as (u2 & _ & H).
    cbn in H. injection H as ->. split; [reflexivity|].
    exists pbl. split; [exact Hpbl|]. split.
    + intros Hq. apply Qeq_bool_iff in Hq. congruence.
    + intros _. apply Qle_bool_false, H100.
Qed.

Lemma check_les_false (dx : Q) (r : bool) :
  snd (check_les str nl dx r) = inr false ->
  r = false /\
  forall pbl, params nl !! "bl_pbl_physics" = Some pbl ->
    (pbl == 0)%Q -> (dx <= 500)%Q ->
    exists km_opt diff_opt,
      params nl !! "km_opt" = Some km_opt /\
      (km_opt == 2 \/ km_opt == 3)%Q /\
      params nl !! "diff_opt" = Some diff_opt /\ (diff_opt == 2)%Q.
Proof.
  unfold check_les. intros H. apply bind_inr in H as (pbl & Hpbl & H).
  apply lookup_inr in Hpbl.
  destruct (Qeq_bool pbl 0 && Qle_bool dx 500) eqn:Hles.
  - apply bind_inr in H as (km & Hkm & H). apply lookup_inr in Hkm.
    apply bind_inr in H as (b1 & Hb1 & H). apply error_if_inr in Hb1.
    apply bind_inr in H as (diff & Hdiff & H). apply lookup_inr in Hdiff.
    apply bind_inr in H as (b2 & Hb2 & H). apply error_if_inr in Hb2.
    apply bind_inr in H as (sf & _ & H). apply bind_inr in H as (u1 & _ & H).
    apply bind_inr in H as (mix & _ & H). apply bind_inr in H as (u2 & _ & H).
    cbn in H. injection H as ->.
    symmetry in Hb2. apply orb_false_iff in Hb2 as [Hd ->].
    symmetry in Hb1. apply orb_false_iff in Hb1 as [Hk ->].
    split; [reflexivity|]. intros pbl' Hpbl' _ _.
    exists km, diff. split; [exact Hkm|]. split.
    + apply mem_2_3. apply negb_false_iff. exact Hk.
    + split; [exact Hdiff|]. apply Qeq_bool_iff. apply negb_false_iff.
      exact Hd.
  - cbn in H. injection H as ->. split; [reflexivity|].
    intros pbl' Hpbl' Hz Hle. exfalso.
    rewrite Hpbl in Hpbl'. injection Hpbl' as <-.
    apply Qeq_bool_iff in Hz. apply Qle_bool_iff in Hle.
    rewrite Hz, Hle in Hles. discriminate Hles.
Qed.

Lemma check_sgs_false (r : bool) :
  snd (check_sgs nl r) = inr false ->
  r = false /\
  exists km_opt, params nl !! "km_opt" = Some km_opt /\
    ((km_opt == 2 \/ km_opt == 3)%Q ->
     exists diff_opt,
       params nl !! "diff_opt" = Some diff_opt /\ (diff_opt == 2)%Q).
Proof.
  unfold check_sgs. intros H. apply bind_inr in H as (km & Hkm & H).
  apply lookup_inr in Hkm. apply bind_inr in H as (c & Hc & H).
  apply error_if_inr in H. symmetry in H.
  apply orb_false_iff in H as [-> ->]. split; [reflexivity|].
  exists km. split; [exact Hkm|]. intros Hin. apply mem_2_3 in Hin.
  rewrite Hin in Hc. cbn [and_then] in Hc.
  apply bind_inr in Hc as (diff & Hdiff & Hc). apply lookup_inr in Hdiff.
  cbn in Hc. injection Hc as Hc. exists diff. split; [exact Hdiff|].
  apply Qeq_bool_iff. apply negb_false_iff. exact Hc.
Qed.

End Blocks.

(** X14: the error of line 825 and the printed error lines go together.
    When the function returns, no line it printed starts with ERROR; when
    it raises the [ValueError] of line 825, at least one printed line
    does; in both cases all checks were made, and the last line printed
    is the empty line of line 823. *)
Theorem error_lines_decide (fmt : nat -> Q -> string) (str : Q -> string)
    (nl : namelist) :
  let out := check_namelist_best_practice fmt str nl in
  match snd out with
  | inr _ =>
      has_error (fst out) = false /\
      List.last (fst out) "" = String "010"%char ""
  | inl f =>
      f = critical ->
      has_error (fst out) = true /\
      List.last (fst out) "" = String "010"%char ""
  end.
Proof.
  cbv zeta. pose proof (check_ends_ok fmt str nl) as H.
  unfold ends_ok in H. cbn [orb] in H.
  destruct (snd (check_namelist_best_practice fmt str nl)) as [f|u].
  - exact H.
  - destruct H as (_ & H1 & H2). split; assumption.
Qed.

(** X15: what an accepted namelist satisfies.  When the function returns,
    no layer is thicker than [dx] or than 1000 m; without a PBL scheme
    ([bl_pbl_physics = 0]) the grid spacing is below 500 m and [km_opt]
    is 2 or 3; with a PBL scheme the grid spacing is above 100 m; and
    whenever [km_opt] is 2 or 3, [diff_opt] is 2. *)
Theorem accepted_namelist (fmt : nat -> Q -> string) (str : Q -> string)
    (nl : namelist) :
  snd (check_namelist_best_practice fmt str nl) = inr tt ->
  exists dx pbl km_opt,
    params nl !! "dx" = Some dx /\
    params nl !! "bl_pbl_physics" = Some pbl /\
    params nl !! "km_opt" = Some km_opt /\
    (forall a, dz nl = Some a ->
       Forall (fun d => d <= dx /\ d <= 1000)%Q a) /\
    (pbl == 0 -> dx < 500 /\ (km_opt == 2 \/ km_opt == 3))%Q /\
    (~ pbl == 0 -> 100 < dx)%Q /\
    ((km_opt == 2 \/ km_opt == 3)%Q ->
     exists diff_opt,
       params nl !! "diff_opt" = Some diff_opt /\ (diff_opt == 2)%Q).
Proof.
  unfold check_namelist_best_practice. intros H.
  apply bind_inr in H as (dx & Hdx & H). apply (lookup_inr nl) in Hdx.
  apply bind_inr in H as (u0 & _ & H).
  apply bind_inr in H as (u1 & _ & H).
  apply bind_inr in H as (r1 & Hdz & H).
  apply bind_inr in H as (u2 & _ & H).
  apply bind_inr in H as (r2 & Hpbl & H).
  apply bind_inr in H as (r3 & Hles & H).
  apply bind_inr in H as (r4 & Hsgs & H).
  apply bind_inr in H as (u3 & _ & H).
  apply bind_inr in H as (u4 & _ & H).
  apply bind_inr in H as (u5 & _ & H).
  apply bind_inr in H as (u6 & _ & H).
  apply bind_inr in H as (u7 & _ & H).
  apply bind_inr in H as (u8 & _ & H).
  destruct r4; [discriminate H|].
  apply check_sgs_false in Hsgs as (-> & km & Hkm & Hsgs).
  apply check_les_false in Hles as (-> & Hles).
  apply check_pbl_false in Hpbl as (-> & pbl & Hpbl & Hno & Hyes).
  apply check_dz_false in Hdz as (_ & Hdz).
  exists dx, pbl, km. repeat (split; [assumption|]).
  split; [|split; assumption].
  intros Hz. specialize (Hno Hz). split; [exact Hno|].
  destruct (Hles pbl Hpbl Hz (Qlt_le_weak _ _ Hno))
    as (km' & diff & Hkm' & Hin & _).
  rewrite Hkm in Hkm'. injection Hkm' as <-. exact Hin.
Qed.

Lemma accepted_namelist_witness :
  exists dx pbl km_opt,
    params sample_les !! "dx" = Some dx /\
    params sample_les !! "bl_pbl_physics" = Some pbl /\
    params sample_les !! "km_opt" = Some km_opt /\
    (forall a, dz sample_les = Some a ->
       Forall (fun d => d <= dx /\ d <= 1000)%Q a) /\
    (pbl == 0 -> dx < 500 /\ (km_opt == 2 \/ km_opt == 3))%Q /\
    (~ pbl == 0 -> 100 < dx)%Q /\
    ((km_opt == 2 \/ km_opt == 3)%Q ->
     exists diff_opt,
       params sample_les !! "diff_opt" = Some diff_opt /\ (diff_opt == 2)%Q).
Proof.
  apply (accepted_namelist sample_fmt sample_str sample_les).
  vm_compute. reflexivity.
Defined.

End NamelistSpec.

(** ** misc_tools.get_vmem and misc_tools.set_vmem_rt *)

Module VmemSpec.
Import Vmem.

Local Open Scope string_scope.

(** *** get_vmem *)

Section GetVmem.

Variable o : oracle.

Lemma scan_magnitudes (s : string) :
  match scan o magnitudes s None with
  | inr (Some v) => reading o s v
  | inr None => contains "M"%char s = false /\ contains "G"%char s = false
  | inl f => f = Namelist.Failed (ValueError msg_float)
  end.
Proof.
  unfold magnitudes, reading. cbn [scan].
  destruct (contains "M"%char s) eqn:HM.
  - destruct (float o (before "M"%char s)) as [x|]; [|reflexivity].
    destruct (contains "G"%char s) eqn:HG.
    + destruct (float o (before "G"%char s)) as [y|]; [|reflexivity].
      left. split; [reflexivity|]. exists y. split; reflexivity.
    + right. repeat split. exists x. split; reflexivity.
  - destruct (contains "G"%char s) eqn:HG.
    + destruct (float o (before "G"%char s)) as [y|]; [|reflexivity].
      left. split; [reflexivity|]. exists y. split; reflexivity.
    + split; reflexivity.
Qed.

Lemma collect_spec (logfile : string) (runs : list string) :
  forall acc,
    match collect o runs logfile acc with
    | inr l =>
        exists l', l = (acc ++ l')%list /\ (length l' <= length runs)%nat /\
          Forall (fun v => exists r s, In r runs /\
                    maxvmem o (r ++ "/" ++ logfile) = Some (inr s) /\
                    reading o s v) l' /\
          (l' = [] -> Forall (unusable o logfile) runs)
    | inl f =>
        f = Namelist.Failed (ValueError msg_float) \/
        exists file, maxvmem o file = Some (inl f)
    end.
Proof.
  induction runs as [|r runs IH]; intros acc; cbn [collect].
  - exists []. rewrite app_nil_r. repeat split; constructor.
  - destruct (maxvmem o (r ++ "/" ++ logfile)) as [[e|s]|] eqn:Hfile.
    + right. exists (r ++ "/" ++ logfile). exact Hfile.
    + pose proof (scan_magnitudes s) as Hscan.
      destruct (scan o magnitudes s None) as [f|[v|]].
      * left. exact Hscan.
      * specialize (IH (acc ++ [v])%list).
        destruct (collect o runs logfile (acc ++ [v])) as [f|l]; [exact IH|].
        destruct IH as (l' & -> & Hlen & Hall & _).
        exists (v :: l'). rewrite <- app_assoc. split; [reflexivity|].
        split; [cbn; lia|]. split; [|discriminate].
        constructor.
        -- exists r, s. split; [left; reflexivity|]. split; assumption.
        -- revert Hall. apply List.Forall_impl.
           intros v' (r' & s' & Hin & Hrest). exists r', s'.
           split; [right; exact Hin|exact Hrest].
      * specialize (IH acc).
        destruct (collect o runs logfile acc) as [f|l]; [exact IH|].
        destruct IH as (l' & -> & Hlen & Hall & Hnil).
        exists l'. split; [reflexivity|]. split; [cbn; lia|]. split.
        -- revert Hall. apply List.Forall_impl.
           intros v' (r' & s' & Hin & Hrest). exists r', s'.
           split; [right; exact Hin|exact Hrest].
        -- intros E. constructor; [|apply Hnil, E].
           right. exists s. split; [exact Hfile|exact Hscan].
    + specialize (IH acc).
      destruct (collect o runs logfile acc) as [f|l]; [exact IH|].
      destruct IH as (l' & -> & Hlen & Hall & Hnil).
      exists l'. split; [reflexivity|]. split; [cbn; lia|]. split.
      * revert Hall. apply List.Forall_impl.
        intros v' (r' & s' & Hin & Hrest). exists r', s'.
        split; [right; exact Hin|exact Hrest].
      * intros E. constructor; [|apply Hnil, E]. left. exact Hfile.
Qed.

(** What [set_vmem_rt] needs of it. *)
Lemma get_vmem_spec (runs : list string) (logfile : string) :
  match get_vmem o runs logfile with
  | inr (Some l) => l <> []
  | inr None => True
  | inl f =>
      f = Namelist.Failed (ValueError msg_float) \/
      exists file, maxvmem o file = Some (inl f)
  end.
Proof.
  unfold get_vmem. destruct runs as [|r runs]; [exact I|].
  pose proof (collect_spec logfile (r :: runs) []) as H.
  destruct (collect o (r :: runs) logfile []) as [f|l]; [exact H|].
  destruct l; [exact I|discriminate].
Qed.

End GetVmem.

(** X16: [get_vmem] never returns an empty list.  It returns [None] only
    if every run directory is without log file or has an entry with
    neither unit; a list it returns is not empty, not longer than [runs],
    and each of its numbers is the reading of the entry of one of the
    runs, in megabytes, a value in G counting 1000 times. *)
Theorem get_vmem_result (o : oracle) (runs : list string) (logfile : string) :
  match get_vmem o runs logfile with
  | inr (Some l) =>
      l <> [] /\ (length l <= length runs)%nat /\
      Forall (fun v => exists r s, In r runs /\
                maxvmem o (r ++ "/" ++ logfile) = Some (inr s) /\
                reading o s v) l
  | inr None => Forall (unusable o logfile) runs
  | inl f =>
      f = Namelist.Failed (ValueError msg_float) \/
      exists file, maxvmem o file = Some (inl f)
  end.
Proof.
  unfold get_vmem. destruct runs as [|r runs]; [constructor|].
  pose proof (collect_spec o logfile (r :: runs) []) as H.
  destruct (collect o (r :: runs) logfile []) as [f|l]; [exact H|].
  destruct H as (l' & -> & Hlen & Hall & Hnil). cbn [app].
  destruct l' as [|v l']; [apply Hnil; reflexivity|].
  split; [discriminate|]. split; assumption.
Qed.

(** *** set_vmem_rt *)

Section SetVmemRt.

Variable fmt : nat -> Q -> string.
Variable o : oracle.
Variable conf : config.
Variable run_hours : Q.
Variable nslots : Z.
Variable restart : bool.
Variable test_run : bool.

Local Abbreviation tame := (tame o).
Local Abbreviation expected_failure := (expected_failure o).

Lemma tame_ret {A} (a : A) : tame (ret a).
Proof. intros s. split; [reflexivity|]. cbn. discriminate. Qed.

Lemma tame_fail {A} (f : Namelist.failure) :
  expected_failure f -> tame (@fail A f).
Proof. intros Hf s. split; [reflexivity|]. cbn. intros f' [= <-]. exact Hf. Qed.

Lemma tame_print (line : string) : tame (print line).
Proof. intros s. split; [reflexivity|]. cbn. discriminate. Qed.

Lemma tame_get (key : string) :
  expected_failure (Namelist.KeyError key) -> tame (get key).
Proof.
  intros Hk s. unfold get. destruct (args s !! key); cbn.
  - split; [reflexivity|discriminate].
  - split; [reflexivity|]. intros f' [= <-]. exact Hk.
Qed.

Lemma zero_division_expected :
  expected_failure (Namelist.Failed ZeroDivisionError).
Proof. right; right; right; right; left. reflexivity. Qed.

Lemma tame_div (a b : Q) : tame (div a b).
Proof.
  unfold div. destruct (Qeq_bool b 0);
    [apply tame_fail, zero_division_expected|apply tame_ret].
Qed.

Lemma tame_bind {A B} (m : M A) (f : A -> M B) :
  tame m -> (forall a, tame (f a)) -> tame (bind m f).
Proof.
  intros Hm Hf s. unfold bind. destruct (Hm s) as [Ha He].
  destruct (m s) as [s1 [e|a]]; cbn [fst snd] in *.
  - split; [exact Ha|]. intros f' [= <-]. apply He. reflexivity.
  - destruct (Hf a s1) as [Ha2 He2]. split; [congruence|exact He2].
Qed.

Lemma tame_get_vmem :
  tame (lift (get_vmem o (identical_runs o) "qstat.info")).
Proof.
  intros s. split; [reflexivity|]. unfold lift. cbn [snd].
  intros f Hf. pose proof (get_vmem_spec o (identical_runs o) "qstat.info") as H.
  rewrite Hf in H. destruct H as [->|H].
  - right; right; right; right; right; left. reflexivity.
  - right; right; right; right; right; right. exact H.
Qed.

Lemma tame_find_vmem : tame (find_vmem o conf nslots test_run).
Proof.
  unfold find_vmem. destruct test_run; [apply tame_ret|].
  destruct (vmem conf); [apply tame_ret|].
  destruct (vmem_per_grid_point conf).
  - apply tame_bind; [apply tame_print|intros _].
    apply tame_bind;
      [apply tame_get; right; right; left; reflexivity|intros e_we].
    apply tame_bind;
      [apply tame_get; right; right; right; left; reflexivity|intros e_sn].
    apply tame_bind; [apply tame_div|intros v].
    destruct (vmem_min conf); apply tame_ret.
  - apply tame_bind; [apply tame_print|intros _].
    intros s. unfold bind.
    destruct (tame_get_vmem s) as [Ha He].
    pose proof (get_vmem_spec o (identical_runs o) "qstat.info") as Hspec.
    unfold lift in *. cbn [fst snd] in *.
    destruct (get_vmem o (identical_runs o) "qstat.info") as [f|[l|]].
    + cbn. split; [reflexivity|]. intros f' [= <-]. apply He. reflexivity.
    + destruct l as [|x l]; [contradiction|].
      cbn. split; [reflexivity|discriminate].
    + cbn. split; [reflexivity|discriminate].
Qed.

Lemma find_vmem_test_run (s : state) :
  test_run = true ->
  exists v, snd (find_vmem o conf nslots test_run s) = inr (Some v).
Proof.
  intros ->. exists (vmem_test conf). reflexivity.
Qed.

Lemma find_runtime_spec (r n_steps : Q) (s : state) :
  let out := find_runtime fmt o conf test_run r n_steps s in
  (forall f, snd out = inl f -> expected_failure f) /\
  (args (fst out) = args s \/
   (test_run = true /\ args (fst out) = <["n_rep" := 1%Q]> (args s))) /\
  (test_run = true -> forall found, snd out = inr found -> fst found <> None).
Proof.
  cbv zeta. unfold find_runtime. destruct test_run.
  - unfold bind, div.
    destruct (Qeq_bool n_steps 0); cbn.
    { split; [intros f [= <-]; apply zero_division_expected|].
      split; [left; reflexivity|]. intros _ found [=]. }
    destruct (Qeq_bool (rt_buffer conf) 0); cbn.
    { split; [intros f [= <-]; apply zero_division_expected|].
      split; [left; reflexivity|]. intros _ found [=]. }
    split; [discriminate|]. split; [right; split; reflexivity|].
    intros _ found [= <-]. discriminate.
  - assert (Ht : tame
      match rt conf with
      | Some rt =>
          do runtime_per_step <- div (rt * 60)%Q (rt_buffer conf);
          ret (Some runtime_per_step, false)
      | None =>
          match dict_lookup r (runtime_per_step_dict conf) with
          | Some runtime_per_step =>
              do _ <- print "Use runtime dict";
              ret (Some runtime_per_step, true)
          | None =>
              do _ <- print "Get runtime from previous runs";
              do runtime_per_step <-
                match identical_runs o with
                | [] => ret None
                | _ =>
                    match timing o with
                    | Some (mean, rt_sd) =>
                        do _ <- print ("Runtime per time step standard deviation: "
                                         ++ fmt 5 rt_sd ++ " s");
                        ret (Some mean)
                    | None => ret None
                    end
                end;
              do _ <-
                match runtime_per_step with
                | None =>
                    print "No runtime specified and no previous runs found. Skipping..."
                | Some _ => ret tt
                end;
              ret (runtime_per_step, true)
          end
      end).
    { destruct (rt conf).
      - apply tame_bind; [apply tame_div|intros ?; apply tame_ret].
      - destruct (dict_lookup r (runtime_per_step_dict conf)).
        + apply tame_bind; [apply tame_print|intros ?; apply tame_ret].
        + apply tame_bind; [apply tame_print|intros _].
          apply tame_bind.
          * destruct (identical_runs o); [apply tame_ret|].
            destruct (timing o) as [[mean sd]|]; [|apply tame_ret].
            apply tame_bind; [apply tame_print|intros ?; apply tame_ret].
          * intros rps. apply tame_bind; [|intros ?; apply tame_ret].
            destruct rps; [apply tame_ret|apply tame_print]. }
    destruct (Ht s) as [Ha He]. split; [exact He|].
    split; [left; exact Ha|]. discriminate.
Qed.

Lemma set_runtime_spec (n_steps : Q) (found : option Q * bool) (s : state) :
  let out := set_runtime fmt conf restart n_steps found s in
  snd out = inr tt /\
  args (fst out) =
    match fst found with
    | None => args s
    | Some x => <["rt_per_timestep" := (x * rt_buffer conf)%Q]> (args s)
    end.
Proof.
  cbv zeta. unfold set_runtime. destruct found as [[x|] p]; cbn [fst snd];
    [|split; reflexivity].
  unfold bind. cbn. destruct restart, p; cbn; split; reflexivity.
Qed.

(** All of it at once. *)
Lemma set_vmem_rt_spec (s : state) :
  let out := set_vmem_rt fmt o conf run_hours nslots restart test_run s in
  (forall k, k <> "n_rep" -> k <> "rt_per_timestep" -> k <> "vmem" ->
     args (fst out) !! k = args s !! k) /\
  (forall f, snd out = inl f -> expected_failure f) /\
  (snd out = inr false ->
     nslots <> 0 /\ is_Some (args (fst out) !! "rt_per_timestep") /\
     is_Some (args (fst out) !! "vmem")) /\
  (snd out = inr true ->
     test_run = false /\ args (fst out) !! "vmem" = args s !! "vmem").
Proof.
  cbv zeta.
  remember (set_vmem_rt fmt o conf run_hours nslots restart test_run s)
    as out eqn:Hout.
  unfold set_vmem_rt in Hout. unfold bind at 1 in Hout.
  unfold get at 1 in Hout.
  destruct (args s !! "dx") as [r|] eqn:Hdx.
  2:{ subst out. cbn [fst snd]. split; [reflexivity|].
      split; [|split; discriminate].
      intros f [= <-]. left. reflexivity. }
  unfold bind at 1 in Hout. unfold get at 1 in Hout.
  destruct (args s !! "dt") as [dt|] eqn:Hdt.
  2:{ subst out. cbn [fst snd]. split; [reflexivity|].
      split; [|split; discriminate].
      intros f [= <-]. right; left. reflexivity. }
  unfold bind at 1 in Hout. unfold div at 1 in Hout.
  destruct (Qeq_bool dt 0).
  { subst out. cbn [fail ret fst snd]. split; [reflexivity|].
    split; [|split; discriminate].
    intros f [= <-]. apply zero_division_expected. }
  cbn [ret] in Hout.
  set (n_steps := (3600 * run_hours / dt)%Q) in Hout.
  unfold bind at 1 in Hout.
  destruct (find_runtime_spec r n_steps s) as (He1 & Ha1 & Ht1).
  destruct (find_runtime fmt o conf test_run r n_steps s) as [s1 [e|found]];
    cbn [fst snd] in *.
  { subst out. cbn [fst snd].
    split; [|split; [intros f [= <-]; apply He1; reflexivity
                    |split; discriminate]].
    intros k Hk _ _. destruct Ha1 as [->|[_ ->]]; [reflexivity|].
    apply lookup_insert_ne. congruence. }
  unfold bind at 1 in Hout.
  destruct (set_runtime_spec n_steps found s1) as (Hr2 & Ha2).
  destruct (set_runtime fmt conf restart n_steps found s1) as [s2 res2];
    cbn [fst snd] in *. subst res2.
  unfold bind at 1 in Hout.
  destruct (tame_find_vmem s2) as (Ha3 & He3).
  pose proof (find_vmem_test_run s2) as Ht3.
  assert (Hframe : forall k, k <> "n_rep" -> k <> "rt_per_timestep" ->
            args s2 !! k = args s !! k).
  { intros k Hk Hk'. rewrite Ha2.
    assert (Hs1 : args s1 !! k = args s !! k).
    { destruct Ha1 as [->|[_ ->]]; [reflexivity|].
      apply lookup_insert_ne. congruence. }
    destruct (fst found); [|exact Hs1].
    rewrite lookup_insert_ne by congruence. exact Hs1. }
  destruct (find_vmem o conf nslots test_run s2) as [s3 [e|vmemi]];
    cbn [fst snd] in *.
  { subst out. cbn [fst snd].
    split; [|split; [intros f [= <-]; apply He3; reflexivity
                    |split; discriminate]].
    intros k Hk Hk' _. rewrite Ha3. apply Hframe; assumption. }
  destruct vmemi as [vmemi|].
  2:{ subst out. cbn.
      split; [intros k Hk Hk' _; rewrite Ha3; apply Hframe; assumption|].
      split; [discriminate|]. split; [discriminate|]. intros _.
      split; [|rewrite Ha3; apply Hframe; discriminate].
      destruct test_run; [|reflexivity].
      destruct (Ht3 eq_refl) as (v & Hv). discriminate Hv. }
  destruct (fst found) as [x|] eqn:Hfound.
  2:{ subst out. cbn.
      split; [intros k Hk Hk' _; rewrite Ha3; apply Hframe; assumption|].
      split; [discriminate|]. split; [discriminate|]. intros _.
      split; [|rewrite Ha3; apply Hframe; discriminate].
      destruct test_run; [|reflexivity].
      exfalso. apply (Ht1 eq_refl found eq_refl). exact Hfound. }
  unfold bind, div in Hout.
  destruct (Qeq_bool (inject_Z nslots) 0) eqn:Hn; subst out; cbn.
  { split; [intros k Hk Hk' _; rewrite Ha3; apply Hframe; assumption|].
    split; [|split; discriminate].
    intros f [= <-]. apply zero_division_expected. }
  split; [|split; [discriminate|split; [|discriminate]]].
  - intros k Hk Hk' Hk''. rewrite lookup_insert_ne by congruence.
    rewrite Ha3. apply Hframe; assumption.
  - intros _. split; [|split].
    + intros ->. discriminate Hn.
    + rewrite lookup_insert_ne by discriminate. rewrite Ha3, Ha2.
      rewrite lookup_insert_eq. eexists. reflexivity.
    + rewrite lookup_insert_eq. eexists. reflexivity.
Qed.

End SetVmemRt.

(** X17: [set_vmem_rt] changes no entry of [args] other than [n_rep],
    [rt_per_timestep] and [vmem], whatever it returns or raises.  When it
    returns [skip = False], both [rt_per_timestep] and [vmem] are set and
    [nslots] is not zero; when it returns [skip = True], the call was not
    a test run and [vmem] holds what it held before. *)
Theorem set_vmem_rt_effect (fmt : nat -> Q -> string) (o : oracle)
    (conf : config) (run_hours : Q) (nslots : Z) (restart test_run : bool)
    (s : state) :
  let out := set_vmem_rt fmt o conf run_hours nslots restart test_run s in
  (forall k, k <> "n_rep" -> k <> "rt_per_timestep" -> k <> "vmem" ->
     args (fst out) !! k = args s !! k) /\
  (snd out = inr false ->
     nslots <> 0 /\ is_Some (args (fst out) !! "rt_per_timestep") /\
     is_Some (args (fst out) !! "vmem")) /\
  (snd out = inr true ->
     test_run = false /\ args (fst out) !! "vmem" = args s !! "vmem").
Proof.
  cbv zeta.
  destruct (set_vmem_rt_spec fmt o conf run_hours nslots restart test_run s)
    as (H1 & _ & H3 & H4).
  split; [exact H1|]. split; [exact H3|exact H4].
Qed.


End VmemSpec.

(** ** submit_jobs: the horizontal domain and the slots *)

Module DomainSpec.
Import Domain.











End DomainSpec.

(** ** misc_tools.output_id_from_config *)

Module OutputIdSpec.
Import Grid OutputId.

Local Open Scope string_scope.

Lemma dict_set_keys {A} (dc : dict A) (k : string) (v0 v : A) :
  dict_get dc k = Some v0 -> map fst (dict_set dc k v) = map fst dc.
Proof.
  induction dc as [|[k' v'] dc IH]; cbn [dict_get dict_set]; [discriminate|].
  destruct (String.eqb_spec k' k) as [->|Hne]; [reflexivity|].
  intros H. cbn [map fst]. rewrite (IH H). reflexivity.
Qed.

Lemma dict_get_set_other {A} (dc : dict A) (k k' : string) (v : A) :
  k' <> k -> dict_get (dict_set dc k v) k' = dict_get dc k'.
Proof.
  intros Hne. induction dc as [|[k0 v0] dc IH]; cbn [dict_get dict_set].
  - destruct (String.eqb_spec k k') as [E|_]; [congruence|reflexivity].
  - destruct (String.eqb_spec k0 k) as [->|Hk0]; cbn [dict_get].
    + destruct (String.eqb_spec k k') as [E|_]; [congruence|reflexivity].
    + destruct (String.eqb k0 k'); [reflexivity|exact IH].
Qed.

Lemma dict_get_absent {A} (dc : dict A) (k : string) :
  dict_get dc k = None -> ~ In k (map fst dc).
Proof.
  induction dc as [|[k' v'] dc IH]; cbn [dict_get map fst]; [tauto|].
  destruct (String.eqb_spec k' k) as [->|Hne]; [discriminate|].
  intros H [E|Hin]; [contradiction|exact (IH H Hin)].
Qed.

(** One pass of the loop for a parameter that is not a composite. *)
Lemma rename_values (p : string) (vals : list scalar) (pn : dict names)
    (ID ID' : dict scalar) :
  rename p (Values vals) (Some pn) ID = inr ID' ->
  map fst ID' = map fst ID /\
  forall k, (dict_get pn k = None \/ k <> p) -> dict_get ID' k = dict_get ID k.
Proof.
  unfold rename. destruct (dict_get pn p) as [namep|] eqn:Hpn.
  2:{ intros [= <-]. split; reflexivity. }
  assert (Hset : forall name v0, dict_get ID p = Some v0 ->
            map fst (dict_set ID p name) = map fst ID /\
            forall k, (dict_get pn k = None \/ k <> p) ->
              dict_get (dict_set ID p name) k = dict_get ID k).
  { intros name v0 Hv0. split; [apply (dict_set_keys _ _ v0), Hv0|].
    intros k [Hk|Hk]; apply dict_get_set_other; congruence. }
  unfold item. destruct (dict_get ID p) as [cur|] eqn:Hcur;
    [|destruct namep; discriminate].
  destruct namep as [l|dn]; cbn [bind].
  - destruct (index vals cur) as [e|i]; cbn [bind]; [discriminate|].
    destruct (name_of (NamesList l) (SInt i)) as [e|name]; cbn [bind];
      [discriminate|].
    intros [= <-]. apply (Hset name cur eq_refl).
  - destruct (name_of (NamesDict dn) cur) as [e|name]; cbn [bind];
      [discriminate|].
    intros [= <-]. apply (Hset name cur eq_refl).
Qed.

Lemma for_items_values (pn : dict names) (entries : param_grid) :
  forall ID ID',
    existsb is_composite entries = false ->
    for_items entries (Some pn) ID = inr ID' ->
    map fst ID' = map fst ID /\
    forall k, (dict_get pn k = None \/ ~ In k (map fst entries)) ->
      dict_get ID' k = dict_get ID k.
Proof.
  induction entries as [|[p v] entries IH]; intros ID ID' Hplain;
    cbn [for_items].
  - intros [= <-]. split; reflexivity.
  - cbn [existsb] in Hplain. apply orb_false_iff in Hplain as [Hv Hrest].
    destruct v as [vals|subs]; [|discriminate Hv].
    cbn [drop_composite bind].
    destruct (rename p (Values vals) (Some pn) ID) as [e|ID1] eqn:Hren;
      cbn [bind]; [discriminate|].
    intros Hfor. destruct (rename_values _ _ _ _ _ Hren) as [Hk1 Hg1].
    destruct (IH ID1 ID' Hrest Hfor) as [Hk2 Hg2].
    split; [congruence|]. intros k Hk. rewrite Hg2, Hg1.
    + reflexivity.
    + destruct Hk as [Hk|Hk]; [left; exact Hk|].
      right. intros ->. apply Hk. left. reflexivity.
    + destruct Hk as [Hk|Hk]; [left; exact Hk|].
      right. intros Hin. apply Hk. right. exact Hin.
Qed.

Lemma for_items_no_names (entries : param_grid) (ID : dict scalar) :
  for_items entries None ID =
  if existsb is_composite entries then inl (Failed (ValueError msg_names))
  else inr ID.
Proof.
  induction entries as [|[p v] entries IH]; cbn [for_items existsb];
    [reflexivity|].
  destruct v as [vals|subs]; cbn [drop_composite rename is_composite snd bind orb].
  - exact IH.
  - reflexivity.
Qed.

(** X21: without [param_names] the ID is the configuration itself: the
    function raises its [ValueError] exactly when the grid has a
    composite parameter, and otherwise returns the configuration
    unchanged, with the string of its values joined by underscores, after
    [runID] and an underscore if a [runID] is given. *)
Theorem output_id_without_names (str : scalar -> string)
    (param_comb : dict scalar) (param_grid : param_grid)
    (runID : option string) :
  output_id_from_config str param_comb param_grid None runID =
  if existsb is_composite param_grid then
    inl (Failed (ValueError msg_names))
  else
    let ID_str := String.concat "_" (map (fun kv => str (snd kv)) param_comb) in
    inr (match runID with
         | Some runID => runID ++ "_" ++ ID_str
         | None => ID_str
         end, param_comb).
Proof.
  unfold output_id_from_config. rewrite for_items_no_names.
  destruct (existsb is_composite param_grid); cbn [bind]; [reflexivity|].
  destruct runID; reflexivity.
Qed.

(** X22: for a grid without composite parameters, the ID keeps the
    parameters of the configuration in their order, and only the values
    of parameters that are both in the grid and in [param_names] are
    replaced by names. *)
Theorem output_id_plain_grid (str : scalar -> string)
    (param_comb : dict scalar) (param_grid : param_grid)
    (param_names : dict names) (runID : option string)
    (ID_str : string) (ID : dict scalar) :
  existsb is_composite param_grid = false ->
  output_id_from_config str param_comb param_grid (Some param_names) runID
    = inr (ID_str, ID) ->
  map fst ID = map fst param_comb /\
  forall k, (dict_get param_names k = None \/ dict_get param_grid k = None) ->
    dict_get ID k = dict_get param_comb k.
Proof.
  intros Hplain. unfold output_id_from_config.
  destruct (for_items param_grid (Some param_names) param_comb)
    as [e|ID1] eqn:Hfor; cbn [bind]; [discriminate|].
  intros Hret.
  assert (HID : ID1 = ID) by (destruct runID; injection Hret; auto).
  subst ID1.
  destruct (for_items_values _ _ _ _ Hplain Hfor) as [Hkeys Hget].
  split; [exact Hkeys|]. intros k [Hk|Hk]; apply Hget.
  - left. exact Hk.
  - right. apply dict_get_absent. exact Hk.
Qed.

Lemma output_id_plain_grid_witness :
  map fst [("dx", SInt 100); ("topo", SStr "f"); ("nz", SInt 80)]
    = map fst sample_comb /\
  forall k, (dict_get sample_names k = None \/
             dict_get sample_plain_grid k = None) ->
    dict_get [("dx", SInt 100); ("topo", SStr "f"); ("nz", SInt 80)] k
      = dict_get sample_comb k.
Proof.
  apply (output_id_plain_grid sample_str sample_comb sample_plain_grid
           sample_names (Some "run") "run_100_f_80").
  - reflexivity.
  - vm_compute. reflexivity.
Defined.

End OutputIdSpec.

(** ** misc_tools.grid_combinations: the additional parameters *)

Module GridMore.
Import Grid.

Local Open Scope string_scope.

Lemma dict_get_set_same {A} (dc : dict A) (k : string) (v : A) :
  dict_get (dict_set dc k v) k = Some v.
Proof.
  induction dc as [|[k' v'] dc IH]; cbn [dict_set dict_get].
  - rewrite String.eqb_refl. reflexivity.
  - destruct (String.eqb_spec k' k) as [->|Hne]; cbn [dict_get].
    + rewrite String.eqb_refl. reflexivity.
    + destruct (String.eqb_spec k' k) as [E|_]; [contradiction|exact IH].
Qed.

Lemma dict_has_false {A} (dc : dict A) (k : string) :
  dict_has dc k = false -> dict_get dc k = None /\ ~ In k (map fst dc).
Proof.
  unfold dict_has. destruct (dict_get dc k) eqn:E; [discriminate|].
  intros _. split; [reflexivity|].
  apply OutputIdSpec.dict_get_absent. exact E.
Qed.

(** Lines 191-194 for one configuration: a value of the configuration
    stays, a parameter it lacks gets the value of [add_params], and the
    parameters of the configuration keep their places. *)
Lemma add_missing_spec (add_params : dict scalar) :
  forall comb,
    (forall k, dict_get (add_missing add_params comb) k =
       match dict_get comb k with
       | Some v => Some v
       | None => dict_get add_params k
       end) /\
    exists extra, add_missing add_params comb = (comb ++ extra)%list.
Proof.
  unfold add_missing.
  induction add_params as [|[k0 v0] ap IH]; intros comb; cbn [fold_left].
  - split.
    + intros k. destruct (dict_get comb k); reflexivity.
    + exists []. rewrite app_nil_r. reflexivity.
  - cbn [fst snd]. destruct (dict_has comb k0) eqn:Hhas.
    + destruct (IH comb) as [Hget [extra Hext]]. split; [|exists extra; exact Hext].
      intros k. rewrite Hget. destruct (dict_get comb k) eqn:Hk; [reflexivity|].
      cbn [dict_get]. destruct (String.eqb_spec k0 k) as [->|_]; [|reflexivity].
      unfold dict_has in Hhas. rewrite Hk in Hhas. discriminate Hhas.
    + destruct (dict_has_false _ _ Hhas) as [Hnone Hnot].
      destruct (IH (dict_set comb k0 v0)) as [Hget [extra Hext]]. split.
      * intros k. rewrite Hget. cbn [dict_get].
        destruct (String.eqb_spec k0 k) as [->|Hne].
        -- rewrite dict_get_set_same, Hnone. reflexivity.
        -- rewrite OutputIdSpec.dict_get_set_other by congruence.
           reflexivity.
      * exists ((k0, v0) :: extra). rewrite Hext.
        rewrite (GridSpec.dict_set_new comb k0 v0 Hnot), <- app_assoc.
        reflexivity.
Qed.

(** X23: the configurations with the additional parameters.  There is one
    for each configuration of the grid, in the same order; it begins with
    the parameters of the grid configuration, with their values, and a
    parameter that the grid configuration lacks has the value of
    [add_params]: the grid takes precedence. *)
Theorem combs_full_fills_in (g : param_grid) (add_params : dict scalar)
    (res : result) :
  grid_combinations g (Some add_params) = Ret res ->
  length (combs_full res) = length (combs res) /\
  forall i comb, nth_error (combs res) i = Some comb ->
    exists full extra,
      nth_error (combs_full res) i = Some full /\
      full = (comb ++ extra)%list /\
      forall k, dict_get full k =
        match dict_get comb k with
        | Some v => Some v
        | None => dict_get add_params k
        end.
Proof.
  unfold grid_combinations.
  destruct (for_params g _) as [st| |e]; [|discriminate|discriminate].
  intros [= <-]. cbn [combs combs_full].
  split; [apply length_map|]. intros i comb Hi.
  destruct (add_missing_spec add_params comb) as [Hget [extra Hext]].
  exists (add_missing add_params comb), extra.
  split; [|split; [exact Hext|exact Hget]].
  rewrite nth_error_map, Hi. reflexivity.
Qed.

Lemma combs_full_fills_in_witness :
  exists res,
    grid_combinations sample_grid
      (Some [("topo", SStr "bell"); ("dt", SInt 2)]) = Ret res /\
    length (combs_full res) = length (combs res) /\
    forall i comb, nth_error (combs res) i = Some comb ->
      exists full extra,
        nth_error (combs_full res) i = Some full /\
        full = (comb ++ extra)%list /\
        forall k, dict_get full k =
          match dict_get comb k with
          | Some v => Some v
          | None => dict_get [("topo", SStr "bell"); ("dt", SInt 2)] k
          end.
Proof.
  eexists. split; [reflexivity|].
  apply (combs_full_fills_in sample_grid
           [("topo", SStr "bell"); ("dt", SInt 2)]).
  reflexivity.
Defined.

End GridMore.
